(** * Request hooks and data transforms of the snippet collection

    A shallow embedding of the request hooks ([useRequest], the [useAxios]
    variants), of the pure data transforms ([generateC],
    [transformToBarData]) and of the tree grids and the filter drawer, with
    the properties stated about them.

    JavaScript values are modelled by [jsval]. Numbers are the integers and
    [NaN]; positive and negative zero are one value, which is how both [===]
    and [Set] treat them. Rocq equality on [jsval] is the SameValueZero
    comparison that [Set] uses; [===] ([strict_eq]) differs from it on [NaN],
    which is not equal to itself. Objects held as opaque data are compared by
    reference ([JObj]). *)

From stdpp Require Import gmap strings list fin_maps.
From Stdlib Require Import ZArith Lia.

Open Scope Z_scope.

(** ** JavaScript values *)

Inductive jsval : Type :=
  | JUndefined
  | JNull
  | JBool (b : bool)
  | JNum (n : Z)
  | JNaN
  | JStr (s : string)
  | JObj (ref : nat).

#[global] Instance jsval_eq_dec : EqDecision jsval.
Proof. solve_decision. Defined.

(** [ToBoolean] *)
Definition truthy (v : jsval) : bool :=
  match v with
  | JUndefined | JNull => false
  | JBool b => b
  | JNum n => negb (n =? 0)
  | JNaN => false
  | JStr s => negb (String.eqb s "")
  | JObj _ => true
  end.

(** [a === b] on the values above: the same value, except that [NaN] is not
    equal to anything, itself included. *)
Definition strict_eq (a b : jsval) : bool :=
  match a with
  | JNaN => false
  | _ => bool_decide (a = b)
  end.

(** ** [Set]: insertion-ordered, SameValueZero membership *)

Module JsSet.
Section JsSet.
Context {A : Type} `{EqDecision A}.

(** [Set.prototype.add]: a value already present keeps its place. *)
Definition add (s : list A) (v : A) : list A :=
  if bool_decide (v ∈ s) then s else s ++ [v].

(** [new Set(iterable)] followed by iteration ([[...s]], [Array.from(s)]). *)
Definition of_list (l : list A) : list A := fold_left add l [].

(** What "the distinct values in first-occurrence order" says: the entry at
    position [i] is kept exactly when it does not occur before [i]. *)
Definition first_occurrences (l : list A) : list A :=
  concat (imap (fun i x => if bool_decide (x ∈ take i l) then [] else [x]) l).

End JsSet.
End JsSet.

(** ** Plain objects *)

(** An object literal is a finite map from property names to values; reading
    a missing property yields [undefined]. *)
Abbreviation obj := (gmap string jsval).

Definition get (o : obj) (k : string) : jsval := default JUndefined (o !! k).

(** [{...a, ...b}]: the properties of [b] win. *)
Definition spread (a b : obj) : obj := b ∪ a.

(** ** [generateC] (filter options from column descriptors) *)

Module GenerateC.

(** A column descriptor [{ field, headerName, options? }]. *)
Record column := Column {
  field : string;
  headerName : jsval;
  options : option (list obj) }.

(** An entry [{ label: v }] of [listOptions]. *)
Record list_option := ListOption { option_label : jsval }.

Record filter := Filter {
  label : jsval;
  listOptions : list list_option }.

Definition generateC (a : list column) (b : list obj) : list filter :=
  map (fun item =>
         Filter (headerName item)
           match options item with
           | Some opts => map (fun opt => ListOption (get opt "label")) opts
           | None =>
               let uniqueValues :=
                 JsSet.of_list (map (fun entry => get entry (field item)) b) in
               map (fun value => ListOption value) uniqueValues
           end) a.

End GenerateC.

(** ** [transformToBarData] (stacked bar series from components) *)

Module BarData.

(** A component [{ name, label, value, color }]: the elements of
    [components] are objects; an absent property reads as [JUndefined]. *)
Record component := Component {
  name : jsval;
  label : jsval;
  value : jsval;
  color : jsval }.

Record series := Series {
  data : list jsval;
  stack : string;
  series_label : jsval;
  series_color : jsval }.

Record bar_data := BarData {
  barData : list series;
  labels : list jsval }.

Definition transformToBarData (components : list component) : bar_data :=
  let names := JsSet.of_list (map name components) in
  let uniqueLabels := JsSet.of_list (map label components) in
  let barData :=
    map (fun l =>
           let data :=
             map (fun n =>
                    match find (fun comp => strict_eq (name comp) n
                                            && strict_eq (label comp) l)
                               components with
                    | Some item => value item
                    | None => JNum 0
                    end) names in
           let color :=
             match find (fun comp => strict_eq (label comp) l) components with
             | Some comp => color comp
             | None => JUndefined
             end in
           Series data "A" l color) uniqueLabels in
  BarData barData names.

End BarData.

(** ** The HTTP client as the hooks see it *)

(** Why a request did not succeed. *)
Inductive failure : Type :=
  | NetworkFailure
  | TimedOut
  | BadStatus (status : Z).

(** A value a request promise can reject with. [CanceledError] is what the
    client rejects with once the request's signal (or cancel token) has been
    triggered; [AxiosError] covers transport failures and non-2xx statuses;
    [PlainError] is an [Error] built by an interceptor; [NonError] is any
    thrown value that is not an [Error]. *)
Inductive thrown : Type :=
  | CanceledError (message : string)
  | AxiosError (cause : failure) (message : string)
  | PlainError (message : string)
  | NonError (v : jsval).

(** [axios.isCancel(err)] *)
Definition isCancel (err : thrown) : bool :=
  match err with CanceledError _ => true | _ => false end.

(** [err instanceof Error] *)
Definition instanceof_Error (err : thrown) : bool :=
  match err with NonError _ => false | _ => true end.

(** [err.name] *)
Definition error_name (err : thrown) : jsval :=
  match err with
  | CanceledError _ => JStr "CanceledError"
  | AxiosError _ _ => JStr "AxiosError"
  | PlainError _ => JStr "Error"
  | NonError _ => JUndefined
  end.

(** [err.message] *)
Definition error_message (err : thrown) : jsval :=
  match err with
  | CanceledError m | AxiosError _ m | PlainError m => JStr m
  | NonError _ => JUndefined
  end.

(** What the transport would answer to a request. *)
Inductive reply : Type :=
  | Ok (d : jsval)
  | Fail (err : thrown).

(** How a promise returned by a hook function settles. *)
Inductive settled : Type :=
  | Fulfilled (v : jsval)
  | Rejected (err : thrown).

(** Invocations of the caller-supplied callbacks, in order. *)
Inductive call : Type :=
  | OnSuccess (d : jsval)
  | OnError (err : thrown).

(** A call of the client whose promise is not settled yet: its number, the
    abort controller (or cancel token source) whose signal it carries, the
    configuration it was made with, and what the suspended [async] function
    needs on resumption. *)
Record request (K : Type) := Request {
  rid : nat;
  signal : nat;
  sent : obj;
  closure : K }.
Arguments Request {K}.
Arguments rid {K}.
Arguments signal {K}.
Arguments sent {K}.
Arguments closure {K}.

(** The client: how many calls were made so far (they number the calls),
    those whose promise is not settled yet, how many controllers were
    created, those that were triggered, and how many of the calls were handed
    to the transport. *)
Record client (K : Type) := Client {
  issued : nat;
  pending : list (request K);
  controllers : nat;
  aborted : list nat;
  transmitted : nat }.
Arguments Client {K}.
Arguments issued {K}.
Arguments pending {K}.
Arguments controllers {K}.
Arguments aborted {K}.
Arguments transmitted {K}.

Definition idle {K} : client K := Client 0 [] 0 [] 0.

(** [new AbortController()] / [axios.CancelToken.source()] *)
Definition new_controller {K} (n : client K) : nat * client K :=
  (controllers n,
   Client (issued n) (pending n) (S (controllers n)) (aborted n) (transmitted n)).

(** [controller.abort()] / [source.cancel(msg)] *)
Definition abort {K} (c : nat) (n : client K) : client K :=
  Client (issued n) (pending n) (controllers n) (c :: aborted n) (transmitted n).

Definition is_aborted {K} (c : nat) (n : client K) : bool :=
  bool_decide (c ∈ aborted n).

(** [axios(config)] with the signal (or cancel token) of controller [c] in
    the configuration: the call gets the next number and the caller suspends.
    The client looks at the signal before anything else: when it has been
    triggered already, the call is rejected as cancelled and nothing is handed
    to the transport; its entry then only stands for the suspended caller,
    which [outcome] resumes with the cancellation. *)
Definition dispatch {K} (c : nat) (cfg : obj) (k : K) (n : client K) : client K :=
  Client (S (issued n)) (pending n ++ [Request (issued n) c cfg k])
         (controllers n) (aborted n)
         (if is_aborted c n then transmitted n else S (transmitted n)).

Fixpoint take_request {K} (id : nat) (l : list (request K))
  : option (request K * list (request K)) :=
  match l with
  | [] => None
  | r :: t =>
      if bool_decide (rid r = id) then Some (r, t)
      else match take_request id t with
           | Some (r', t') => Some (r', r :: t')
           | None => None
           end
  end.

Definition with_pending {K} (l : list (request K)) (n : client K) : client K :=
  Client (issued n) l (controllers n) (aborted n) (transmitted n).

(** What the awaiting function observes when the client was called with the
    hook's signal (or cancel token) in the configuration and hands that
    configuration to the transport as it is: a call whose signal was triggered
    rejects with a [CanceledError], whatever the transport had answered. The
    resumption of the awaiting function is taken to follow the settlement at
    once: nothing of the hook runs in between. *)
Definition outcome {K} (n : client K) (r : request K) (rep : reply) : reply :=
  if is_aborted (signal r) n then Fail (CanceledError "canceled") else rep.

(** An axios instance stands between a hook and the transport, and its
    request interceptors may rewrite the configuration. [PassesSignal]: the
    signal the hook supplied reaches the transport (global [axios], or an
    instance whose interceptors leave [config.signal] alone).
    [ReplacesSignal]: the request interceptor of the instance assigns
    [config.signal] a signal of a controller of its own, as
    [removePendingRequest] of the instance in unnamed part_006 does
    ([config.signal = controller.signal]); the transport then listens to the
    instance's controller, the hook's [abort()] reaches no listener, and the
    hook sees whatever the transport answers (a cancellation among the
    answers, when the instance aborts its own controller). *)
Inductive signal_policy : Type :=
  | PassesSignal
  | ReplacesSignal.

Definition outcome_via {K} (i : signal_policy) (n : client K) (r : request K)
    (rep : reply) : reply :=
  match i with
  | PassesSignal => outcome n r rep
  | ReplacesSignal => rep
  end.

(** ** [useRequest] (src/todolist/hooks/useRequest.ts)

    The hook sends its requests through [axiosInstance], imported from
    [../utils/axios]; the sources hold no file of that path. The instance
    module of unnamed part_006 fits the import: it resolves with
    [response.data], which is what [run] stores, and its request interceptor
    replaces [config.signal]. [settle], [step] and [exec] describe the hook
    over an instance that passes the hook's signal on; [settle_via],
    [step_via] and [exec_via] take the policy of the instance as a
    parameter. *)

Module UseRequest.

(** The hook's arguments; for the two callbacks only their presence matters
    (they are taken not to throw). *)
Record props := Props {
  config : obj;
  manual : bool;
  onSuccess : bool;
  onError : bool;
  initialData : jsval }.

Record world := World {
  loading : bool;
  data : jsval;
  error : option thrown;
  abortControllerRef : option nat;
  net : client props;
  calls : list call }.

Definition setLoading (b : bool) (w : world) : world :=
  World b (data w) (error w) (abortControllerRef w) (net w) (calls w).
Definition setData (d : jsval) (w : world) : world :=
  World (loading w) d (error w) (abortControllerRef w) (net w) (calls w).
Definition setError (e : option thrown) (w : world) : world :=
  World (loading w) (data w) e (abortControllerRef w) (net w) (calls w).
Definition set_ref (r : option nat) (w : world) : world :=
  World (loading w) (data w) (error w) r (net w) (calls w).
Definition set_net (n : client props) (w : world) : world :=
  World (loading w) (data w) (error w) (abortControllerRef w) n (calls w).
Definition invoke (c : call) (w : world) : world :=
  World (loading w) (data w) (error w) (abortControllerRef w) (net w) (calls w ++ [c]).

(** The three [useState] cells and the ref after the first render. *)
Definition mount (p : props) : world :=
  World (negb (manual p)) (initialData p) None None idle [].

(** [run], up to the [await]. *)
Definition run (p : props) (runConfig : option obj) (w : world) : world :=
  let w := match abortControllerRef w with
           | Some c => set_net (abort c (net w)) w
           | None => w
           end in
  let '(c, n) := new_controller (net w) in
  let w := set_ref (Some c) (set_net n w) in
  let finalConfig := spread (config p) (default ∅ runConfig) in
  let w := setLoading true w in
  let w := setError None w in
  set_net (dispatch c finalConfig p (net w)) w.

(** [run], from the [await] on: the [try] body after the response, the
    [catch] and the [finally]; returns how [run]'s promise settles. *)
Definition run_resume (p : props) (res : reply) (w : world) : world * settled :=
  match res with
  | Ok d =>
      let w := setData d w in
      let w := if onSuccess p then invoke (OnSuccess d) w else w in
      (setLoading false w, Fulfilled d)
  | Fail err =>
      if isCancel err then (setLoading false w, Rejected err)
      else
        let error := if instanceof_Error err then err
                     else PlainError "Request failed" in
        let w := setError (Some error) w in
        let w := if onError p then invoke (OnError error) w else w in
        (setLoading false w, Rejected error)
  end.

(** The effect's cleanup. *)
Definition unmount (w : world) : world :=
  match abortControllerRef w with
  | Some c => set_net (abort c (net w)) w
  | None => w
  end.

Definition reset (p : props) (w : world) : world :=
  setLoading false (setError None (setData (initialData p) w)).

Definition refresh (p : props) (w : world) : world := run p None w.

(** What can happen to a mounted hook: a call through one of the returned
    functions (each closed over the props of some render), the settlement of
    a request in flight, the unmount. *)
Inductive event : Type :=
  | Run (p : props) (runConfig : option obj)
  | Refresh (p : props)
  | Reset (p : props)
  | Settle (id : nat) (rep : reply)
  | Unmount.

Definition settle (id : nat) (rep : reply) (w : world) : world * option settled :=
  match take_request id (pending (net w)) with
  | Some (r, rest) =>
      let w := set_net (with_pending rest (net w)) w in
      let '(w, s) := run_resume (closure r) (outcome (net w) r rep) w in
      (w, Some s)
  | None => (w, None)
  end.

Definition step (ev : event) (w : world) : world :=
  match ev with
  | Run p runConfig => run p runConfig w
  | Refresh p => refresh p w
  | Reset p => reset p w
  | Settle id rep => fst (settle id rep w)
  | Unmount => unmount w
  end.

Definition exec (evs : list event) (w : world) : world :=
  fold_left (fun w ev => step ev w) evs w.

(** The settlement of a request under an instance with policy [i]. [run]
    always calls with the signal of a controller it has just created, so the
    call is handed to the transport under either policy. *)
Definition settle_via (i : signal_policy) (id : nat) (rep : reply) (w : world)
    : world * option settled :=
  match take_request id (pending (net w)) with
  | Some (r, rest) =>
      let w := set_net (with_pending rest (net w)) w in
      let '(w, s) := run_resume (closure r) (outcome_via i (net w) r rep) w in
      (w, Some s)
  | None => (w, None)
  end.

Definition step_via (i : signal_policy) (ev : event) (w : world) : world :=
  match ev with
  | Run p runConfig => run p runConfig w
  | Refresh p => refresh p w
  | Reset p => reset p w
  | Settle id rep => fst (settle_via i id rep w)
  | Unmount => unmount w
  end.

Definition exec_via (i : signal_policy) (evs : list event) (w : world) : world :=
  fold_left (fun w ev => step_via i ev w) evs w.

(** No two requests of the hook are in flight at once, and the state is not
    reset under a request in flight. *)
Fixpoint sequential (evs : list event) (w : world) : bool :=
  match evs with
  | [] => true
  | ev :: evs' =>
      match ev with
      | Run _ _ | Refresh _ | Reset _ =>
          bool_decide (pending (net w) = [])
      | Settle _ _ | Unmount => true
      end && sequential evs' (step ev w)
  end.

End UseRequest.

(** ** [useAxios] with one abort controller (src/axios4/useAxios.ts) *)

Module UseAxiosAbort.

Record props := Props {
  config : obj;
  immediate : bool }.

Record state := State {
  data : jsval;
  loading : bool;
  error : option thrown }.

(** Every render creates a controller; [fetchData] is memoised with an empty
    dependency list and so keeps the signal of the first one. The effect's
    cleanup calls the [cancel] of the render that installed the effect. *)
Record world := World {
  st : state;
  render_controller : nat;
  effect_controller : nat;
  effect_deps : bool * jsval;
  net : client unit }.

Definition fetch_controller : nat := 0%nat.

Definition setState (s : state) (w : world) : world :=
  World s (render_controller w) (effect_controller w) (effect_deps w) (net w).
Definition set_net (n : client unit) (w : world) : world :=
  World (st w) (render_controller w) (effect_controller w) (effect_deps w) n.

(** [fetchData], up to the [await]. *)
Definition fetchData (currentConfig : obj) (w : world) : world :=
  let w := setState (State (data (st w)) true (error (st w))) w in
  let finalConfig := currentConfig in
  set_net (dispatch fetch_controller finalConfig tt (net w)) w.

(** [fetchData], from the [await] on. *)
Definition fetchData_resume (res : reply) (w : world) : world * settled :=
  match res with
  | Ok d => (setState (State d false None) w, Fulfilled JUndefined)
  | Fail err =>
      if negb (instanceof_Error err
               && strict_eq (error_name err) (JStr "CanceledError"))
      then (setState (State JNull false (Some err)) w, Fulfilled JUndefined)
      else (w, Fulfilled JUndefined)
  end.

(** The [cancel] returned by the latest render. *)
Definition cancel (w : world) : world :=
  set_net (abort (render_controller w) (net w)) w.

Definition refetch (p : props) (newConfig : option obj) (w : world) : world :=
  fetchData (default (config p) newConfig) w.

Definition deps (p : props) : bool * jsval := (immediate p, get (config p) "url").

Definition run_effect (p : props) (w : world) : world :=
  if immediate p then fetchData (config p) w else w.

(** First render and its effect. *)
Definition mount (p : props) : world :=
  let '(c, n) := new_controller idle in
  run_effect p (World (State JNull (immediate p) None) c c (deps p) n).

(** A later render: a fresh controller; when [immediate] or [config.url]
    changed, the old cleanup runs and the effect is installed anew. *)
Definition rerender (p : props) (w : world) : world :=
  let '(c, n) := new_controller (net w) in
  let w := World (st w) c (effect_controller w) (effect_deps w) n in
  if bool_decide (deps p = effect_deps w) then w
  else
    let w := set_net (abort (effect_controller w) (net w)) w in
    run_effect p (World (st w) c c (deps p) (net w)).

Definition unmount (w : world) : world :=
  set_net (abort (effect_controller w) (net w)) w.

Inductive event : Type :=
  | Rerender (p : props)
  | Refetch (p : props) (newConfig : option obj)
  | Cancel
  | Settle (id : nat) (rep : reply)
  | Unmount.

Definition settle (id : nat) (rep : reply) (w : world) : world * option settled :=
  match take_request id (pending (net w)) with
  | Some (r, rest) =>
      let w := set_net (with_pending rest (net w)) w in
      let '(w, s) := fetchData_resume (outcome (net w) r rep) w in
      (w, Some s)
  | None => (w, None)
  end.

Definition step (ev : event) (w : world) : world :=
  match ev with
  | Rerender p => rerender p w
  | Refetch p newConfig => refetch p newConfig w
  | Cancel => cancel w
  | Settle id rep => fst (settle id rep w)
  | Unmount => unmount w
  end.

Definition exec (evs : list event) (w : world) : world :=
  fold_left (fun w ev => step ev w) evs w.

(** No two requests in flight at once, and nothing is ever cancelled: no
    unmount, no [cancel], no change of the effect's dependencies, no reply
    that is itself a cancellation. *)
Fixpoint sequential (evs : list event) (w : world) : bool :=
  match evs with
  | [] => true
  | ev :: evs' =>
      match ev with
      | Refetch _ _ => bool_decide (pending (net w) = [])
      | Rerender p => bool_decide (deps p = effect_deps w)
      | Settle _ (Ok _) => true
      | Settle _ (Fail err) => negb (isCancel err)
      | Cancel | Unmount => false
      end && sequential evs' (step ev w)
  end.

End UseAxiosAbort.

(** ** [useAxios] with pagination, cache and retry (unnamed part_000)

    The hook is taken without [interceptors] in its options. [fetchData]
    hands [setPagination] an updater function; React runs the updaters when
    it renders the component next, so the world keeps the pagination of the
    last render and the updaters queued since. *)

Module UseAxiosPaged.

Record props := Props {
  config : obj;
  manual : bool;
  cache : bool;
  retry : Z;
  onSuccess : bool;
  onError : bool }.

Record state := State {
  data : jsval;
  loading : bool;
  error : option thrown }.

(** [pagination.items]: an array built by a spread, or response data stored
    as it came. *)
Inductive items_value : Type :=
  | ItemsArray (l : list jsval)
  | ItemsData (d : jsval).

Record pagination_state := Pagination {
  page : Z;
  pageSize : Z;
  hasMore : bool;
  total : Z;
  items : items_value }.

(** The two updaters [fetchData] passes to [setPagination], each closed over
    [response.data]. *)
Inductive pagination_updater : Type :=
  | NextPage (d : jsval)
  | FirstPage (d : jsval).

Record world := World {
  st : state;
  cacheData : obj;
  cancelTokenSource : option nat;
  retryCount : Z;
  globalConfig : obj;
  net : client (props * bool);
  calls : list call;
  pagination : pagination_state;
  pagination_updates : list pagination_updater }.

Definition setState (s : state) (w : world) : world :=
  World s (cacheData w) (cancelTokenSource w) (retryCount w) (globalConfig w)
        (net w) (calls w) (pagination w) (pagination_updates w).
Definition set_cacheData (c : obj) (w : world) : world :=
  World (st w) c (cancelTokenSource w) (retryCount w) (globalConfig w)
        (net w) (calls w) (pagination w) (pagination_updates w).
Definition set_source (s : option nat) (w : world) : world :=
  World (st w) (cacheData w) s (retryCount w) (globalConfig w) (net w) (calls w)
        (pagination w) (pagination_updates w).
Definition set_retryCount (k : Z) (w : world) : world :=
  World (st w) (cacheData w) (cancelTokenSource w) k (globalConfig w)
        (net w) (calls w) (pagination w) (pagination_updates w).
Definition set_net (n : client (props * bool)) (w : world) : world :=
  World (st w) (cacheData w) (cancelTokenSource w) (retryCount w)
        (globalConfig w) n (calls w) (pagination w) (pagination_updates w).
Definition invoke (c : call) (w : world) : world :=
  World (st w) (cacheData w) (cancelTokenSource w) (retryCount w)
        (globalConfig w) (net w) (calls w ++ [c]) (pagination w)
        (pagination_updates w).
(** [setPagination(updater)]: the updater is queued for the next render. *)
Definition setPagination (u : pagination_updater) (w : world) : world :=
  World (st w) (cacheData w) (cancelTokenSource w) (retryCount w)
        (globalConfig w) (net w) (calls w) (pagination w)
        (pagination_updates w ++ [u]).
Definition set_pagination (pg : pagination_state) (w : world) : world :=
  World (st w) (cacheData w) (cancelTokenSource w) (retryCount w)
        (globalConfig w) (net w) (calls w) pg [].

Section Paged.

(** [JSON.stringify] on request configurations. *)
Variable JSON_stringify : obj -> string.

Definition init (p : props) (g : obj) : world :=
  World (State JNull (negb (manual p)) None) ∅ None 0 g idle []
        (Pagination 1 10 true 0 (ItemsArray [])) [].

(** [fetchData(isLoadMore)], up to the [await]. *)
Definition fetchData (p : props) (isLoadMore : bool) (w : world) : world :=
  let cacheKey := JSON_stringify (config p) in
  if cache p && truthy (get (cacheData w) cacheKey) && negb isLoadMore then
    setState (State (get (cacheData w) cacheKey) false None) w
  else
    let w := match cancelTokenSource w with
             | Some c => set_net (abort c (net w)) w
             | None => w
             end in
    let '(c, n) := new_controller (net w) in
    let w := set_source (Some c) (set_net n w) in
    let w := setState (State (data (st w)) true None) w in
    let mergedConfig := spread (globalConfig w) (config p) in
    set_net (dispatch c mergedConfig (p, isLoadMore) (net w)) w.

(** [fetchData(isLoadMore)], from the [await] on. *)
Definition fetchData_resume (p : props) (isLoadMore : bool) (res : reply)
    (w : world) : world :=
  let cacheKey := JSON_stringify (config p) in
  match res with
  | Ok d =>
      let w := if cache p && negb isLoadMore
               then set_cacheData (<[cacheKey := d]> (cacheData w)) w
               else w in
      let w := if isLoadMore then setPagination (NextPage d) w
               else setPagination (FirstPage d) w in
      let w := setState (State d false None) w in
      if onSuccess p then invoke (OnSuccess d) w else w
  | Fail err =>
      if isCancel err then w
      else if retryCount w <? retry p then
        let w := set_retryCount (retryCount w + 1) w in
        fetchData p isLoadMore w
      else
        let w := setState (State JNull false (Some err)) w in
        if onError p then invoke (OnError err) w else w
  end.

Definition unmount (w : world) : world :=
  match cancelTokenSource w with
  | Some c => set_net (abort c (net w)) w
  | None => w
  end.

(** [loadMore], with the [pagination] of the last render. *)
Definition loadMore (p : props) (w : world) : world :=
  if hasMore (pagination w) then fetchData p true w else w.

Definition settle (id : nat) (rep : reply) (w : world) : world :=
  match take_request id (pending (net w)) with
  | Some (r, rest) =>
      let w := set_net (with_pending rest (net w)) w in
      fetchData_resume (fst (closure r)) (snd (closure r))
                       (outcome (net w) r rep) w
  | None => w
  end.

End Paged.

(** The next render runs the queued updaters in order on the pagination of
    the last render. What a spread and [.length] make of response data is
    the caller's to say. *)
Section Render.

(** The elements a spread [...v] yields; [None] when [v] is not iterable and
    the spread throws a TypeError ([null], [undefined], numbers, booleans,
    plain objects). *)
Variable spread_elements : jsval -> option (list jsval).
(** [v.length > 0], for a [v] that can be spread. *)
Variable length_positive : jsval -> bool.

Definition items_elements (i : items_value) : option (list jsval) :=
  match i with
  | ItemsArray l => Some l
  | ItemsData d => spread_elements d
  end.

(** One updater applied to [prev]; [None] when it throws. The object literal
    evaluates [items] first: [...prev.items], then [...response.data]. *)
Definition run_updater (u : pagination_updater) (prev : pagination_state)
  : option pagination_state :=
  match u with
  | NextPage d =>
      match items_elements (items prev), spread_elements d with
      | Some l1, Some l2 =>
          Some (Pagination (page prev + 1) (pageSize prev) (length_positive d)
                           (total prev) (ItemsArray (l1 ++ l2)))
      | _, _ => None
      end
  | FirstPage d =>
      Some (Pagination 1 (pageSize prev) true (total prev) (ItemsData d))
  end.

Fixpoint run_updaters (us : list pagination_updater) (prev : pagination_state)
  : option pagination_state :=
  match us with
  | [] => Some prev
  | u :: us' =>
      match run_updater u prev with
      | Some pg => run_updaters us' pg
      | None => None
      end
  end.

(** The render after the last state change: [None] when an updater throws,
    and the render with it. *)
Definition render (w : world) : option world :=
  match run_updaters (pagination_updates w) (pagination w) with
  | Some pg => Some (set_pagination pg w)
  | None => None
  end.

End Render.
End UseAxiosPaged.

(** ** [useAxios] with cache and delayed retry (unnamed part_007, part_008)

    The two files differ in the cache only: part_007 keeps the response data
    and takes any truthy cached value; part_008 keeps the data with the time
    it was stored and takes it while it is younger than [cacheExpiry]. The
    hook is written once over the cache test and instantiated twice. *)

Module UseAxiosRetry.

Record props := Props {
  url : string;
  method : string;
  data : jsval;
  params : jsval;
  headers : jsval;
  cache : bool;
  cacheExpiry : Z;
  retry : Z;
  retryDelay : Z }.

Section Hook.

(** What the cache holds per key. *)
Variable entry : Type.
(** The cache test at the head of [fetchData], at time [now]: the cached data
    when the test passes. *)
Variable cache_hit : Z -> props -> gmap string entry -> option jsval.
(** What is stored after a response, at time [now]. *)
Variable cache_entry : jsval -> Z -> entry.

Record world := World {
  response : jsval;
  error : jsval;
  loading : bool;
  cacheRef : gmap string entry;
  retryCountRef : Z;
  net : client props;
  timers : list (Z * props);
  effect_installed : bool }.

Definition setResponse (d : jsval) (w : world) : world :=
  World d (error w) (loading w) (cacheRef w) (retryCountRef w) (net w)
        (timers w) (effect_installed w).
Definition setError (e : jsval) (w : world) : world :=
  World (response w) e (loading w) (cacheRef w) (retryCountRef w) (net w)
        (timers w) (effect_installed w).
Definition setLoading (b : bool) (w : world) : world :=
  World (response w) (error w) b (cacheRef w) (retryCountRef w) (net w)
        (timers w) (effect_installed w).
Definition set_cacheRef (c : gmap string entry) (w : world) : world :=
  World (response w) (error w) (loading w) c (retryCountRef w) (net w)
        (timers w) (effect_installed w).
Definition set_retryCountRef (k : Z) (w : world) : world :=
  World (response w) (error w) (loading w) (cacheRef w) k (net w)
        (timers w) (effect_installed w).
Definition set_net (n : client props) (w : world) : world :=
  World (response w) (error w) (loading w) (cacheRef w) (retryCountRef w) n
        (timers w) (effect_installed w).
Definition set_timers (t : list (Z * props)) (w : world) : world :=
  World (response w) (error w) (loading w) (cacheRef w) (retryCountRef w)
        (net w) t (effect_installed w).
Definition set_effect_installed (b : bool) (w : world) : world :=
  World (response w) (error w) (loading w) (cacheRef w) (retryCountRef w)
        (net w) (timers w) b.

(** The one cancel token source of the hook, created with the ref. *)
Definition cancelTokenSourceRef : nat := 0%nat.

(** The state cells and refs after the first render. *)
Definition init : world :=
  World JNull JNull true ∅ 0 (snd (new_controller idle)) [] false.

Definition request_config (p : props) : obj :=
  {[ "url" := JStr (url p); "method" := JStr (method p); "data" := data p;
     "params" := params p; "headers" := headers p ]}.

(** The [finally] block. *)
Definition finally (p : props) (w : world) : world :=
  if retry p <=? retryCountRef w then setLoading false w else w.

(** [fetchData], up to the [await] (or to its end on a cache hit). *)
Definition fetchData (p : props) (now : Z) (w : world) : world :=
  match cache_hit now p (cacheRef w) with
  | Some d =>
      let w := setResponse d w in
      let w := setLoading false w in
      finally p w
  | None =>
      set_net (dispatch cancelTokenSourceRef (request_config p) p (net w)) w
  end.

(** [setTimeout(fetchData, retryDelay)] *)
Definition setTimeout (p : props) (w : world) : world :=
  set_timers (timers w ++ [(retryDelay p, p)]) w.

(** [fetchData], from the [await] on. *)
Definition fetchData_resume (p : props) (now : Z) (res : reply) (w : world)
  : world :=
  match res with
  | Ok d =>
      let w := setResponse d w in
      let w := if cache p
               then set_cacheRef (<[url p := cache_entry d now]> (cacheRef w)) w
               else w in
      finally p w
  | Fail err =>
      if isCancel err then finally p w
      else
        let w := setError (if truthy (error_message err) then error_message err
                           else JStr "Something went wrong") w in
        let w := if retryCountRef w <? retry p then
                   let w := set_retryCountRef (retryCountRef w + 1) w in
                   setTimeout p w
                 else setLoading false w in
        finally p w
  end.

(** [cancel], also the effect's cleanup. *)
Definition cancel (w : world) : world :=
  set_net (abort cancelTokenSourceRef (net w)) w.

(** The effect [[fetchData]]: on mount, and again (after the cleanup of the
    previous run) whenever [fetchData] is a new closure. *)
Definition run_effect (p : props) (now : Z) (w : world) : world :=
  let w := if effect_installed w then cancel w else w in
  fetchData p now (set_effect_installed true w).

Inductive event : Type :=
  | Effect (p : props) (now : Z)
  | Settle (id : nat) (rep : reply) (now : Z)
  | Timer (now : Z)
  | Cancel
  | Unmount.

Definition settle (id : nat) (rep : reply) (now : Z) (w : world) : world :=
  match take_request id (pending (net w)) with
  | Some (r, rest) =>
      let w := set_net (with_pending rest (net w)) w in
      fetchData_resume (closure r) now (outcome (net w) r rep) w
  | None => w
  end.

Definition fire_timer (now : Z) (w : world) : world :=
  match timers w with
  | (_, p) :: rest => fetchData p now (set_timers rest w)
  | [] => w
  end.

Definition step (ev : event) (w : world) : world :=
  match ev with
  | Effect p now => run_effect p now w
  | Settle id rep now => settle id rep now w
  | Timer now => fire_timer now w
  | Cancel | Unmount => cancel w
  end.

(** One logical call whose every attempt fails: each request in flight is
    answered with [err], each retry timer fires, until nothing is left. *)
Fixpoint fail_all (fuel : nat) (err : thrown) (now : Z) (w : world) : world :=
  match fuel with
  | O => w
  | S fuel' =>
      match pending (net w), timers w with
      | r :: _, _ => fail_all fuel' err now (settle (rid r) (Fail err) now w)
      | [], _ :: _ => fail_all fuel' err now (fire_timer now w)
      | [], [] => w
      end
  end.

End Hook.

Arguments response {entry}.
Arguments error {entry}.
Arguments loading {entry}.
Arguments cacheRef {entry}.
Arguments retryCountRef {entry}.
Arguments net {entry}.
Arguments timers {entry}.
Arguments effect_installed {entry}.

End UseAxiosRetry.

(** part_007: [cache && cacheRef.current[url]]; the data itself is stored. *)
Module Part007.
Definition cache_hit (now : Z) (p : UseAxiosRetry.props) (c : obj) : option jsval :=
  if UseAxiosRetry.cache p && truthy (get c (UseAxiosRetry.url p))
  then Some (get c (UseAxiosRetry.url p)) else None.
Definition cache_entry (d : jsval) (now : Z) : jsval := d.
Definition world := UseAxiosRetry.world jsval.
Definition init := UseAxiosRetry.init jsval.
Definition fetchData := UseAxiosRetry.fetchData jsval cache_hit.
Definition fetchData_resume :=
  UseAxiosRetry.fetchData_resume jsval cache_entry.
Definition step := UseAxiosRetry.step jsval cache_hit cache_entry.
Definition fail_all := UseAxiosRetry.fail_all jsval cache_hit cache_entry.
End Part007.

(** part_008: [cache && cacheRef.current[url] &&
    Date.now() - cacheRef.current[url].timestamp < cacheExpiry]; the data is
    stored with [Date.now()]. *)
Module Part008.
Record entry := Entry { data : jsval; timestamp : Z }.
Definition cache_hit (now : Z) (p : UseAxiosRetry.props) (c : gmap string entry)
  : option jsval :=
  match c !! UseAxiosRetry.url p with
  | Some e =>
      if UseAxiosRetry.cache p && (now - timestamp e <? UseAxiosRetry.cacheExpiry p)
      then Some (data e) else None
  | None => None
  end.
Definition cache_entry (d : jsval) (now : Z) : entry := Entry d now.
Definition world := UseAxiosRetry.world entry.
Definition init := UseAxiosRetry.init entry.
Definition fetchData := UseAxiosRetry.fetchData entry cache_hit.
Definition fetchData_resume :=
  UseAxiosRetry.fetchData_resume entry cache_entry.
Definition step := UseAxiosRetry.step entry cache_hit cache_entry.
Definition fail_all := UseAxiosRetry.fail_all entry cache_hit cache_entry.
End Part008.

(** ** [useAxios] with a keyed, timed cache (unnamed part_010)

    [execute] is modelled up to the [await] and along the path of a
    successful response; its rejection handler is not part of the model. *)

Module UseAxiosCached.

Record props := Props {
  config : obj;
  immediate : bool;
  onSuccess : bool;
  onError : bool;
  cacheKey : option string;
  cacheDuration : Z }.

Record cached := Cached { data_of : jsval; timestamp : Z }.

(** [cacheStore] is shared by all instances of the hook, so it is part of
    the world rather than of the instance. *)
Record world := World {
  data : jsval;
  loading : bool;
  error : option thrown;
  abortControllerRef : option nat;
  cacheStore : gmap string cached;
  net : client props;
  calls : list call }.

Definition setData (d : jsval) (w : world) : world :=
  World d (loading w) (error w) (abortControllerRef w) (cacheStore w) (net w)
        (calls w).
Definition setLoading (b : bool) (w : world) : world :=
  World (data w) b (error w) (abortControllerRef w) (cacheStore w) (net w)
        (calls w).
Definition setError (e : option thrown) (w : world) : world :=
  World (data w) (loading w) e (abortControllerRef w) (cacheStore w) (net w)
        (calls w).
Definition set_ref (r : option nat) (w : world) : world :=
  World (data w) (loading w) (error w) r (cacheStore w) (net w) (calls w).
Definition set_cacheStore (c : gmap string cached) (w : world) : world :=
  World (data w) (loading w) (error w) (abortControllerRef w) c (net w)
        (calls w).
Definition set_net (n : client props) (w : world) : world :=
  World (data w) (loading w) (error w) (abortControllerRef w) (cacheStore w) n
        (calls w).
Definition invoke (c : call) (w : world) : world :=
  World (data w) (loading w) (error w) (abortControllerRef w) (cacheStore w)
        (net w) (calls w ++ [c]).

Definition init (store : gmap string cached) : world :=
  World JNull false None None store idle [].

(** [isCacheValid(key)] at time [now] *)
Definition isCacheValid (p : props) (now : Z) (store : gmap string cached)
    (key : string) : bool :=
  match store !! key with
  | None => false
  | Some c => now - timestamp c <? cacheDuration p
  end.

(** The cache key when it is truthy: supplied and not the empty string. *)
Definition truthy_key (p : props) : option string :=
  match cacheKey p with
  | Some k => if String.eqb k "" then None else Some k
  | None => None
  end.

(** The test [cacheKey && isCacheValid(cacheKey)], with the entry it reads
    when it passes. *)
Definition cache_lookup (p : props) (now : Z) (store : gmap string cached)
  : option cached :=
  match truthy_key p with
  | Some k => if isCacheValid p now store k then store !! k else None
  | None => None
  end.

(** [execute(executionConfig)], up to the [await] (or to its end on a cache
    hit); [p] holds the props of the render whose [execute] is called. *)
Definition execute (p : props) (now : Z) (executionConfig : option obj)
    (w : world) : world :=
  let w := setLoading true w in
  let w := setError None w in
  match cache_lookup p now (cacheStore w) with
  | Some c =>
      let w := setData (data_of c) w in
      let w := if onSuccess p then invoke (OnSuccess (data_of c)) w else w in
      setLoading false w
  | None =>
      let '(c, n) := new_controller (net w) in
      let w := set_ref (Some c) (set_net n w) in
      let mergedConfig := spread (config p) (default ∅ executionConfig) in
      set_net (dispatch c mergedConfig p (net w)) w
  end.

(** [execute], from the [await] on, when the response arrived. *)
Definition execute_fulfilled (p : props) (now : Z) (d : jsval) (w : world)
  : world :=
  let w := setData d w in
  let w := if onSuccess p then invoke (OnSuccess d) w else w in
  let w := match truthy_key p with
           | Some k => set_cacheStore (<[k := Cached d now]> (cacheStore w)) w
           | None => w
           end in
  setLoading false w.

End UseAxiosCached.

(** ** Statements of the specification: first matches *)

(** [c] is the first element of [l] that satisfies [f]. *)
Definition first_match {A} (f : A -> bool) (l : list A) (c : A) : Prop :=
  ∃ k, l !! k = Some c ∧ f c = true
       ∧ ∀ j c', (j < k)%nat -> l !! j = Some c' -> f c' = false.

(** ** Statements of the specification: the bar series *)

(** "One bar series per distinct label, whose data contains, for each
    distinct name, the value of the first component whose name and label
    both match, or 0 when no such component exists; every series carries
    stack 'A' and the color of the first component bearing that label", a
    component matching a name (bearing a label) when its name (label) is that
    value. *)
Definition bar_series_as_stated (components : list BarData.component)
    (r : BarData.bar_data) : Prop :=
  Forall2
    (fun l s =>
       BarData.series_label s = l
       ∧ BarData.stack s = "A"
       ∧ Forall2
           (fun n v =>
              (∃ c, first_match
                      (fun c => bool_decide (BarData.name c = n
                                             ∧ BarData.label c = l))
                      components c
                    ∧ v = BarData.value c)
              ∨ ((∀ c, c ∈ components ->
                       ¬ (BarData.name c = n ∧ BarData.label c = l))
                 ∧ v = JNum 0))
           (BarData.labels r) (BarData.data s)
       ∧ ∃ c, first_match (fun c => bool_decide (BarData.label c = l))
                          components c
              ∧ BarData.series_color s = BarData.color c)
    (JsSet.first_occurrences (map BarData.label components))
    (BarData.barData r).

(** ** Invariants of the hooks *)

(** [useRequest]: a request in flight was issued earlier, and its signal is
    either already triggered or that of the controller the ref holds. *)
Definition useRequest_inv (w : UseRequest.world) : Prop :=
  ∀ r, r ∈ pending (UseRequest.net w) ->
       (rid r < issued (UseRequest.net w))%nat
       ∧ (is_aborted (signal r) (UseRequest.net w) = true
          ∨ UseRequest.abortControllerRef w = Some (signal r)).

(** [useRequest]: every request in flight that was issued before the [n]-th
    has had its signal triggered. *)
Definition useRequest_stale (n : nat) (w : UseRequest.world) : Prop :=
  (n <= issued (UseRequest.net w))%nat
  ∧ ∀ r, r ∈ pending (UseRequest.net w) -> (rid r < n)%nat ->
         is_aborted (signal r) (UseRequest.net w) = true.

(** [useAxios] (axios4): every request carries the signal of the first
    controller, and the installed cleanup aborts that controller unless it is
    aborted already. *)
Definition useAxiosAbort_inv (w : UseAxiosAbort.world) : Prop :=
  (∀ r, r ∈ pending (UseAxiosAbort.net w) ->
        signal r = UseAxiosAbort.fetch_controller)
  ∧ (UseAxiosAbort.effect_controller w = UseAxiosAbort.fetch_controller
     ∨ is_aborted UseAxiosAbort.fetch_controller (UseAxiosAbort.net w) = true).

(** ** Statements of the specification: superseding a request *)

(** "Starting a new request while a previous one is in flight first cancels
    the previous one, and its resolution then never overwrites data, error or
    loading", for a [run] of [useRequest] in the state [w]. *)
Definition useRequest_supersedes (p : UseRequest.props) (runConfig : option obj)
    (w : UseRequest.world) : Prop :=
  let w1 := UseRequest.run p runConfig w in
  Forall
    (fun r =>
       is_aborted (signal r) (UseRequest.net w1) = true
       ∧ ∀ rep,
           let w2 := UseRequest.step (UseRequest.Settle (rid r) rep) w1 in
           UseRequest.data w2 = UseRequest.data w1
           ∧ UseRequest.error w2 = UseRequest.error w1
           ∧ UseRequest.loading w2 = UseRequest.loading w1)
    (pending (UseRequest.net w)).

(** The same for a [refetch] of [useAxios] (axios4). *)
Definition useAxiosAbort_supersedes (p : UseAxiosAbort.props)
    (newConfig : option obj) (w : UseAxiosAbort.world) : Prop :=
  let w1 := UseAxiosAbort.refetch p newConfig w in
  Forall
    (fun r =>
       is_aborted (signal r) (UseAxiosAbort.net w1) = true
       ∧ ∀ rep,
           UseAxiosAbort.st
             (UseAxiosAbort.step (UseAxiosAbort.Settle (rid r) rep) w1)
           = UseAxiosAbort.st w1)
    (pending (UseAxiosAbort.net w)).

(** ** Sample arguments *)

Definition sample_request_props : UseRequest.props :=
  UseRequest.Props {[ "url" := JStr "/api/user"; "method" := JStr "GET" ]}
                   true true true JNull.

Definition sample_abort_props : UseAxiosAbort.props :=
  UseAxiosAbort.Props {[ "url" := JStr "/api/user/detail"; "method" := JStr "GET" ]}
                      false.

(** ** Statements of the specification: failures and cancellations *)

(** "The request fails with a non-cancellation error; the hook stores the
    error and leaves the stored data unchanged", for the request [id] of
    [useAxios] (axios4) in the state [w]. *)
Definition useAxiosAbort_failure_keeps_data (id : nat) (err : thrown)
    (w : UseAxiosAbort.world) : Prop :=
  let w' := UseAxiosAbort.step (UseAxiosAbort.Settle id (Fail err)) w in
  UseAxiosAbort.error (UseAxiosAbort.st w') = Some err
  ∧ UseAxiosAbort.data (UseAxiosAbort.st w') = UseAxiosAbort.data (UseAxiosAbort.st w).

(** "The failure is never propagated as a rejected promise", for the request
    [id] of [useRequest] in the state [w]. *)
Definition useRequest_failure_contained (id : nat) (err : thrown)
    (w : UseRequest.world) : Prop :=
  ∀ e, snd (UseRequest.settle id (Fail err) w) ≠ Some (Rejected e).

(** The request [id] ends by cancellation: its signal was triggered, or the
    transport itself reports a cancellation. *)
Definition ends_cancelled {K} (n : client K) (id : nat) (rep : reply) : Prop :=
  (∃ err, rep = Fail err ∧ isCancel err = true)
  ∨ ∀ r, r ∈ pending n -> rid r = id -> is_aborted (signal r) n = true.

(** The error [useRequest] stores for a thrown value. *)
Definition stored_error (err : thrown) : thrown :=
  if instanceof_Error err then err else PlainError "Request failed".

(** ** Statements of the specification: unmounting *)

(** After the unmount, the requests still in flight settle, in any order and
    with any answers. *)
Definition useRequest_settlements (ss : list (nat * reply)) : list UseRequest.event :=
  map (fun s => UseRequest.Settle (fst s) (snd s)) ss.

Definition useAxiosAbort_settlements (ss : list (nat * reply))
  : list UseAxiosAbort.event :=
  map (fun s => UseAxiosAbort.Settle (fst s) (snd s)) ss.

(** "No state update (data, error or loading) occurs after unmount", for
    [useRequest] unmounted in the state [w]. *)
Definition useRequest_unmount_quiet (ss : list (nat * reply))
    (w : UseRequest.world) : Prop :=
  let w1 := UseRequest.unmount w in
  let w2 := UseRequest.exec (useRequest_settlements ss) w1 in
  UseRequest.data w2 = UseRequest.data w1
  ∧ UseRequest.error w2 = UseRequest.error w1
  ∧ UseRequest.loading w2 = UseRequest.loading w1.

(** Every request in flight has had its signal triggered. *)
Definition all_cancelled {K} (n : client K) : Prop :=
  Forall (fun r => is_aborted (signal r) n = true) (pending n).

(** ** Statements of the specification: the loading flag *)

(** "Loading is true exactly while a request is outstanding." *)
Definition loading_iff_outstanding {K} (loading : bool) (n : client K) : Prop :=
  loading = true ↔ pending n ≠ [].

(** What holds of [useRequest] while its requests do not overlap: at most
    one request is in flight, and [loading] tells whether one is. *)
Definition useRequest_seq_inv (w : UseRequest.world) : Prop :=
  (length (pending (UseRequest.net w)) <= 1)%nat
  ∧ loading_iff_outstanding (UseRequest.loading w) (UseRequest.net w).

(** The same for [useAxios] (axios4) while, in addition, nothing was
    cancelled: the signal of [fetchData] is intact. *)
Definition useAxiosAbort_seq_inv (w : UseAxiosAbort.world) : Prop :=
  is_aborted UseAxiosAbort.fetch_controller (UseAxiosAbort.net w) = false
  ∧ (∀ r, r ∈ pending (UseAxiosAbort.net w) ->
          signal r = UseAxiosAbort.fetch_controller)
  ∧ (length (pending (UseAxiosAbort.net w)) <= 1)%nat
  ∧ loading_iff_outstanding (UseAxiosAbort.loading (UseAxiosAbort.st w))
                            (UseAxiosAbort.net w).

(** ** Sample arguments for the caching hooks *)

Definition sample_retry_props : UseAxiosRetry.props :=
  UseAxiosRetry.Props "/posts/1" "get" JUndefined JUndefined JUndefined
                      true 60000 3 1000.

Definition sample_cached_props : UseAxiosCached.props :=
  UseAxiosCached.Props {[ "url" := JStr "/users"; "method" := JStr "GET" ]}
                       true true true (Some "users") 30000.

(** ** Statements of the specification: retries *)

(** The text [fetchData] of part_007 and part_008 puts into the error state. *)
Definition retry_error_text (err : thrown) : jsval :=
  if truthy (error_message err) then error_message err
  else JStr "Something went wrong".

(** One attempt of a call with props [p] is in flight and nothing else is
    going on; the retry counter stands at [k], the hook's token is intact,
    and the cache does not answer for [p] at time [now]. *)
Definition attempt_in_flight {entry : Type}
    (cache_hit : Z -> UseAxiosRetry.props -> gmap string entry -> option jsval)
    (p : UseAxiosRetry.props) (now : Z) (k : Z)
    (w : UseAxiosRetry.world entry) : Prop :=
  (∃ id cfg, pending (UseAxiosRetry.net w)
             = [Request id UseAxiosRetry.cancelTokenSourceRef cfg p])
  ∧ UseAxiosRetry.timers w = []
  ∧ UseAxiosRetry.retryCountRef w = k
  ∧ is_aborted UseAxiosRetry.cancelTokenSourceRef (UseAxiosRetry.net w) = false
  ∧ cache_hit now p (UseAxiosRetry.cacheRef w) = None.

(** "The error state is set only after the last attempt": while a retry of
    the call is still to come, the error state is empty. *)
Definition error_only_after_last {entry : Type} (w : UseAxiosRetry.world entry)
  : Prop :=
  UseAxiosRetry.timers w ≠ [] -> UseAxiosRetry.error w = JNull.

(** A call is about to start on a hook whose retry counter stands at zero:
    nothing is in flight, no retry is scheduled, the hook's token is intact,
    and the cache does not answer for [p] at time [now]. *)
Definition fresh_call {entry : Type}
    (cache_hit : Z -> UseAxiosRetry.props -> gmap string entry -> option jsval)
    (p : UseAxiosRetry.props) (now : Z) (w : UseAxiosRetry.world entry) : Prop :=
  UseAxiosRetry.retryCountRef w = 0
  ∧ pending (UseAxiosRetry.net w) = []
  ∧ UseAxiosRetry.timers w = []
  ∧ is_aborted UseAxiosRetry.cancelTokenSourceRef (UseAxiosRetry.net w) = false
  ∧ cache_hit now p (UseAxiosRetry.cacheRef w) = None.

(** "The retry count resets at the start of each logical call": once the
    effect has started the call with props [p], the counter is at zero. *)
Definition counter_reset_at_call (p : UseAxiosRetry.props) (now : Z)
    (w : Part007.world) : Prop :=
  UseAxiosRetry.retryCountRef (Part007.step (UseAxiosRetry.Effect p now) w) = 0.

(** ** Statements of the specification: cache hits *)

(** "The cached value is returned as the resolved state and no network call
    is made": on a hit, [fetchData] of part_008 leaves the hook with the cached
    value as response, nothing loading, no error, and the client untouched. *)
Definition hit_resolved_as_stated (p : UseAxiosRetry.props) (now : Z)
    (w : Part008.world) : Prop :=
  ∀ e, UseAxiosRetry.cache p = true ->
       UseAxiosRetry.cacheRef w !! UseAxiosRetry.url p = Some e ->
       now - Part008.timestamp e < UseAxiosRetry.cacheExpiry p ->
       let w' := Part008.fetchData p now w in
       UseAxiosRetry.response w' = Part008.data e
       ∧ UseAxiosRetry.loading w' = false
       ∧ UseAxiosRetry.error w' = JNull
       ∧ UseAxiosRetry.net w' = UseAxiosRetry.net w.

(** * Further properties of the hooks: definitions *)

(** ** [useAxios] (axios4): the signal after a change of dependencies *)

(** The signal [fetchData] hands to every request has been aborted. *)
Definition useAxiosAbort_dead (w : UseAxiosAbort.world) : Prop :=
  useAxiosAbort_inv w
  ∧ is_aborted UseAxiosAbort.fetch_controller (UseAxiosAbort.net w) = true.

(** The component has rendered more than once: the [cancel] it holds belongs
    to a controller created after the first. *)
Definition useAxiosAbort_rerendered (w : UseAxiosAbort.world) : Prop :=
  (1 <= controllers (UseAxiosAbort.net w))%nat
  ∧ UseAxiosAbort.render_controller w ≠ UseAxiosAbort.fetch_controller.

(** No event of the trace is a re-render. *)
Definition first_render_only (evs : list UseAxiosAbort.event) : bool :=
  forallb (fun ev => match ev with
                     | UseAxiosAbort.Rerender _ => false
                     | _ => true
                     end) evs.

(** ** [useRequest]: the request that is not cancelled *)

(** Every controller serves one request; a request in flight whose signal is
    intact is the one of the controller in the ref, and while it is in flight
    the error state is empty. *)
Definition useRequest_live_inv (w : UseRequest.world) : Prop :=
  NoDup (map signal (pending (UseRequest.net w)))
  ∧ (∀ r, r ∈ pending (UseRequest.net w) ->
          (signal r < controllers (UseRequest.net w))%nat)
  ∧ (∀ r, r ∈ pending (UseRequest.net w) ->
          is_aborted (signal r) (UseRequest.net w) = false ->
          UseRequest.error w = None
          ∧ UseRequest.abortControllerRef w = Some (signal r)).

(** ** [useAxios] with retry (part_007, part_008): traces *)

Definition retry_exec {entry : Type}
    (cache_hit : Z -> UseAxiosRetry.props -> gmap string entry -> option jsval)
    (cache_entry : jsval -> Z -> entry)
    (evs : list UseAxiosRetry.event) (w : UseAxiosRetry.world entry)
  : UseAxiosRetry.world entry :=
  fold_left (fun w ev => UseAxiosRetry.step entry cache_hit cache_entry ev w) evs w.

(** Every request in flight carries the hook's one cancel token. *)
Definition retry_one_token {entry : Type} (w : UseAxiosRetry.world entry) : Prop :=
  ∀ r, r ∈ pending (UseAxiosRetry.net w) ->
       signal r = UseAxiosRetry.cancelTokenSourceRef.

(** The event cancels the hook's token: [cancel()], the unmount, or a run of
    the effect after an earlier one (whose cleanup runs first). *)
Definition cancels_token {entry : Type} (ev : UseAxiosRetry.event)
    (w : UseAxiosRetry.world entry) : bool :=
  match ev with
  | UseAxiosRetry.Cancel | UseAxiosRetry.Unmount => true
  | UseAxiosRetry.Effect _ _ => UseAxiosRetry.effect_installed w
  | _ => false
  end.

(** ** The paginated [useAxios] (part_000): traces *)

(** What can happen to the hook: a call of [fetchData] (by the mount effect,
    [refetch] or [loadMore], the latter with [isLoadMore] set), the
    settlement of a request, the unmount. *)
Inductive paged_event : Type :=
  | PFetch (p : UseAxiosPaged.props) (isLoadMore : bool)
  | PSettle (id : nat) (rep : reply)
  | PUnmount.

Definition paged_step (stringify : obj -> string) (ev : paged_event)
    (w : UseAxiosPaged.world) : UseAxiosPaged.world :=
  match ev with
  | PFetch p isLoadMore => UseAxiosPaged.fetchData stringify p isLoadMore w
  | PSettle id rep => UseAxiosPaged.settle stringify id rep w
  | PUnmount => UseAxiosPaged.unmount w
  end.

Definition paged_exec (stringify : obj -> string) (evs : list paged_event)
    (w : UseAxiosPaged.world) : UseAxiosPaged.world :=
  fold_left (fun w ev => paged_step stringify ev w) evs w.

(** The cache test at the head of [fetchData]. *)
Definition paged_cache_hit (stringify : obj -> string) (p : UseAxiosPaged.props)
    (isLoadMore : bool) (w : UseAxiosPaged.world) : bool :=
  UseAxiosPaged.cache p
  && truthy (get (UseAxiosPaged.cacheData w) (stringify (UseAxiosPaged.config p)))
  && negb isLoadMore.

(** Each request in flight, in turn, fails with [err]. *)
Fixpoint paged_fail_all (stringify : obj -> string) (fuel : nat) (err : thrown)
    (w : UseAxiosPaged.world) : UseAxiosPaged.world :=
  match fuel with
  | O => w
  | S fuel' =>
      match pending (UseAxiosPaged.net w) with
      | r :: _ =>
          paged_fail_all stringify fuel' err
            (UseAxiosPaged.settle stringify (rid r) (Fail err) w)
      | [] => w
      end
  end.

(** Controllers are numbered as they are created. *)
Definition paged_numbered (w : UseAxiosPaged.world) : Prop :=
  (∀ a, a ∈ aborted (UseAxiosPaged.net w) ->
        (a < controllers (UseAxiosPaged.net w))%nat)
  ∧ (∀ c, UseAxiosPaged.cancelTokenSource w = Some c ->
          (c < controllers (UseAxiosPaged.net w))%nat).

(** A call is about to start with the retry counter at zero: nothing is in
    flight and the cache does not answer. *)
Definition paged_fresh_call (stringify : obj -> string) (p : UseAxiosPaged.props)
    (isLoadMore : bool) (w : UseAxiosPaged.world) : Prop :=
  UseAxiosPaged.retryCount w = 0
  ∧ pending (UseAxiosPaged.net w) = []
  ∧ paged_numbered w
  ∧ paged_cache_hit stringify p isLoadMore w = false.

(** The [k]-th retry of a call is in flight, under an intact token, and the
    state shows a request in progress without error. *)
Definition paged_attempt (stringify : obj -> string) (p : UseAxiosPaged.props)
    (isLoadMore : bool) (k : Z) (d0 : jsval) (calls0 : list call)
    (w : UseAxiosPaged.world) : Prop :=
  (∃ id c cfg,
     pending (UseAxiosPaged.net w) = [Request id c cfg (p, isLoadMore)]
     ∧ UseAxiosPaged.cancelTokenSource w = Some c
     ∧ is_aborted c (UseAxiosPaged.net w) = false)
  ∧ paged_numbered w
  ∧ UseAxiosPaged.retryCount w = k
  ∧ paged_cache_hit stringify p isLoadMore w = false
  ∧ UseAxiosPaged.st w = UseAxiosPaged.State d0 true None
  ∧ UseAxiosPaged.calls w = calls0.

(** A request in flight has its token cancelled unless the token is the one
    in the ref. *)
Definition paged_inv (w : UseAxiosPaged.world) : Prop :=
  ∀ r, r ∈ pending (UseAxiosPaged.net w) ->
       is_aborted (signal r) (UseAxiosPaged.net w) = true
       ∨ UseAxiosPaged.cancelTokenSource w = Some (signal r).

(** ** [useAxios] with a keyed cache (part_010): [cancel] *)

(** [cancel]: aborts the controller in the ref, if there is one. *)
Definition cached_cancel (w : UseAxiosCached.world) : UseAxiosCached.world :=
  match UseAxiosCached.abortControllerRef w with
  | Some c => UseAxiosCached.set_net (abort c (UseAxiosCached.net w)) w
  | None => w
  end.

(** ** [FilterDrawer] (part_003): selections and the values applied *)

(** The names [Object.prototype] has members for. *)
Definition object_prototype_names : list string :=
  [ "constructor"; "hasOwnProperty"; "isPrototypeOf"; "propertyIsEnumerable";
    "toLocaleString"; "toString"; "valueOf"; "__proto__";
    "__defineGetter__"; "__defineSetter__"; "__lookupGetter__";
    "__lookupSetter__" ].

Definition object_prototype_member (k : string) : bool :=
  bool_decide (k ∈ object_prototype_names).

Module FilterDrawer.

Inductive filter_type := TDate | TList.

#[global] Instance filter_type_eq_dec : EqDecision filter_type.
Proof. solve_decision. Defined.

(** A filter [{ field, headerName, type, options? }]; an option is
    [{ id, label }]. *)
Record FilterOption := mkFilterOption {
  field : string;
  headerName : string;
  type : filter_type;
  options : option (list (string * string)) }.

(** What [handleApply] puts under a key: a formatted date or the array of
    selected ids. *)
Inductive applied := AStr (s : string) | AList (ids : list string).

(** The object [handleApply] builds from [{}]: its own properties and, once
    an array was assigned under [__proto__], that array as its prototype
    ([None]: still [Object.prototype]). *)
Record formatted := Formatted {
  own : gmap string applied;
  proto : option (list string) }.

Section FilterDrawer.

(** The objects the date picker hands over. *)
Variable date : Type.

(** A value held in [filterValues]: what the date picker passed ([null] when
    the date was cleared) or the array of selected ids. *)
Inductive value := VDate (d : option date) | VList (ids : list string).

(** [dayjs(value).format('YYYY-MM-DD')] *)
Variable dayjs_format : value -> string.

(** The state cells are plain objects, held here by their own properties.
    Reading a property such an object does not own finds the member of
    [Object.prototype] of that name, if there is one: [inherited s] tells
    whether there is. Each of these members is a function or an object: it
    is truthy, it is no array, and it has no method [includes]. *)
Variable inherited : string -> bool.

Definition value_truthy (v : value) : bool :=
  match v with VDate None => false | _ => true end.

Definition isArray (v : value) : bool :=
  match v with VList _ => true | VDate _ => false end.

Record state := State {
  open : bool;
  filterValues : gmap string value;
  expandedSelects : gmap string bool;
  selectedListItems : gmap string (list string) }.

Definition init : state := State false ∅ ∅ ∅.

(** [cell[field] || []] on [selectedListItems]: the array the cell owns
    under [field]; the empty array when nothing is found; [None] when what
    is found is the member of [Object.prototype]. *)
Definition selection_of (field : string) (cell : gmap string (list string))
    : option (list string) :=
  match cell !! field with
  | Some ids => Some ids
  | None => if inherited field then None else Some []
  end.

(** The truth value of [cell[field]] on [expandedSelects]. *)
Definition flag_of (field : string) (cell : gmap string bool) : bool :=
  default (inherited field) (cell !! field).

Definition handleDateChange (field : string) (d : option date) (s : state)
    : state :=
  State (open s) (<[field := VDate d]> (filterValues s))
        (expandedSelects s) (selectedListItems s).

(** [None]: [currentSelected] is a member of [Object.prototype],
    [currentSelected.includes] is not a function, and the updater throws a
    TypeError before any cell is written. *)
Definition handleListItemToggle (field itemId : string) (s : state)
    : option state :=
  let prev := selectedListItems s in
  match selection_of field prev with
  | Some currentSelected =>
      let newSelected :=
        if bool_decide (itemId ∈ currentSelected)
        then filter (fun id => id ≠ itemId) currentSelected
        else currentSelected ++ [itemId] in
      Some (State (open s) (<[field := VList newSelected]> (filterValues s))
                  (expandedSelects s) (<[field := newSelected]> prev))
  | None => None
  end.

Definition toggleExpand (field : string) (s : state) : state :=
  let prev := expandedSelects s in
  State (open s) (filterValues s)
        (<[field := negb (flag_of field prev)]> prev)
        (selectedListItems s).

(** [acc[key] = v] on the object built from [{}]: an own property, unless
    the key is [__proto__], which [Object.prototype] answers with a setter:
    an array becomes the prototype of [acc], a string is ignored. *)
Definition assign (key : string) (v : applied) (acc : formatted) : formatted :=
  if String.eqb key "__proto__" then
    match v with
    | AList ids => Formatted (own acc) (Some ids)
    | AStr _ => acc
    end
  else Formatted (<[key := v]> (own acc)) (proto acc).

(** The body of the [reduce] of [handleApply] for one entry. *)
Definition format_entry (filters : list FilterOption) (key : string)
    (v : value) (acc : formatted) : formatted :=
  let filter := find (fun f => String.eqb (field f) key) filters in
  if match filter with Some f => bool_decide (type f = TDate) | None => false end
     && value_truthy v
  then assign key (AStr (dayjs_format v)) acc
  else match v with
       | VList ids => assign key (AList ids) acc
       | VDate _ => acc
       end.

(** [handleApply]: the object passed to [onApply] and the state afterwards.
    [Object.entries] lists the own properties of [filterValues]. *)
Definition handleApply (filters : list FilterOption) (s : state)
    : formatted * state :=
  let formattedValues :=
    map_fold (format_entry filters) (Formatted ∅ None) (filterValues s) in
  (formattedValues,
   State false (filterValues s) (expandedSelects s) (selectedListItems s)).

(** [renderListOptions]: the options displayed, each with the state of its
    check box, and whether the button that shows more is rendered. [None]:
    [selected] is a member of [Object.prototype] and [selected.includes], in
    the callback of [displayOptions.map], is not a function. *)
Definition renderListOptions (field : string) (options : list (string * string))
    (s : state) : option (list (string * string * bool) * bool) :=
  let showAll := flag_of (field +:+ "_expand") (expandedSelects s) in
  let displayOptions := if showAll then options else take 10%nat options in
  let button := bool_decide (10 < length options)%nat in
  match selection_of field (selectedListItems s) with
  | Some selected =>
      Some (map (fun option => (option, bool_decide (option.1 ∈ selected)))
                displayOptions,
            button)
  | None =>
      match displayOptions with
      | [] => Some ([], button)
      | _ :: _ => None
      end
  end.

(** The [onClick] of that button. *)
Definition toggleShowAll (field : string) (s : state) : state :=
  let showAll := flag_of (field +:+ "_expand") (expandedSelects s) in
  State (open s) (filterValues s)
        (<[field +:+ "_expand" := negb showAll]> (expandedSelects s))
        (selectedListItems s).

(** The ids the cell [selectedListItems] owns under [field]. *)
Definition selected (s : state) (field : string) : list string :=
  default [] (selectedListItems s !! field).

(** [prev[field] || []] can be used as an array. *)
Definition selection_readable (s : state) (field : string) : Prop :=
  is_Some (selectedListItems s !! field) ∨ inherited field = false.

Definition is_date_filter (filters : list FilterOption) (key : string) : bool :=
  match find (fun f => String.eqb (field f) key) filters with
  | Some f => bool_decide (type f = TDate)
  | None => false
  end.

End FilterDrawer.
End FilterDrawer.

(** What [handleApply] assigns for the value [filterValues] holds under
    [key], if it assigns anything. *)
Definition filterDrawer_formatted {date : Type}
    (dayjs_format : FilterDrawer.value date -> string)
    (filters : list FilterDrawer.FilterOption)
    (key : string) (v : FilterDrawer.value date) : option FilterDrawer.applied :=
  if FilterDrawer.is_date_filter filters key && FilterDrawer.value_truthy date v
  then Some (FilterDrawer.AStr (dayjs_format v))
  else match v with
       | FilterDrawer.VList _ ids => Some (FilterDrawer.AList ids)
       | FilterDrawer.VDate _ _ => None
       end.

(** ** [TreeDataGrid] (part_003): the rows of a tree with collapsible nodes *)

Module TreeDataGrid.
Section TreeDataGrid.

(** Ids are strings or numbers. [idToNodeMap] is a [Map], keyed by the ids
    themselves; [expandedRows] is a plain object, indexed by the property
    name an id converts to. *)
Context {key : Type} `{Countable key}.
Variable prop_key : key -> string.

(** Reading a property that a plain object does not own finds the one of
    [Object.prototype], if there is one of that name ([constructor],
    [toString], ...): [inherited s] tells whether it is truthy. *)
Variable inherited : string -> bool.

(** A node of [data]; its other properties are carried along unchanged. *)
Record TreeNode := mkTreeNode {
  id : key;
  parentId : option key }.

(** A node object held by [idToNodeMap]. [children] holds references to node
    objects of the map, given here by their ids. *)
Record entry := Entry {
  node_parentId : option key;
  level : nat;
  children : list key }.

(** [idToNodeMap.set(node.id, { ...node, level: 0, children: [] })]: the map
    with the order of its keys; a key set again keeps its place. *)
Definition set_node (acc : gmap key entry * list key) (node : TreeNode)
    : gmap key entry * list key :=
  (<[id node := Entry (parentId node) 0 []]> acc.1, JsSet.add acc.2 (id node)).

Definition init_nodes (data : list TreeNode) : gmap key entry * list key :=
  fold_left set_node data (∅, []).

Definition set_level (l : nat) (e : entry) : entry :=
  Entry (node_parentId e) l (children e).

Definition push_child (k : key) (e : entry) : entry :=
  Entry (node_parentId e) (level e) (children e ++ [k]).

(** The body of [idToNodeMap.forEach] for the node with id [k]. *)
Definition link (acc : gmap key entry * list key) (k : key)
    : gmap key entry * list key :=
  let '(nodes, rootNodes) := acc in
  match nodes !! k with
  | None => acc
  | Some node =>
      match node_parentId node with
      | None => (nodes, rootNodes ++ [k])
      | Some pid =>
          match nodes !! pid with
          | Some parent =>
              let nodes := <[k := set_level (level parent + 1) node]> nodes in
              (alter (push_child k) pid nodes, rootNodes)
          | None => (nodes, rootNodes ++ [k])
          end
      end
  end.

Definition node_children (nodes : gmap key entry) (k : key) : list key :=
  default [] (children <$> nodes !! k).

(** [expandedRows[id]] as a condition *)
Definition is_expanded (expandedRows : gmap string bool) (k : key) : bool :=
  default (inherited (prop_key k)) (expandedRows !! prop_key k).

(** [flattenTree(nodes, result)]; [fuel] bounds the depth of the recursion. *)
Fixpoint flattenTree (fuel : nat) (nodes : gmap key entry)
    (expandedRows : gmap string bool) (ns : list key) (result : list key)
    : option (list key) :=
  fold_left
    (fun acc k =>
       result ← acc;
       let result := result ++ [k] in
       if is_expanded expandedRows k
          && bool_decide (0 < length (node_children nodes k))%nat
       then match fuel with
            | O => None
            | S fuel => flattenTree fuel nodes expandedRows
                          (node_children nodes k) result
            end
       else Some result)
    ns (Some result).

(** The node objects behind a list of references. *)
Definition node_rows (nodes : gmap key entry) (result : list key)
    : list (key * entry) :=
  omap (fun k => (fun node : entry => (k, node)) <$> nodes !! k) result.

(** [processTreeData]: the rows handed to the grid, each with its node
    object. *)
Definition processTreeData (fuel : nat) (data : list TreeNode)
    (expandedRows : gmap string bool) : option (list (key * entry)) :=
  let '(idToNodeMap, order) := init_nodes data in
  let '(nodes, rootNodes) := fold_left link order (idToNodeMap, []) in
  node_rows nodes <$> flattenTree fuel nodes expandedRows rootNodes [].

(** [handleToggleExpand] *)
Definition handleToggleExpand (i : key) (expandedRows : gmap string bool)
    : gmap string bool :=
  <[prop_key i := negb (is_expanded expandedRows i)]> expandedRows.

(** *** The tree that [data] describes *)

(** The keys of [idToNodeMap] in the order of the map. *)
Definition key_order (data : list TreeNode) : list key :=
  JsSet.of_list (map id data).

(** The node of [data] that the map holds for an id: the last one with it. *)
Definition node_of (data : list TreeNode) (k : key) : option TreeNode :=
  last (filter (fun n => id n = k) data).

(** The parent of a node: its [parentId] when [data] has a node with that
    id. *)
Definition parent_of (data : list TreeNode) (k : key) : option key :=
  n ← node_of data k;
  p ← parentId n;
  if bool_decide (p ∈ map id data) then Some p else None.

(** [ancestor data j k]: the node [j] steps above [k]. *)
Fixpoint ancestor (data : list TreeNode) (j : nat) (k : key) : option key :=
  match j with
  | O => Some k
  | S j => parent_of data k ≫= ancestor data j
  end.

(** [rooted data d k]: [k] lies [d] steps below a node without parent. *)
Fixpoint rooted (data : list TreeNode) (d : nat) (k : key) : Prop :=
  match d with
  | O => k ∈ map id data ∧ parent_of data k = None
  | S d => ∃ p, parent_of data k = Some p ∧ rooted data d p
  end.

(** [below data expandedRows r k]: [k] is [r] or lies below [r] with every
    node on the way from [r] to its parent expanded. *)
Inductive below (data : list TreeNode) (expandedRows : gmap string bool)
    (r : key) : key -> Prop :=
  | below_refl : below data expandedRows r r
  | below_step k p :
      parent_of data k = Some p ->
      is_expanded expandedRows p = true ->
      below data expandedRows r p ->
      below data expandedRows r k.

(** A node is visible when it lies below a node without parent, all nodes
    above it being expanded. *)
Definition visible (data : list TreeNode) (expandedRows : gmap string bool)
    (k : key) : Prop :=
  ∃ r, r ∈ map id data ∧ parent_of data r = None ∧ below data expandedRows r k.

(** The rows below a list of nodes, as a function of the linked map. *)
Fixpoint flat (fuel : nat) (nodes : gmap key entry)
    (expandedRows : gmap string bool) (ns : list key) : list key :=
  ns ≫= fun k =>
    k :: if is_expanded expandedRows k
            && bool_decide (0 < length (node_children nodes k))%nat
         then match fuel with
              | O => []
              | S fuel => flat fuel nodes expandedRows (node_children nodes k)
              end
         else [].

(** The map and [rootNodes] after the [forEach]. *)
Definition link_nodes (data : list TreeNode) : gmap key entry * list key :=
  fold_left link (key_order data) ((init_nodes data).1, []).

(** What holds of the map and of [rootNodes] once the nodes [done_] have been
    visited. *)
Definition link_inv (data : list TreeNode) (done_ : list key)
    (acc : gmap key entry * list key) : Prop :=
  (∀ k, node_parentId <$> acc.1 !! k = parentId <$> node_of data k)
  ∧ acc.2 = filter (fun k => parent_of data k = None) done_
  ∧ (∀ p, node_children acc.1 p
          = filter (fun k => parent_of data k = Some p) done_).

(** Every node comes after its parent in the order of the map. *)
Definition parents_first (data : list TreeNode) : Prop :=
  ∀ i k p, key_order data !! i = Some k ->
           parent_of data k = Some p ->
           p ∈ take i (key_order data).

End TreeDataGrid.
End TreeDataGrid.

(** ** Tree grid over nested data (part_008, "Data grid ds") *)

Module FlatTreeGrid.
Section FlatTreeGrid.

(** The ids of the nodes; none of them is [null]. *)
Context {key : Type} `{Countable key}.

(** A node [{ id, name, children? }] of [treeData]. *)
#[warnings="-register-all"]
Inductive node := Node (id : key) (children : option (list node)).

(** A row of the flattened data. *)
Record row := Row {
  id : key;
  parentId : option key;
  depth : nat;
  hasChildren : bool }.

(** The rows [flattenTreeData] produces for one node of [nodes]. *)
Fixpoint flatten_node (parentId : option key) (depth : nat) (n : node)
    : list row :=
  match n with
  | Node i children =>
      Row i parentId depth
          (match children with
           | Some cs => bool_decide (0 < length cs)%nat
           | None => false
           end)
      :: match children with
         | Some cs =>
             (fix each (cs : list node) : list row :=
                match cs with
                | [] => []
                | c :: cs => flatten_node (Some i) (depth + 1) c ++ each cs
                end) cs
         | None => []
         end
  end.

Definition flattenTreeData (nodes : list node) (parentId : option key)
    (depth : nat) : list row :=
  nodes ≫= flatten_node parentId depth.

(** The loop of [isVisible], entered with [currentId]; [fuel] bounds the
    number of iterations. *)
Fixpoint isVisible_loop (fuel : nat) (flattenedData : list row)
    (expandedIds : gset key) (currentId : option key) : option bool :=
  match currentId with
  | None => Some true
  | Some c =>
      if bool_decide (c ∈ expandedIds)
      then match fuel with
           | O => None
           | S fuel =>
               let parentRow :=
                 find (fun r => bool_decide (id r = c)) flattenedData in
               isVisible_loop fuel flattenedData expandedIds
                 match parentRow with
                 | Some r => parentId r
                 | None => None
                 end
           end
      else Some false
  end.

Definition isVisible (fuel : nat) (flattenedData : list row)
    (expandedIds : gset key) (r : row) : option bool :=
  isVisible_loop fuel flattenedData expandedIds (parentId r).

(** [flattenedData.filter((row) => isVisible(row))] *)
Definition visibleRows (fuel : nat) (flattenedData : list row)
    (expandedIds : gset key) : option (list row) :=
  foldr (fun r acc =>
           b ← isVisible fuel flattenedData expandedIds r;
           rest ← acc;
           Some (if b : bool then r :: rest else rest))
        (Some []) flattenedData.

(** [toggleExpanded] *)
Definition toggleExpanded (i : key) (prev : gset key) : gset key :=
  if bool_decide (i ∈ prev) then prev ∖ {[ i ]} else prev ∪ {[ i ]}.

(** Every row either belongs to the call with [parentId] and [depth], or
    comes after the row of its parent, one level deeper. *)
Definition parents_before (rows : list row) (p : option key) (d : nat)
    : Prop :=
  ∀ n r, rows !! n = Some r ->
    (parentId r = p ∧ depth r = d)
    ∨ ∃ m r', (m < n)%nat ∧ rows !! m = Some r'
              ∧ parentId r = Some (id r') ∧ depth r = S (depth r')
              ∧ hasChildren r' = true.

(** The row of a node handed to the first call of [flattenTreeData]. *)
Definition top_row (n : node) : row :=
  match n with
  | Node i children =>
      Row i None 0
          (match children with
           | Some cs => bool_decide (0 < length cs)%nat
           | None => false
           end)
  end.

(** The number of nodes of a forest. *)
Fixpoint node_count (n : node) : nat :=
  match n with
  | Node _ children =>
      S match children with
        | Some cs =>
            (fix each (cs : list node) : nat :=
               match cs with
               | [] => O
               | c :: cs => (node_count c + each cs)%nat
               end) cs
        | None => O
        end
  end.

Definition forest_count (nodes : list node) : nat :=
  foldr (fun n acc => (node_count n + acc)%nat) O nodes.

End FlatTreeGrid.
End FlatTreeGrid.

(** * Properties *)

(** ** [Set] keeps first occurrences *)

Section JsSetFacts.
Context {A : Type} `{EqDecision A}.

Lemma of_list_snoc (l : list A) x :
  JsSet.of_list (l ++ [x]) = JsSet.add (JsSet.of_list l) x.
Proof. unfold JsSet.of_list. by rewrite fold_left_app. Qed.

Lemma elem_of_of_list (l : list A) x : x ∈ JsSet.of_list l ↔ x ∈ l.
Proof.
  induction l as [|y l IH] using rev_ind; [done|].
  rewrite of_list_snoc. unfold JsSet.add. case_bool_decide as Hy.
  - rewrite elem_of_app, list_elem_of_singleton, IH.
    split; [tauto|]. intros [?| ->]; [done|]. by apply IH.
  - by rewrite !elem_of_app, IH.
Qed.

Lemma NoDup_of_list (l : list A) : NoDup (JsSet.of_list l).
Proof.
  induction l as [|y l IH] using rev_ind; [constructor|].
  rewrite of_list_snoc. unfold JsSet.add. case_bool_decide as Hy; [done|].
  apply NoDup_app. split_and!; [done| |apply NoDup_singleton].
  intros z Hz ->%list_elem_of_singleton. done.
Qed.

Lemma first_occurrences_snoc (l : list A) x :
  JsSet.first_occurrences (l ++ [x])
  = JsSet.first_occurrences l ++ (if bool_decide (x ∈ l) then [] else [x]).
Proof.
  unfold JsSet.first_occurrences. rewrite imap_app, concat_app. f_equal.
  - f_equal. apply imap_ext. intros i y Hi.
    rewrite take_app_le; [done|].
    apply lookup_lt_Some in Hi. lia.
  - simpl. rewrite Nat.add_0_r, take_app_length, app_nil_r. done.
Qed.

Lemma of_list_first_occurrences (l : list A) :
  JsSet.of_list l = JsSet.first_occurrences l.
Proof.
  induction l as [|y l IH] using rev_ind; [done|].
  rewrite of_list_snoc, first_occurrences_snoc, <- IH. unfold JsSet.add.
  pose proof (elem_of_of_list l y) as Hel.
  repeat case_bool_decide; try tauto.
  by rewrite app_nil_r.
Qed.

End JsSetFacts.

(** ** [Array.prototype.find] returns the first match *)

Lemma find_Some_first {A} (f : A -> bool) (l : list A) c :
  find f l = Some c -> first_match f l c.
Proof.
  induction l as [|x l IH]; simpl; [done|].
  destruct (f x) eqn:Hx.
  - intros [= ->]. exists 0%nat. split_and!; [done..|]. intros; lia.
  - intros (k & Hk & Hc & Hlt)%IH. exists (S k). split_and!; [done..|].
    intros [|j] c' Hj; simpl; [by intros [= <-]|].
    apply Hlt. lia.
Qed.

Lemma find_None_all {A} (f : A -> bool) (l : list A) :
  find f l = None -> ∀ c, c ∈ l -> f c = false.
Proof.
  intros Hnone c Hc%list_elem_of_In.
  by apply (find_none f l Hnone).
Qed.

Lemma find_is_Some {A} (f : A -> bool) (l : list A) x :
  x ∈ l -> f x = true -> is_Some (find f l).
Proof.
  intros Hx Hf. destruct (find f l) eqn:E; [done|].
  rewrite (find_None_all f l E x Hx) in Hf. done.
Qed.

Lemma Forall2_map_r_elem {A B} (R : A -> B -> Prop) (g : A -> B) (l : list A) :
  (∀ x, x ∈ l -> R x (g x)) -> Forall2 R l (map g l).
Proof.
  induction l as [|x l IH]; intros H; simpl; constructor.
  - apply H. by left.
  - apply IH. intros y Hy. apply H. by right.
Qed.

(** ** [generateC] *)

(** The test case that accompanies [generateC] in the source. *)
Example generateC_test :
  GenerateC.generateC
    [ GenerateC.Column "event_name" (JStr "Event Name")
        (Some [ {[ "label" := JStr "Y" ]}; {[ "label" := JStr "N" ]} ]);
      GenerateC.Column "event_type" (JStr "Event Type") None ]
    [ {[ "event_name" := JStr "testing"; "event_type" := JStr "reme" ]};
      {[ "event_name" := JStr "testing1"; "event_type" := JStr "reme1" ]} ]
  = [ GenerateC.Filter (JStr "Event Name")
        [ GenerateC.ListOption (JStr "Y"); GenerateC.ListOption (JStr "N") ];
      GenerateC.Filter (JStr "Event Type")
        [ GenerateC.ListOption (JStr "reme"); GenerateC.ListOption (JStr "reme1") ] ].
Proof. vm_compute. reflexivity. Qed.

(** C9. [generateC a b] has one result per column descriptor, in order; the
    result's label is the descriptor's [headerName]; with predefined options
    its [listOptions] are the labels of those options, in order; without, they
    are the values of [b]'s entries at the descriptor's field, each kept at
    its first occurrence only (hence without duplicates). *)
Theorem generateC_per_column (a : list GenerateC.column) (b : list obj) :
  Forall2
    (fun item r =>
       GenerateC.label r = GenerateC.headerName item
       ∧ map GenerateC.option_label (GenerateC.listOptions r)
         = match GenerateC.options item with
           | Some opts => map (fun opt => get opt "label") opts
           | None =>
               JsSet.first_occurrences
                 (map (fun entry => get entry (GenerateC.field item)) b)
           end
       ∧ (GenerateC.options item = None ->
          NoDup (map GenerateC.option_label (GenerateC.listOptions r))
          ∧ ∀ v, v ∈ map GenerateC.option_label (GenerateC.listOptions r)
                 ↔ ∃ entry, entry ∈ b ∧ v = get entry (GenerateC.field item)))
    a (GenerateC.generateC a b).
Proof.
  unfold GenerateC.generateC. apply Forall2_map_r_elem. intros item _. simpl.
  split; [done|].
  destruct (GenerateC.options item) as [opts|].
  - split; [|done]. rewrite map_map. done.
  - rewrite map_map, map_id.
    split; [apply of_list_first_occurrences|].
    intros _. split; [apply NoDup_of_list|].
    intros v. rewrite elem_of_of_list.
    change (map ?f ?l) with (f <$> l). rewrite list_elem_of_fmap.
    split; intros (entry & ? & ?); eauto.
Qed.

(** ** [transformToBarData] *)

Example transformToBarData_test :
  BarData.transformToBarData
    [ BarData.Component (JStr "Q1") (JStr "cpu") (JNum 3) (JStr "red");
      BarData.Component (JStr "Q1") (JStr "ram") (JNum 5) (JStr "blue");
      BarData.Component (JStr "Q2") (JStr "cpu") (JNum 7) (JStr "green");
      BarData.Component (JStr "Q1") (JStr "cpu") (JNum 9) (JStr "black") ]
  = BarData.BarData
      [ BarData.Series [JNum 3; JNum 7] "A" (JStr "cpu") (JStr "red");
        BarData.Series [JNum 5; JNum 0] "A" (JStr "ram") (JStr "blue") ]
      [ JStr "Q1"; JStr "Q2" ].
Proof. vm_compute. reflexivity. Qed.

Lemma strict_eq_true (a b : jsval) :
  strict_eq a b = true ↔ a = b ∧ a ≠ JNaN.
Proof.
  unfold strict_eq.
  destruct a; rewrite ?bool_decide_eq_true;
    try (split; [intros <-; split; [done|discriminate]|by intros [? _]]).
  split; [done|]. by intros [_ ?].
Qed.

Lemma strict_eq_same (a b : jsval) :
  b ≠ JNaN -> strict_eq a b = bool_decide (a = b).
Proof.
  intros Hb. unfold strict_eq. destruct a; try done.
  symmetry. apply bool_decide_eq_false. by intros <-.
Qed.

Lemma strict_eq_nan (a : jsval) : strict_eq a JNaN = false.
Proof.
  destruct (strict_eq a JNaN) eqn:E; [|done].
  apply strict_eq_true in E as [-> E]. done.
Qed.

(** The series of [transformToBarData], read with [===]. *)
Lemma transformToBarData_series_strict (components : list BarData.component) :
  let r := BarData.transformToBarData components in
  Forall2
    (fun l s =>
       BarData.series_label s = l
       ∧ BarData.stack s = "A"
       ∧ Forall2
           (fun n v =>
              (n ≠ JNaN ∧ l ≠ JNaN
               ∧ ∃ c, first_match
                        (fun c => bool_decide (BarData.name c = n
                                               ∧ BarData.label c = l))
                        components c
                      ∧ v = BarData.value c)
              ∨ ((n = JNaN ∨ l = JNaN
                  ∨ ∀ c, c ∈ components ->
                         ¬ (BarData.name c = n ∧ BarData.label c = l))
                 ∧ v = JNum 0))
           (BarData.labels r) (BarData.data s)
       ∧ (if decide (l = JNaN) then BarData.series_color s = JUndefined
          else ∃ c, first_match (fun c => bool_decide (BarData.label c = l))
                                components c
                    ∧ BarData.series_color s = BarData.color c))
    (JsSet.first_occurrences (map BarData.label components))
    (BarData.barData r).
Proof.
  unfold BarData.transformToBarData. simpl.
  rewrite <- (of_list_first_occurrences (map BarData.label components)).
  apply Forall2_map_r_elem. intros l Hl. simpl. split_and!; [done..| |].
  - apply Forall2_map_r_elem. intros n _.
    set (f := fun comp => strict_eq (BarData.name comp) n
                          && strict_eq (BarData.label comp) l).
    destruct (decide (n = JNaN)) as [->|Hn].
    { right. split; [by left|].
      destruct (find f components) as [item|] eqn:E; [|done].
      apply find_Some_first in E as (k & _ & Hf & _). unfold f in Hf.
      by rewrite strict_eq_nan in Hf. }
    destruct (decide (l = JNaN)) as [->|Hlab].
    { right. split; [by right; left|].
      destruct (find f components) as [item|] eqn:E; [|done].
      apply find_Some_first in E as (k & _ & Hf & _). unfold f in Hf.
      by rewrite strict_eq_nan, andb_false_r in Hf. }
    assert (Hf : ∀ c, f c = bool_decide (BarData.name c = n ∧ BarData.label c = l)).
    { intros c. unfold f. rewrite !strict_eq_same by done.
      by rewrite bool_decide_and. }
    destruct (find f components) as [item|] eqn:E.
    + left. split_and!; [done..|]. exists item. split; [|done].
      destruct (find_Some_first _ _ _ E) as (k & Hk & Hc & Hlt).
      exists k. split_and!; [done|by rewrite <- Hf|].
      intros j c' Hj Hc'. rewrite <- Hf. eauto.
    + right. split; [|done]. right. right. intros c Hc Hm.
      pose proof (find_None_all _ _ E c Hc) as Hfc.
      rewrite Hf in Hfc. by apply bool_decide_eq_false in Hfc.
  - destruct (decide (l = JNaN)) as [->|Hlab].
    + destruct (find _ components) as [c|] eqn:E; [|done].
      apply find_Some_first in E as (k & _ & Hf & _).
      by rewrite strict_eq_nan in Hf.
    + rewrite elem_of_of_list in Hl.
      change (map ?f ?l) with (f <$> l) in Hl.
      apply list_elem_of_fmap in Hl as (c0 & -> & Hc0).
      assert (Hg : ∀ c, strict_eq (BarData.label c) (BarData.label c0)
                        = bool_decide (BarData.label c = BarData.label c0))
        by (intros c; by apply strict_eq_same).
      destruct (find_is_Some
                  (fun comp => strict_eq (BarData.label comp) (BarData.label c0))
                  components c0 Hc0) as [c E].
      { rewrite Hg. by apply bool_decide_eq_true. }
      rewrite E. exists c. split; [|done].
      destruct (find_Some_first _ _ _ E) as (k & Hk & Hc & Hlt).
      exists k. split_and!; [done|by rewrite <- Hg|].
      intros j c' Hj Hc'. rewrite <- Hg. eauto.
Qed.

Lemma first_occurrences_elem {A} `{EqDecision A} (l : list A) (x : A) :
  x ∈ JsSet.first_occurrences l ↔ x ∈ l.
Proof. rewrite <- of_list_first_occurrences. apply elem_of_of_list. Qed.

(** C10 (as amended). [transformToBarData] returns as labels the distinct
    names in first-occurrence order, and one series per distinct label, in
    first-occurrence order, with stack ['A']. Names and labels are collected
    by a [Set], which keeps a [NaN], but components are looked up with [===],
    which no [NaN] satisfies: the entry of a series for a name is the value of
    the first component with that name and that label when neither is [NaN],
    and 0 when one of them is [NaN] or no component has both; the color is
    that of the first component bearing the label, and [undefined] for the
    label [NaN]. When no name or label is [NaN], this is the statement of the
    specification. *)
Theorem transformToBarData_series (components : list BarData.component) :
  let r := BarData.transformToBarData components in
  BarData.labels r = JsSet.first_occurrences (map BarData.name components)
  ∧ Forall2
      (fun l s =>
         BarData.series_label s = l
         ∧ BarData.stack s = "A"
         ∧ Forall2
             (fun n v =>
                (n ≠ JNaN ∧ l ≠ JNaN
                 ∧ ∃ c, first_match
                          (fun c => bool_decide (BarData.name c = n
                                                 ∧ BarData.label c = l))
                          components c
                        ∧ v = BarData.value c)
                ∨ ((n = JNaN ∨ l = JNaN
                    ∨ ∀ c, c ∈ components ->
                           ¬ (BarData.name c = n ∧ BarData.label c = l))
                   ∧ v = JNum 0))
             (BarData.labels r) (BarData.data s)
         ∧ (if decide (l = JNaN) then BarData.series_color s = JUndefined
            else ∃ c, first_match (fun c => bool_decide (BarData.label c = l))
                                  components c
                      ∧ BarData.series_color s = BarData.color c))
      (JsSet.first_occurrences (map BarData.label components))
      (BarData.barData r)
  ∧ ((∀ c, c ∈ components ->
           BarData.name c ≠ JNaN ∧ BarData.label c ≠ JNaN) ->
     bar_series_as_stated components r).
Proof.
  intros r.
  assert (Hlabels : BarData.labels r
                    = JsSet.first_occurrences (map BarData.name components))
    by apply of_list_first_occurrences.
  pose proof (transformToBarData_series_strict components) as Hstrict.
  change (BarData.transformToBarData components) with r in Hstrict.
  cbv zeta in Hstrict. split_and!; [done|done|].
  intros Hnan. unfold bar_series_as_stated.
  assert (Hname : ∀ n, n ∈ BarData.labels r -> n ≠ JNaN).
  { intros n. rewrite Hlabels, first_occurrences_elem.
    change (map ?f ?l) with (f <$> l). rewrite list_elem_of_fmap.
    intros (c & -> & Hc). by apply Hnan. }
  assert (Hlab : ∀ l, l ∈ JsSet.first_occurrences (map BarData.label components) ->
                      l ≠ JNaN).
  { intros l. rewrite first_occurrences_elem.
    change (map ?f ?l) with (f <$> l). rewrite list_elem_of_fmap.
    intros (c & -> & Hc). by apply Hnan. }
  revert Hstrict Hlab. clear Hlabels. revert Hname.
  generalize (BarData.labels r). intros names Hname.
  generalize (JsSet.first_occurrences (map BarData.label components))
             (BarData.barData r).
  intros ls ss Hstrict.
  induction Hstrict as [|l s ls' ss' (Hl & Hs & Hdata & Hcolor) _ IH];
    intros Hlab; [constructor|].
  constructor; [|apply IH; intros l' Hl'; apply Hlab; by right].
  assert (Hlnan : l ≠ JNaN) by (apply Hlab; by left).
  split_and!; [done|done| |].
  - clear Hcolor IH. revert Hdata Hname.
    generalize names (BarData.data s). intros ns vs Hdata.
    induction Hdata as [|n v ns' vs' Hnv _ IHd]; intros Hname; [constructor|].
    constructor; [|apply IHd; intros n' Hn'; apply Hname; by right].
    destruct Hnv as [(_ & _ & Hc)|[[Hn|[Hl'|Hnone]] Hv]].
    + by left.
    + destruct (Hname n); [by left|done].
    + done.
    + by right.
  - by destruct (decide (l = JNaN)).
Qed.

(** A component whose name is [NaN]: the [Set] keeps the name, [===] never
    finds the component again, and the chart shows 0 where the specification
    asks for the component's value. *)
Lemma bar_series_nan_counterexample :
  let components :=
    [BarData.Component JNaN (JStr "cpu") (JNum 3) (JStr "red")] in
  BarData.transformToBarData components
  = BarData.BarData [BarData.Series [JNum 0] "A" (JStr "cpu") (JStr "red")] [JNaN]
  ∧ ¬ bar_series_as_stated components (BarData.transformToBarData components).
Proof.
  intros components.
  assert (E1 : JsSet.first_occurrences (map BarData.label components) = [JStr "cpu"])
    by (vm_compute; reflexivity).
  assert (E2 : BarData.transformToBarData components
               = BarData.BarData
                   [BarData.Series [JNum 0] "A" (JStr "cpu") (JStr "red")] [JNaN])
    by (vm_compute; reflexivity).
  split; [done|].
  unfold bar_series_as_stated. rewrite E1, E2. simpl.
  intros H. apply Forall2_cons_1 in H as [(_ & _ & Hdata & _) _].
  apply Forall2_cons_1 in Hdata as [[(c & (k & Hk & _) & Hv)|[Hnone Hv]] _].
  - destruct k as [|k]; [|done]. injection Hk as <-. done.
  - apply (Hnone (BarData.Component JNaN (JStr "cpu") (JNum 3) (JStr "red")));
      [by left|done].
Qed.

Lemma transformToBarData_series_witness :
  bar_series_as_stated
    [BarData.Component (JStr "Q1") (JStr "cpu") (JNum 3) (JStr "red");
     BarData.Component (JStr "Q2") (JStr "cpu") (JNum 7) (JStr "green")]
    (BarData.transformToBarData
       [BarData.Component (JStr "Q1") (JStr "cpu") (JNum 3) (JStr "red");
        BarData.Component (JStr "Q2") (JStr "cpu") (JNum 7) (JStr "green")]).
Proof.
  apply (transformToBarData_series
           [BarData.Component (JStr "Q1") (JStr "cpu") (JNum 3) (JStr "red");
            BarData.Component (JStr "Q2") (JStr "cpu") (JNum 7) (JStr "green")]).
  intros c [->|[->|Hc%elem_of_nil]%elem_of_cons]%elem_of_cons; done.
Defined.

(** ** The client *)

Lemma take_request_Some {K} (id : nat) (l : list (request K)) r rest :
  take_request id l = Some (r, rest) ->
  r ∈ l ∧ rid r = id ∧ (∀ x, x ∈ rest -> x ∈ l) ∧ length l = S (length rest).
Proof.
  revert r rest. induction l as [|x l IH]; intros r rest; simpl; [done|].
  case_bool_decide as Hx.
  - intros [= <- <-]. split_and!; [by left|done| |done].
    intros y Hy. by right.
  - destruct (take_request id l) as [[r' t']|] eqn:E; [|done].
    intros [= <- <-]. destruct (IH _ _ eq_refl) as (Hr & Hid & Hsub & Hlen).
    split_and!; [by right|done| |simpl; lia].
    intros y [->|Hy]%elem_of_cons; [by left|]. right. by apply Hsub.
Qed.

Lemma take_request_None {K} (id : nat) (l : list (request K)) :
  take_request id l = None -> ∀ r, r ∈ l -> rid r ≠ id.
Proof.
  induction l as [|x l IH]; simpl; [by intros _ r ?%elem_of_nil|].
  case_bool_decide as Hx; [done|].
  destruct (take_request id l) as [[r' t']|] eqn:E; [done|].
  intros _ r [->|Hr]%elem_of_cons; [done|]. by apply IH.
Qed.

Lemma take_request_elem {K} (l : list (request K)) r :
  r ∈ l -> is_Some (take_request (rid r) l).
Proof.
  intros Hr. destruct (take_request (rid r) l) as [[]|] eqn:E; [done|].
  by destruct (take_request_None _ _ E r Hr).
Qed.

Lemma is_aborted_abort {K} (c c' : nat) (n : client K) :
  is_aborted c (abort c' n) = true ↔ c = c' ∨ is_aborted c n = true.
Proof.
  unfold is_aborted, abort. simpl.
  rewrite !bool_decide_eq_true, elem_of_cons. done.
Qed.

(** ** [useRequest]: reachable states *)

Lemma useRequest_exec_snoc evs ev w :
  UseRequest.exec (evs ++ [ev]) w = UseRequest.step ev (UseRequest.exec evs w).
Proof. unfold UseRequest.exec. by rewrite fold_left_app. Qed.

Lemma useRequest_exec_app evs evs' w :
  UseRequest.exec (evs ++ evs') w = UseRequest.exec evs' (UseRequest.exec evs w).
Proof. unfold UseRequest.exec. by rewrite fold_left_app. Qed.

(** What the settlement of a request does besides removing it. *)
Lemma useRequest_settle_cases id rep w :
  match take_request id (pending (UseRequest.net w)) with
  | Some (r, rest) =>
      UseRequest.settle id rep w
      = (let w' := UseRequest.set_net (with_pending rest (UseRequest.net w)) w in
         let '(w'', s) := UseRequest.run_resume (closure r)
                            (outcome (UseRequest.net w) r rep) w' in
         (w'', Some s))
  | None => UseRequest.settle id rep w = (w, None)
  end.
Proof.
  unfold UseRequest.settle.
  destruct (take_request id (pending (UseRequest.net w))) as [[r rest]|]; done.
Qed.

(** Resuming [run] changes neither the client nor the ref. *)
Lemma useRequest_run_resume_net p res w :
  UseRequest.net (fst (UseRequest.run_resume p res w)) = UseRequest.net w
  ∧ UseRequest.abortControllerRef (fst (UseRequest.run_resume p res w))
    = UseRequest.abortControllerRef w.
Proof.
  unfold UseRequest.run_resume.
  destruct res as [d|err]; [|destruct (isCancel err)];
    repeat match goal with |- context [if ?b then _ else _] => destruct b end;
    done.
Qed.

Lemma useRequest_settle_net id rep w :
  (∃ r rest, take_request id (pending (UseRequest.net w)) = Some (r, rest)
     ∧ UseRequest.net (fst (UseRequest.settle id rep w))
       = with_pending rest (UseRequest.net w)
     ∧ UseRequest.abortControllerRef (fst (UseRequest.settle id rep w))
       = UseRequest.abortControllerRef w)
  ∨ (take_request id (pending (UseRequest.net w)) = None
     ∧ fst (UseRequest.settle id rep w) = w).
Proof.
  pose proof (useRequest_settle_cases id rep w) as H.
  destruct (take_request id (pending (UseRequest.net w))) as [[r rest]|] eqn:E.
  - left. exists r, rest. split; [done|]. rewrite H. simpl.
    match goal with |- context [UseRequest.run_resume ?p ?o ?w'] =>
      pose proof (useRequest_run_resume_net p o w') as [Hn Hr];
      destruct (UseRequest.run_resume p o w') as [w'' s] end.
    simpl in *. by rewrite Hn, Hr.
  - right. by rewrite H.
Qed.

Lemma useRequest_inv_run p rc w :
  useRequest_inv w -> useRequest_inv (UseRequest.run p rc w).
Proof.
  intros Hinv r. unfold UseRequest.run.
  destruct (UseRequest.abortControllerRef w) as [c|] eqn:Href;
    simpl; rewrite elem_of_app, list_elem_of_singleton;
    (intros [Hr| ->]; [|simpl; split; [lia|by right]]);
    destruct (Hinv r Hr) as [Hlt Hsig]; (split; [lia|]); left.
  - unfold is_aborted in *. simpl. apply bool_decide_eq_true, elem_of_cons.
    destruct Hsig as [Ha|Hs].
    + right. by apply bool_decide_eq_true in Ha.
    + left. congruence.
  - destruct Hsig as [Ha|Hs]; [done|congruence].
Qed.

Lemma useRequest_inv_step ev w :
  useRequest_inv w -> useRequest_inv (UseRequest.step ev w).
Proof.
  intros Hinv. destruct ev as [p rc|p|p|id rep|]; simpl.
  - by apply useRequest_inv_run.
  - by apply useRequest_inv_run.
  - done.
  - destruct (useRequest_settle_net id rep w)
      as [(r0 & rest & Htake & Hnet & Href)|[_ ->]]; [|done].
    intros r. rewrite Hnet, Href. simpl. intros Hr.
    apply take_request_Some in Htake as (_ & _ & Hsub & _).
    apply (Hinv r). by apply Hsub.
  - unfold UseRequest.unmount.
    destruct (UseRequest.abortControllerRef w) as [c|] eqn:Href; [|done].
    intros r Hr. simpl in *. destruct (Hinv r Hr) as [Hlt Hsig].
    split; [done|].
    destruct Hsig as [Ha|Hs]; [left|right; congruence].
    apply is_aborted_abort. by right.
Qed.

Lemma useRequest_inv_mount p : useRequest_inv (UseRequest.mount p).
Proof. intros r Hr. by apply elem_of_nil in Hr. Qed.

Lemma useRequest_inv_exec evs w :
  useRequest_inv w -> useRequest_inv (UseRequest.exec evs w).
Proof.
  revert w. induction evs as [|ev evs IH]; intros w Hw; [done|].
  simpl. apply IH. by apply useRequest_inv_step.
Qed.

Lemma useRequest_stale_run p rc w :
  useRequest_inv w ->
  useRequest_stale (issued (UseRequest.net w)) (UseRequest.run p rc w).
Proof.
  intros Hinv. unfold useRequest_stale, UseRequest.run.
  destruct (UseRequest.abortControllerRef w) as [c|] eqn:Href; simpl;
    (split; [lia|]); intros r Hr Hlt;
    apply elem_of_app in Hr as [Hr|Hr%list_elem_of_singleton];
    try (subst r; simpl in Hlt; lia);
    destruct (Hinv r Hr) as [_ Hsig].
  - unfold is_aborted in *. simpl. apply bool_decide_eq_true, elem_of_cons.
    destruct Hsig as [Ha|Hs].
    + right. by apply bool_decide_eq_true in Ha.
    + left. congruence.
  - destruct Hsig as [Ha|Hs]; [done|congruence].
Qed.

Lemma useRequest_stale_step n ev w :
  useRequest_stale n w -> useRequest_stale n (UseRequest.step ev w).
Proof.
  intros [Hn Hst].
  assert (Hrun : ∀ p rc, useRequest_stale n (UseRequest.run p rc w)).
  { intros p rc. unfold useRequest_stale, UseRequest.run.
    destruct (UseRequest.abortControllerRef w) as [c|] eqn:Href; simpl;
      (split; [lia|]); intros r Hr Hlt;
      apply elem_of_app in Hr as [Hr|Hr%list_elem_of_singleton];
      try (subst r; simpl in Hlt; lia).
    - apply is_aborted_abort. right. by apply Hst.
    - by apply Hst. }
  destruct ev as [p rc|p|p|id rep|]; simpl; [apply Hrun|apply Hrun|done| |].
  - destruct (useRequest_settle_net id rep w)
      as [(r0 & rest & Htake & Hnet & Href)|[_ ->]]; [|done].
    split; rewrite Hnet; simpl; [done|]. intros r Hr Hlt.
    apply take_request_Some in Htake as (_ & _ & Hsub & _).
    apply Hst; [by apply Hsub|done].
  - unfold UseRequest.unmount.
    destruct (UseRequest.abortControllerRef w) as [c|] eqn:Href; [|done].
    split; simpl; [done|]. intros r Hr Hlt.
    apply is_aborted_abort. right. by apply Hst.
Qed.

Lemma useRequest_stale_exec n evs w :
  useRequest_stale n w -> useRequest_stale n (UseRequest.exec evs w).
Proof.
  revert w. induction evs as [|ev evs IH]; intros w Hw; [done|].
  simpl. apply IH. by apply useRequest_stale_step.
Qed.

(** A request whose signal was triggered settles by leaving [data] and
    [error] as they are. *)
Lemma useRequest_settle_cancelled id rep w r rest :
  take_request id (pending (UseRequest.net w)) = Some (r, rest) ->
  is_aborted (signal r) (UseRequest.net w) = true ->
  UseRequest.data (fst (UseRequest.settle id rep w)) = UseRequest.data w
  ∧ UseRequest.error (fst (UseRequest.settle id rep w)) = UseRequest.error w
  ∧ UseRequest.calls (fst (UseRequest.settle id rep w)) = UseRequest.calls w
  ∧ UseRequest.loading (fst (UseRequest.settle id rep w)) = false.
Proof.
  intros Htake Hab. pose proof (useRequest_settle_cases id rep w) as H.
  rewrite Htake in H. rewrite H. unfold outcome. rewrite Hab. done.
Qed.

Lemma useRequest_settle_stale n id rep w :
  useRequest_stale n w -> (id < n)%nat ->
  UseRequest.data (UseRequest.step (UseRequest.Settle id rep) w) = UseRequest.data w
  ∧ UseRequest.error (UseRequest.step (UseRequest.Settle id rep) w)
    = UseRequest.error w.
Proof.
  intros [_ Hst] Hid. simpl.
  destruct (take_request id (pending (UseRequest.net w))) as [[r rest]|] eqn:E.
  - pose proof (take_request_Some _ _ _ _ E) as (Hr & Hrid & _ & _).
    destruct (useRequest_settle_cancelled id rep w r rest E) as (? & ? & _);
      [|done]. apply Hst; [done|lia].
  - pose proof (useRequest_settle_cases id rep w) as H. rewrite E in H.
    by rewrite H.
Qed.

(** ** [useRequest] over an instance with a given signal policy *)

Lemma useRequest_step_via_passes ev w :
  UseRequest.step_via PassesSignal ev w = UseRequest.step ev w.
Proof. by destruct ev. Qed.

Lemma useRequest_exec_via_passes evs w :
  UseRequest.exec_via PassesSignal evs w = UseRequest.exec evs w.
Proof.
  revert w. induction evs as [|ev evs IH]; intros w; [done|].
  simpl. by rewrite useRequest_step_via_passes, IH.
Qed.

Lemma useRequest_settle_via_cases i id rep w :
  match take_request id (pending (UseRequest.net w)) with
  | Some (r, rest) =>
      UseRequest.settle_via i id rep w
      = (let w' := UseRequest.set_net (with_pending rest (UseRequest.net w)) w in
         let '(w'', s) := UseRequest.run_resume (closure r)
                            (outcome_via i (UseRequest.net w) r rep) w' in
         (w'', Some s))
  | None => UseRequest.settle_via i id rep w = (w, None)
  end.
Proof.
  unfold UseRequest.settle_via.
  destruct (take_request id (pending (UseRequest.net w))) as [[r rest]|]; done.
Qed.

Lemma useRequest_settle_via_net i id rep w :
  (∃ r rest, take_request id (pending (UseRequest.net w)) = Some (r, rest)
     ∧ UseRequest.net (fst (UseRequest.settle_via i id rep w))
       = with_pending rest (UseRequest.net w)
     ∧ UseRequest.abortControllerRef (fst (UseRequest.settle_via i id rep w))
       = UseRequest.abortControllerRef w)
  ∨ (take_request id (pending (UseRequest.net w)) = None
     ∧ fst (UseRequest.settle_via i id rep w) = w).
Proof.
  pose proof (useRequest_settle_via_cases i id rep w) as H.
  destruct (take_request id (pending (UseRequest.net w))) as [[r rest]|] eqn:E.
  - left. exists r, rest. split; [done|]. rewrite H. simpl.
    match goal with |- context [UseRequest.run_resume ?p ?o ?w'] =>
      pose proof (useRequest_run_resume_net p o w') as [Hn Hr];
      destruct (UseRequest.run_resume p o w') as [w'' s] end.
    simpl in *. by rewrite Hn, Hr.
  - right. by rewrite H.
Qed.

Lemma useRequest_inv_step_via i ev w :
  useRequest_inv w -> useRequest_inv (UseRequest.step_via i ev w).
Proof.
  intros Hinv. destruct ev as [p rc|p|p|id rep|].
  - by apply (useRequest_inv_step (UseRequest.Run p rc)).
  - by apply (useRequest_inv_step (UseRequest.Refresh p)).
  - by apply (useRequest_inv_step (UseRequest.Reset p)).
  - simpl. destruct (useRequest_settle_via_net i id rep w)
      as [(r0 & rest & Htake & Hnet & Href)|[_ ->]]; [|done].
    intros r. rewrite Hnet, Href. simpl. intros Hr.
    apply take_request_Some in Htake as (_ & _ & Hsub & _).
    apply (Hinv r). by apply Hsub.
  - by apply (useRequest_inv_step UseRequest.Unmount).
Qed.

Lemma useRequest_inv_exec_via i evs w :
  useRequest_inv w -> useRequest_inv (UseRequest.exec_via i evs w).
Proof.
  revert w. induction evs as [|ev evs IH]; intros w Hw; [done|].
  simpl. apply IH. by apply useRequest_inv_step_via.
Qed.

(** Over an instance that replaces the signal, a request settles by what
    the transport answers, whether or not the hook has aborted its
    controller. *)
Lemma useRequest_settle_replaced r w :
  r ∈ pending (UseRequest.net w) ->
  (∀ d, let w' := UseRequest.step_via ReplacesSignal
                    (UseRequest.Settle (rid r) (Ok d)) w in
        UseRequest.data w' = d ∧ UseRequest.error w' = UseRequest.error w
        ∧ UseRequest.loading w' = false)
  ∧ (∀ err, isCancel err = false ->
       let w' := UseRequest.step_via ReplacesSignal
                   (UseRequest.Settle (rid r) (Fail err)) w in
       UseRequest.error w' = Some (stored_error err)
       ∧ UseRequest.data w' = UseRequest.data w
       ∧ UseRequest.loading w' = false).
Proof.
  intros Hr. destruct (take_request_elem _ _ Hr) as [[r' rest] E].
  split.
  - intros d. simpl.
    pose proof (useRequest_settle_via_cases ReplacesSignal (rid r) (Ok d) w) as H.
    rewrite E in H. rewrite H. simpl.
    by destruct (UseRequest.onSuccess (closure r')).
  - intros err Hc. simpl.
    pose proof (useRequest_settle_via_cases ReplacesSignal (rid r) (Fail err) w) as H.
    rewrite E in H. rewrite H. simpl. rewrite Hc. unfold stored_error.
    by destruct (UseRequest.onError (closure r')).
Qed.

(** ** [useAxios] (axios4): reachable states *)

Lemma useAxiosAbort_settle_cases id rep w :
  match take_request id (pending (UseAxiosAbort.net w)) with
  | Some (r, rest) =>
      UseAxiosAbort.settle id rep w
      = (let w' := UseAxiosAbort.set_net
                     (with_pending rest (UseAxiosAbort.net w)) w in
         let '(w'', s) := UseAxiosAbort.fetchData_resume
                            (outcome (UseAxiosAbort.net w) r rep) w' in
         (w'', Some s))
  | None => UseAxiosAbort.settle id rep w = (w, None)
  end.
Proof.
  unfold UseAxiosAbort.settle.
  destruct (take_request id (pending (UseAxiosAbort.net w))) as [[r rest]|]; done.
Qed.

Lemma useAxiosAbort_resume_frame res w :
  let w' := fst (UseAxiosAbort.fetchData_resume res w) in
  UseAxiosAbort.net w' = UseAxiosAbort.net w
  ∧ UseAxiosAbort.effect_controller w' = UseAxiosAbort.effect_controller w
  ∧ UseAxiosAbort.render_controller w' = UseAxiosAbort.render_controller w
  ∧ UseAxiosAbort.effect_deps w' = UseAxiosAbort.effect_deps w.
Proof.
  unfold UseAxiosAbort.fetchData_resume.
  destruct res as [d|err]; [done|].
  by destruct (negb _).
Qed.

Lemma useAxiosAbort_settle_frame id rep w :
  (∃ r rest,
     take_request id (pending (UseAxiosAbort.net w)) = Some (r, rest)
     ∧ UseAxiosAbort.net (fst (UseAxiosAbort.settle id rep w))
       = with_pending rest (UseAxiosAbort.net w)
     ∧ UseAxiosAbort.effect_controller (fst (UseAxiosAbort.settle id rep w))
       = UseAxiosAbort.effect_controller w)
  ∨ (take_request id (pending (UseAxiosAbort.net w)) = None
     ∧ fst (UseAxiosAbort.settle id rep w) = w).
Proof.
  pose proof (useAxiosAbort_settle_cases id rep w) as H.
  destruct (take_request id (pending (UseAxiosAbort.net w))) as [[r rest]|] eqn:E.
  - left. exists r, rest. split; [done|]. rewrite H. simpl.
    match goal with |- context [UseAxiosAbort.fetchData_resume ?o ?w'] =>
      pose proof (useAxiosAbort_resume_frame o w') as (Hn & He & _);
      destruct (UseAxiosAbort.fetchData_resume o w') as [w'' s] end.
    simpl in *. by rewrite Hn, He.
  - right. by rewrite H.
Qed.

Lemma useAxiosAbort_inv_fetchData cfg w :
  useAxiosAbort_inv w -> useAxiosAbort_inv (UseAxiosAbort.fetchData cfg w).
Proof.
  intros [Hsig Heff]. split; [|done]. simpl. intros r.
  rewrite elem_of_app, list_elem_of_singleton. intros [Hr| ->]; [|done].
  by apply Hsig.
Qed.

Lemma useAxiosAbort_inv_run_effect p w :
  useAxiosAbort_inv w -> useAxiosAbort_inv (UseAxiosAbort.run_effect p w).
Proof.
  intros Hinv. unfold UseAxiosAbort.run_effect.
  destruct (UseAxiosAbort.immediate p); [|done].
  by apply useAxiosAbort_inv_fetchData.
Qed.

Lemma useAxiosAbort_inv_mount p : useAxiosAbort_inv (UseAxiosAbort.mount p).
Proof.
  unfold UseAxiosAbort.mount. simpl. apply useAxiosAbort_inv_run_effect.
  split; simpl; [|by left]. by intros r ?%elem_of_nil.
Qed.

Lemma useAxiosAbort_inv_step ev w :
  useAxiosAbort_inv w -> useAxiosAbort_inv (UseAxiosAbort.step ev w).
Proof.
  intros [Hsig Heff]. destruct ev as [p|p cfg| |id rep|]; simpl.
  - unfold UseAxiosAbort.rerender. simpl. case_bool_decide as Hdeps.
    + split; [done|]. simpl. done.
    + apply useAxiosAbort_inv_run_effect. split; [done|]. simpl. right.
      apply is_aborted_abort.
      destruct Heff as [->|Ha]; [by left|by right].
  - by apply useAxiosAbort_inv_fetchData.
  - split; [done|]. simpl. destruct Heff as [?|Ha]; [by left|right].
    apply is_aborted_abort. by right.
  - destruct (useAxiosAbort_settle_frame id rep w)
      as [(r0 & rest & Htake & Hnet & He)|[_ ->]]; [|done].
    split; rewrite Hnet; simpl.
    + intros r Hr. apply take_request_Some in Htake as (_ & _ & Hsub & _).
      by apply Hsig, Hsub.
    + by rewrite He.
  - split; [done|]. simpl. destruct Heff as [?|Ha]; [by left|right].
    apply is_aborted_abort. by right.
Qed.

Lemma useAxiosAbort_inv_exec evs w :
  useAxiosAbort_inv w -> useAxiosAbort_inv (UseAxiosAbort.exec evs w).
Proof.
  revert w. induction evs as [|ev evs IH]; intros w Hw; [done|].
  simpl. apply IH. by apply useAxiosAbort_inv_step.
Qed.

(** A request whose signal was aborted settles without touching the state. *)
Lemma useAxiosAbort_settle_cancelled id rep w :
  useAxiosAbort_inv w ->
  is_aborted UseAxiosAbort.fetch_controller (UseAxiosAbort.net w) = true ->
  UseAxiosAbort.st (fst (UseAxiosAbort.settle id rep w)) = UseAxiosAbort.st w.
Proof.
  intros [Hsig _] Hab. pose proof (useAxiosAbort_settle_cases id rep w) as H.
  destruct (take_request id (pending (UseAxiosAbort.net w))) as [[r rest]|] eqn:E;
    rewrite H; [|done].
  apply take_request_Some in E as (Hr & _).
  unfold outcome. rewrite (Hsig r Hr), Hab. done.
Qed.

(** A request whose signal was not aborted and that succeeds replaces the
    whole state. *)
Lemma useAxiosAbort_settle_ok r d w :
  useAxiosAbort_inv w ->
  r ∈ pending (UseAxiosAbort.net w) ->
  is_aborted UseAxiosAbort.fetch_controller (UseAxiosAbort.net w) = false ->
  UseAxiosAbort.st (fst (UseAxiosAbort.settle (rid r) (Ok d) w))
  = UseAxiosAbort.State d false None.
Proof.
  intros [Hsig _] Hr Hab.
  pose proof (useAxiosAbort_settle_cases (rid r) (Ok d) w) as H.
  destruct (take_request_elem _ _ Hr) as [[r' rest] E]. rewrite E in H.
  rewrite H. apply take_request_Some in E as (Hr' & _).
  unfold outcome. rewrite (Hsig r' Hr'), Hab. done.
Qed.

(** ** Superseding a request *)

(** C1 (as amended). [useRequest]: a new [run] first aborts the controller of
    every request of the instance that is still in flight. What that does to
    such a request depends on the axios instance the hook imports. Over an
    instance that passes the hook's signal on, whenever such a request settles
    afterwards, [data] and [error] stay as they are. Over an instance that
    replaces [config.signal] (the one of part_006), the abort reaches no
    listener: when such a request settles afterwards, a response is written to
    [data] and a failure to [error], as for any other request.
    [useAxios] (axios4): [refetch] aborts nothing; unless the hook's signal
    was aborted otherwise, the earlier request, when it succeeds, replaces
    the whole state. *)
Theorem supersede_previous_request
    (p0 : UseRequest.props) (evs : list UseRequest.event)
    (p : UseRequest.props) (runConfig : option obj)
    (q0 : UseAxiosAbort.props) (evs_a : list UseAxiosAbort.event)
    (q : UseAxiosAbort.props) (newConfig : option obj) :
  (let w := UseRequest.exec_via PassesSignal evs (UseRequest.mount p0) in
   let w1 := UseRequest.run p runConfig w in
   Forall
     (fun r =>
        is_aborted (signal r) (UseRequest.net w1) = true
        ∧ ∀ evs' rep,
            let w2 := UseRequest.exec_via PassesSignal evs' w1 in
            let w3 := UseRequest.step_via PassesSignal
                        (UseRequest.Settle (rid r) rep) w2 in
            UseRequest.data w3 = UseRequest.data w2
            ∧ UseRequest.error w3 = UseRequest.error w2)
     (pending (UseRequest.net w)))
  ∧ (let w := UseRequest.exec_via ReplacesSignal evs (UseRequest.mount p0) in
     let w1 := UseRequest.run p runConfig w in
     Forall
       (fun r =>
          is_aborted (signal r) (UseRequest.net w1) = true
          ∧ ∀ evs',
              let w2 := UseRequest.exec_via ReplacesSignal evs' w1 in
              r ∈ pending (UseRequest.net w2) ->
              (∀ d, UseRequest.data
                      (UseRequest.step_via ReplacesSignal
                         (UseRequest.Settle (rid r) (Ok d)) w2) = d)
              ∧ (∀ err, isCancel err = false ->
                   UseRequest.error
                     (UseRequest.step_via ReplacesSignal
                        (UseRequest.Settle (rid r) (Fail err)) w2)
                   = Some (stored_error err)))
       (pending (UseRequest.net w)))
  ∧ (let w := UseAxiosAbort.exec evs_a (UseAxiosAbort.mount q0) in
     let w1 := UseAxiosAbort.refetch q newConfig w in
     aborted (UseAxiosAbort.net w1) = aborted (UseAxiosAbort.net w)
     ∧ Forall
         (fun r =>
            is_aborted UseAxiosAbort.fetch_controller (UseAxiosAbort.net w) = false ->
            ∀ d, UseAxiosAbort.st
                   (UseAxiosAbort.step (UseAxiosAbort.Settle (rid r) (Ok d)) w1)
                 = UseAxiosAbort.State d false None)
         (pending (UseAxiosAbort.net w))).
Proof.
  assert (Hstale : ∀ i,
            let w := UseRequest.exec_via i evs (UseRequest.mount p0) in
            ∀ r, r ∈ pending (UseRequest.net w) ->
                 is_aborted (signal r)
                   (UseRequest.net (UseRequest.run p runConfig w)) = true).
  { intros i w r Hr.
    assert (Hinv : useRequest_inv w)
      by apply useRequest_inv_exec_via, useRequest_inv_mount.
    pose proof (useRequest_stale_run p runConfig w Hinv) as Hst.
    destruct (Hinv r Hr) as [Hlt _].
    apply Hst; [|done]. unfold UseRequest.run.
    destruct (UseRequest.abortControllerRef w); simpl;
      apply elem_of_app; by left. }
  split_and!.
  - intros w w1. apply Forall_forall. intros r Hr.
    split; [by apply (Hstale PassesSignal)|].
    intros evs' rep w2 w3. subst w3 w2 w1 w.
    rewrite useRequest_step_via_passes, !useRequest_exec_via_passes.
    assert (Hinv : useRequest_inv (UseRequest.exec evs (UseRequest.mount p0)))
      by apply useRequest_inv_exec, useRequest_inv_mount.
    rewrite useRequest_exec_via_passes in Hr.
    destruct (Hinv r Hr) as [Hlt _].
    apply (useRequest_settle_stale
             (issued (UseRequest.net (UseRequest.exec evs (UseRequest.mount p0)))));
      [|done].
    by apply useRequest_stale_exec, useRequest_stale_run.
  - intros w w1. apply Forall_forall. intros r Hr.
    split; [by apply (Hstale ReplacesSignal)|].
    intros evs' w2 Hr2.
    destruct (useRequest_settle_replaced r w2 Hr2) as [Hok Hfail]. split.
    + intros d. apply Hok.
    + intros err Hc. by apply Hfail.
  - intros w w1. split; [done|]. apply Forall_forall. intros r Hr Hab d.
    assert (Hinv : useAxiosAbort_inv w1).
    { apply (useAxiosAbort_inv_step (UseAxiosAbort.Refetch q newConfig)).
      apply useAxiosAbort_inv_exec, useAxiosAbort_inv_mount. }
    apply useAxiosAbort_settle_ok; [done| |done].
    simpl. apply elem_of_app. by left.
Qed.

(** With one request in flight, a second [refetch] of [useAxios] (axios4)
    leaves the first un-cancelled, and the first then overwrites the state;
    a second [run] of [useRequest] cancels the first, whose settlement then
    turns [loading] off under the second. *)
Lemma supersede_counterexample :
  ¬ useAxiosAbort_supersedes sample_abort_props None
      (UseAxiosAbort.refetch sample_abort_props None
         (UseAxiosAbort.mount sample_abort_props))
  ∧ ¬ useRequest_supersedes sample_request_props None
        (UseRequest.run sample_request_props None
           (UseRequest.mount sample_request_props)).
Proof.
  split.
  - intros H. apply Forall_inv in H as [Hab _]. vm_compute in Hab. done.
  - intros H. apply Forall_inv in H as [_ H].
    destruct (H (Ok (JNum 1))) as (_ & _ & Hl). vm_compute in Hl. done.
Qed.

Lemma supersede_previous_request_witness :
  let w1 := UseRequest.run sample_request_props None
              (UseRequest.run sample_request_props None
                 (UseRequest.mount sample_request_props)) in
  let a1 := UseAxiosAbort.refetch sample_abort_props None
              (UseAxiosAbort.refetch sample_abort_props None
                 (UseAxiosAbort.mount sample_abort_props)) in
  (is_aborted 0 (UseRequest.net w1) = true
   ∧ UseRequest.data
       (UseRequest.step_via PassesSignal (UseRequest.Settle 0 (Ok (JNum 1))) w1)
     = UseRequest.data w1
   ∧ UseRequest.data
       (UseRequest.step_via ReplacesSignal (UseRequest.Settle 0 (Ok (JNum 1))) w1)
     = JNum 1)
  ∧ UseAxiosAbort.st (UseAxiosAbort.step (UseAxiosAbort.Settle 0 (Ok (JNum 1))) a1)
    = UseAxiosAbort.State (JNum 1) false None.
Proof.
  intros w1 a1.
  destruct (supersede_previous_request
              sample_request_props [UseRequest.Run sample_request_props None]
              sample_request_props None
              sample_abort_props [UseAxiosAbort.Refetch sample_abort_props None]
              sample_abort_props None) as (H1 & H1' & _ & H2).
  apply Forall_inv in H1 as [Ha Hd]. apply Forall_inv in H1' as [_ Hd'].
  apply Forall_inv in H2.
  split; [split_and!|].
  - exact Ha.
  - exact (proj1 (Hd [] (Ok (JNum 1)))).
  - apply (proj1 (Hd' [] ltac:(by left)) (JNum 1)).
  - apply H2. reflexivity.
Defined.

(** ** Failures *)

(** C2 (as amended). When a request fails with an error that is not a
    cancellation: [useRequest] stores the error (the thrown [Error], or
    [Error('Request failed')] for a thrown value that is not one) and leaves
    [data] as it is; [useAxios] (axios4) stores the error and resets [data]
    to [null]; the paginated [useAxios] (part_000) does the same once no retry
    is left, and before that starts the next attempt with the retry count
    raised by one. *)
Theorem failure_stores_error (err : thrown) :
  isCancel err = false ->
  (∀ p w,
     let w' := fst (UseRequest.run_resume p (Fail err) w) in
     UseRequest.error w' = Some (stored_error err)
     ∧ UseRequest.data w' = UseRequest.data w)
  ∧ (∀ w,
       UseAxiosAbort.st (fst (UseAxiosAbort.fetchData_resume (Fail err) w))
       = UseAxiosAbort.State JNull false (Some err))
  ∧ (∀ stringify p isLoadMore w,
       let w' := UseAxiosPaged.fetchData_resume stringify p isLoadMore (Fail err) w in
       (UseAxiosPaged.retry p <= UseAxiosPaged.retryCount w ->
        UseAxiosPaged.st w' = UseAxiosPaged.State JNull false (Some err))
       ∧ (UseAxiosPaged.retryCount w < UseAxiosPaged.retry p ->
          w' = UseAxiosPaged.fetchData stringify p isLoadMore
                 (UseAxiosPaged.set_retryCount (UseAxiosPaged.retryCount w + 1) w))).
Proof.
  intros Hc. split_and!.
  - intros p w. unfold UseRequest.run_resume, stored_error. rewrite Hc.
    by destruct (UseRequest.onError p).
  - intros w. unfold UseAxiosAbort.fetchData_resume.
    by destruct err.
  - intros stringify p isLoadMore w. unfold UseAxiosPaged.fetchData_resume.
    rewrite Hc. split; intros Hk.
    + apply Z.ltb_ge in Hk. rewrite Hk. by destruct (UseAxiosPaged.onError p).
    + apply Z.ltb_lt in Hk. by rewrite Hk.
Qed.

Lemma failure_stores_error_witness :
  UseAxiosAbort.st
    (fst (UseAxiosAbort.fetchData_resume
            (Fail (AxiosError (BadStatus 500) "Request failed with status code 500"))
            (UseAxiosAbort.mount sample_abort_props)))
  = UseAxiosAbort.State JNull false
      (Some (AxiosError (BadStatus 500) "Request failed with status code 500")).
Proof.
  apply (failure_stores_error
           (AxiosError (BadStatus 500) "Request failed with status code 500")).
  reflexivity.
Defined.

(** [useAxios] (axios4) holds data from a first request; a second request
    fails on the network, and the data is gone. *)
Lemma failure_keeps_data_counterexample :
  ¬ useAxiosAbort_failure_keeps_data 1 (AxiosError NetworkFailure "Network Error")
      (UseAxiosAbort.exec
         [ UseAxiosAbort.Refetch sample_abort_props None;
           UseAxiosAbort.Settle 0 (Ok (JNum 1));
           UseAxiosAbort.Refetch sample_abort_props None ]
         (UseAxiosAbort.mount sample_abort_props)).
Proof. intros [_ H]. vm_compute in H. done. Qed.

(** C5 (as amended). A failure that is not a cancellation is caught in the
    hook and recorded in its error state. [useRequest] then hands it to
    [onError] when there is one and rethrows it: the promise of [run] rejects
    with the stored error. [useAxios] (axios4) has no failure callback, and
    the promise of [refetch] is fulfilled whatever happened. *)
Theorem failure_caught_and_recorded (err : thrown) :
  isCancel err = false ->
  (∀ p w,
     let '(w', s) := UseRequest.run_resume p (Fail err) w in
     UseRequest.error w' = Some (stored_error err)
     ∧ UseRequest.calls w'
       = UseRequest.calls w
         ++ (if UseRequest.onError p then [OnError (stored_error err)] else [])
     ∧ s = Rejected (stored_error err))
  ∧ (∀ w,
       let '(w', s) := UseAxiosAbort.fetchData_resume (Fail err) w in
       UseAxiosAbort.error (UseAxiosAbort.st w') = Some err
       ∧ s = Fulfilled JUndefined)
  ∧ (∀ res w,
       snd (UseAxiosAbort.fetchData_resume res w) = Fulfilled JUndefined).
Proof.
  intros Hc. split_and!.
  - intros p w. unfold UseRequest.run_resume, stored_error. rewrite Hc.
    destruct (UseRequest.onError p); simpl; by rewrite ?app_nil_r.
  - intros w. unfold UseAxiosAbort.fetchData_resume. by destruct err.
  - intros res w. unfold UseAxiosAbort.fetchData_resume.
    destruct res as [d|e]; [done|]. by destruct (negb _).
Qed.

Lemma failure_caught_and_recorded_witness :
  snd (UseRequest.run_resume sample_request_props (Fail (AxiosError TimedOut "timeout"))
         (UseRequest.run sample_request_props None
            (UseRequest.mount sample_request_props)))
  = Rejected (AxiosError TimedOut "timeout").
Proof.
  pose proof (proj1 (failure_caught_and_recorded
                       (AxiosError TimedOut "timeout") eq_refl)
                sample_request_props
                (UseRequest.run sample_request_props None
                   (UseRequest.mount sample_request_props))) as H.
  destruct (UseRequest.run_resume _ _ _) as [w' s].
  exact (proj2 (proj2 H)).
Defined.

(** [run] is called, the request times out: the promise of [run] rejects. *)
Lemma failure_contained_counterexample :
  ¬ useRequest_failure_contained 0 (AxiosError TimedOut "timeout")
      (UseRequest.run sample_request_props None
         (UseRequest.mount sample_request_props)).
Proof. intros H. apply (H (AxiosError TimedOut "timeout")). reflexivity. Qed.

(** ** Cancellations *)

Lemma outcome_cancelled {K} (n : client K) id rep l r rest :
  ends_cancelled (with_pending l n) id rep ->
  take_request id l = Some (r, rest) ->
  ∃ err, outcome n r rep = Fail err ∧ isCancel err = true.
Proof.
  intros Hend Htake. apply take_request_Some in Htake as (Hr & Hid & _).
  unfold outcome. destruct (is_aborted (signal r) n) eqn:Hab; [by eexists|].
  destruct Hend as [(err & -> & Hc)|Hall]; [by eexists|].
  specialize (Hall r Hr Hid). unfold is_aborted in *. simpl in *. congruence.
Qed.

Lemma ends_cancelled_with_pending {K} (n : client K) id rep :
  ends_cancelled n id rep -> ends_cancelled (with_pending (pending n) n) id rep.
Proof. by destruct n. Qed.

Lemma useRequest_cancelled_frame w id rep :
  ends_cancelled (UseRequest.net w) id rep ->
  let w' := UseRequest.step (UseRequest.Settle id rep) w in
  UseRequest.data w' = UseRequest.data w
  ∧ UseRequest.error w' = UseRequest.error w.
Proof.
  intros Hend. simpl.
  pose proof (useRequest_settle_cases id rep w) as H.
  destruct (take_request id (pending (UseRequest.net w))) as [[r rest]|] eqn:E;
    rewrite H; [|done].
  destruct (outcome_cancelled (UseRequest.net w) id rep _ r rest
              (ends_cancelled_with_pending _ _ _ Hend) E) as (err & -> & Hc).
  simpl. unfold UseRequest.run_resume. by rewrite Hc.
Qed.

Lemma useAxiosAbort_cancelled_frame w id rep :
  ends_cancelled (UseAxiosAbort.net w) id rep ->
  UseAxiosAbort.st (UseAxiosAbort.step (UseAxiosAbort.Settle id rep) w)
  = UseAxiosAbort.st w.
Proof.
  intros Hend. simpl.
  pose proof (useAxiosAbort_settle_cases id rep w) as H.
  destruct (take_request id (pending (UseAxiosAbort.net w))) as [[r rest]|] eqn:E;
    rewrite H; [|done].
  destruct (outcome_cancelled (UseAxiosAbort.net w) id rep _ r rest
              (ends_cancelled_with_pending _ _ _ Hend) E) as (err & -> & Hc).
  simpl. by destruct err.
Qed.

Lemma all_cancelled_ends {K} (n : client K) id rep :
  all_cancelled n -> ends_cancelled n id rep.
Proof.
  intros Hall. right. intros r Hr _.
  by apply (proj1 (Forall_forall _ _) Hall).
Qed.

Lemma all_cancelled_with_pending {K} (n : client K) id r rest :
  take_request id (pending n) = Some (r, rest) ->
  all_cancelled n -> all_cancelled (with_pending rest n).
Proof.
  intros (_ & _ & Hsub & _)%take_request_Some Hall.
  apply Forall_forall. intros x Hx.
  apply (proj1 (Forall_forall _ _) Hall x). by apply Hsub.
Qed.

(** C7. When a request ends by cancellation, [useRequest] and [useAxios]
    (axios4) update neither [data] nor [error]; and whenever an event leaves
    an error in the error state that was not there before, that event is the
    settlement of a request by a failure that is not a cancellation. *)
Theorem cancellation_not_surfaced :
  (∀ w id rep,
     ends_cancelled (UseRequest.net w) id rep ->
     let w' := UseRequest.step (UseRequest.Settle id rep) w in
     UseRequest.data w' = UseRequest.data w
     ∧ UseRequest.error w' = UseRequest.error w)
  ∧ (∀ w id rep,
       ends_cancelled (UseAxiosAbort.net w) id rep ->
       let w' := UseAxiosAbort.step (UseAxiosAbort.Settle id rep) w in
       UseAxiosAbort.data (UseAxiosAbort.st w') = UseAxiosAbort.data (UseAxiosAbort.st w)
       ∧ UseAxiosAbort.error (UseAxiosAbort.st w')
         = UseAxiosAbort.error (UseAxiosAbort.st w))
  ∧ (∀ ev w e,
       UseRequest.error (UseRequest.step ev w) = Some e ->
       UseRequest.error w = Some e
       ∨ ∃ id err, ev = UseRequest.Settle id (Fail err) ∧ isCancel err = false)
  ∧ (∀ ev w e,
       UseAxiosAbort.error (UseAxiosAbort.st (UseAxiosAbort.step ev w)) = Some e ->
       UseAxiosAbort.error (UseAxiosAbort.st w) = Some e
       ∨ ∃ id err, ev = UseAxiosAbort.Settle id (Fail err) ∧ isCancel err = false).
Proof.
  split_and!.
  - intros w id rep Hend. by apply useRequest_cancelled_frame.
  - intros w id rep Hend. intros w'. unfold w'.
    by rewrite useAxiosAbort_cancelled_frame.
  - intros ev w e. destruct ev as [p rc|p|p|id rep|]; simpl.
    + unfold UseRequest.run.
      by destruct (UseRequest.abortControllerRef w).
    + unfold UseRequest.refresh, UseRequest.run.
      by destruct (UseRequest.abortControllerRef w).
    + done.
    + pose proof (useRequest_settle_cases id rep w) as H.
      destruct (take_request id (pending (UseRequest.net w))) as [[r rest]|];
        rewrite H; [|by left].
      unfold outcome. destruct (is_aborted _ _); [by left|].
      destruct rep as [d|err]; simpl.
      * destruct (UseRequest.onSuccess (closure r)); by left.
      * destruct (isCancel err) eqn:Hc; [by left|]. intros _. right. eauto.
    + unfold UseRequest.unmount.
      destruct (UseRequest.abortControllerRef w); by left.
  - intros ev w e. destruct ev as [p|p cfg| |id rep|]; simpl.
    + unfold UseAxiosAbort.rerender, UseAxiosAbort.run_effect. simpl.
      case_bool_decide; [by left|].
      destruct (UseAxiosAbort.immediate p); by left.
    + by left.
    + by left.
    + pose proof (useAxiosAbort_settle_cases id rep w) as H.
      destruct (take_request id (pending (UseAxiosAbort.net w))) as [[r rest]|];
        rewrite H; [|by left].
      unfold outcome. destruct (is_aborted _ _); [by left|].
      destruct rep as [d|err]; simpl; [done|].
      destruct err; simpl; eauto.
    + by left.
Qed.

Lemma cancellation_not_surfaced_witness :
  let w := UseRequest.unmount
             (UseRequest.run sample_request_props None
                (UseRequest.mount sample_request_props)) in
  UseRequest.error (UseRequest.step (UseRequest.Settle 0 (Ok (JNum 1))) w)
  = UseRequest.error w.
Proof.
  intros w.
  refine (proj2 (proj1 cancellation_not_surfaced w 0%nat (Ok (JNum 1)) _)).
  right. intros r Hr _.
  apply list_elem_of_singleton in Hr. subst r. reflexivity.
Defined.

(** ** Unmounting *)

Lemma useRequest_unmount_all_cancelled w :
  useRequest_inv w -> all_cancelled (UseRequest.net (UseRequest.unmount w)).
Proof.
  intros Hinv. apply Forall_forall. intros r Hr. unfold UseRequest.unmount in *.
  destruct (UseRequest.abortControllerRef w) as [c|] eqn:Href; simpl in *;
    destruct (Hinv r Hr) as [_ [Ha|Hs]]; try done; try congruence.
  - apply is_aborted_abort. by right.
  - apply is_aborted_abort. left. congruence.
Qed.

Lemma useRequest_settlements_cancelled ss w :
  all_cancelled (UseRequest.net w) ->
  let w' := UseRequest.exec (useRequest_settlements ss) w in
  UseRequest.data w' = UseRequest.data w ∧ UseRequest.error w' = UseRequest.error w.
Proof.
  revert w. induction ss as [|[id rep] ss IH]; intros w Hall; [done|].
  simpl.
  destruct (useRequest_cancelled_frame w id rep (all_cancelled_ends _ _ _ Hall))
    as [Hd He].
  simpl in Hd, He. rewrite <- Hd, <- He. apply IH.
  destruct (useRequest_settle_net id rep w)
    as [(r0 & rest & Htake & -> & _)|[_ ->]]; [|done].
  by apply (all_cancelled_with_pending _ id r0).
Qed.

Lemma useAxiosAbort_unmount_all_cancelled w :
  useAxiosAbort_inv w ->
  all_cancelled (UseAxiosAbort.net (UseAxiosAbort.unmount w)).
Proof.
  intros [Hsig Heff]. apply Forall_forall. intros r Hr. simpl in *.
  rewrite (Hsig r Hr). apply is_aborted_abort.
  destruct Heff as [->|Ha]; [by left|by right].
Qed.

Lemma useAxiosAbort_settlements_cancelled ss w :
  all_cancelled (UseAxiosAbort.net w) ->
  UseAxiosAbort.st (UseAxiosAbort.exec (useAxiosAbort_settlements ss) w)
  = UseAxiosAbort.st w.
Proof.
  revert w. induction ss as [|[id rep] ss IH]; intros w Hall; [done|].
  simpl.
  rewrite <- (useAxiosAbort_cancelled_frame w id rep (all_cancelled_ends _ _ _ Hall)).
  apply IH. simpl.
  destruct (useAxiosAbort_settle_frame id rep w)
    as [(r0 & rest & Htake & -> & _)|[_ ->]]; [|done].
  by apply (all_cancelled_with_pending _ id r0).
Qed.

(** C6 (as amended). Unmounting triggers the signal of every request of the
    instance that is still in flight. Over a client that passes the hook's
    signal on, however and in whatever order these requests settle
    afterwards, [useRequest] updates neither [data] nor [error], and
    [useAxios] (axios4) updates no state at all. Over an instance that
    replaces [config.signal] (the one of part_006), the abort of
    [useRequest]'s cleanup reaches no listener: a response that arrives after
    the unmount is still written to [data], and a failure to [error]. *)
Theorem unmount_cancels_in_flight
    (p0 : UseRequest.props) (evs : list UseRequest.event)
    (q0 : UseAxiosAbort.props) (evs_a : list UseAxiosAbort.event)
    (ss : list (nat * reply)) :
  (let w1 := UseRequest.unmount
               (UseRequest.exec_via PassesSignal evs (UseRequest.mount p0)) in
   let w2 := UseRequest.exec_via PassesSignal (useRequest_settlements ss) w1 in
   all_cancelled (UseRequest.net w1)
   ∧ UseRequest.data w2 = UseRequest.data w1
   ∧ UseRequest.error w2 = UseRequest.error w1)
  ∧ (let w1 := UseRequest.unmount
                 (UseRequest.exec_via ReplacesSignal evs (UseRequest.mount p0)) in
     all_cancelled (UseRequest.net w1)
     ∧ ∀ r, r ∈ pending (UseRequest.net w1) ->
            (∀ d, UseRequest.data
                    (UseRequest.step_via ReplacesSignal
                       (UseRequest.Settle (rid r) (Ok d)) w1) = d)
            ∧ (∀ err, isCancel err = false ->
                 UseRequest.error
                   (UseRequest.step_via ReplacesSignal
                      (UseRequest.Settle (rid r) (Fail err)) w1)
                 = Some (stored_error err)))
  ∧ (let a1 := UseAxiosAbort.unmount
                 (UseAxiosAbort.exec evs_a (UseAxiosAbort.mount q0)) in
     let a2 := UseAxiosAbort.exec (useAxiosAbort_settlements ss) a1 in
     all_cancelled (UseAxiosAbort.net a1)
     ∧ UseAxiosAbort.st a2 = UseAxiosAbort.st a1).
Proof.
  split_and!.
  - intros w1 w2. subst w2 w1. rewrite !useRequest_exec_via_passes.
    assert (Hall : all_cancelled
                     (UseRequest.net
                        (UseRequest.unmount
                           (UseRequest.exec evs (UseRequest.mount p0))))).
    { apply useRequest_unmount_all_cancelled, useRequest_inv_exec,
        useRequest_inv_mount. }
    split; [done|]. by apply useRequest_settlements_cancelled.
  - intros w1. split.
    + apply useRequest_unmount_all_cancelled, useRequest_inv_exec_via,
        useRequest_inv_mount.
    + intros r Hr. destruct (useRequest_settle_replaced r w1 Hr) as [Hok Hfail].
      split.
      * intros d. apply Hok.
      * intros err Hc. by apply Hfail.
  - intros a1 a2.
    assert (Hall : all_cancelled (UseAxiosAbort.net a1)).
    { apply useAxiosAbort_unmount_all_cancelled, useAxiosAbort_inv_exec,
        useAxiosAbort_inv_mount. }
    split; [done|]. by apply useAxiosAbort_settlements_cancelled.
Qed.

Lemma unmount_cancels_in_flight_witness :
  let w1 := UseRequest.unmount
              (UseRequest.run sample_request_props None
                 (UseRequest.mount sample_request_props)) in
  is_aborted 0 (UseRequest.net w1) = true
  ∧ UseRequest.data
      (UseRequest.step_via ReplacesSignal
         (UseRequest.Settle 0 (Ok (JStr "late"))) w1)
    = JStr "late".
Proof.
  intros w1.
  destruct (unmount_cancels_in_flight
              sample_request_props [UseRequest.Run sample_request_props None]
              sample_abort_props [] []) as (_ & [Hall H] & _).
  split.
  - by apply Forall_inv in Hall.
  - apply (proj1 (H (Request 0 0 (UseRequest.config sample_request_props)
                             sample_request_props) ltac:(by left)) (JStr "late")).
Defined.

(** [useRequest] is unmounted with a request in flight; the request settles
    and [loading] goes from [true] to [false]. *)
Lemma unmount_quiet_counterexample :
  ¬ useRequest_unmount_quiet [(0%nat, Ok (JNum 1))]
      (UseRequest.run sample_request_props None
         (UseRequest.mount sample_request_props)).
Proof. intros (_ & _ & H). vm_compute in H. done. Qed.

(** ** The loading flag *)

Lemma useRequest_run_resume_loading p res w :
  UseRequest.loading (fst (UseRequest.run_resume p res w)) = false.
Proof.
  unfold UseRequest.run_resume.
  destruct res as [d|err]; [|destruct (isCancel err)];
    repeat match goal with |- context [if ?b then _ else _] => destruct b end;
    done.
Qed.

Lemma useRequest_seq_inv_run p rc w :
  pending (UseRequest.net w) = [] -> useRequest_seq_inv (UseRequest.run p rc w).
Proof.
  intros Hp. unfold useRequest_seq_inv, loading_iff_outstanding, UseRequest.run.
  destruct (UseRequest.abortControllerRef w); simpl; rewrite Hp; simpl;
    (split; [lia|done]).
Qed.

Lemma useRequest_seq_inv_step ev evs w :
  useRequest_seq_inv w ->
  UseRequest.sequential (ev :: evs) w = true ->
  useRequest_seq_inv (UseRequest.step ev w).
Proof.
  intros [Hlen Hiff] Hseq. simpl in Hseq.
  apply andb_true_iff in Hseq as [Hguard _].
  destruct ev as [p rc|p|p|id rep|]; simpl.
  - apply bool_decide_eq_true in Hguard. by apply useRequest_seq_inv_run.
  - apply bool_decide_eq_true in Hguard. by apply useRequest_seq_inv_run.
  - apply bool_decide_eq_true in Hguard.
    unfold useRequest_seq_inv, loading_iff_outstanding. simpl.
    rewrite Hguard. simpl. split; [lia|done].
  - pose proof (useRequest_settle_cases id rep w) as H.
    destruct (take_request id (pending (UseRequest.net w))) as [[r rest]|] eqn:E;
      rewrite H; [|done].
    apply take_request_Some in E as (_ & _ & _ & Hl).
    assert (rest = []) as -> by (destruct rest; [done|simpl in Hl; lia]).
    cbv zeta.
    match goal with |- context [UseRequest.run_resume ?p ?o ?w'] =>
      pose proof (useRequest_run_resume_loading p o w') as Hload;
      pose proof (useRequest_run_resume_net p o w') as [Hn _];
      destruct (UseRequest.run_resume p o w') as [w'' s] end.
    simpl in *. unfold useRequest_seq_inv, loading_iff_outstanding.
    rewrite Hn, Hload. simpl. split; [lia|done].
  - unfold UseRequest.unmount.
    by destruct (UseRequest.abortControllerRef w).
Qed.

Lemma useRequest_seq_inv_exec evs w :
  useRequest_seq_inv w ->
  UseRequest.sequential evs w = true ->
  useRequest_seq_inv (UseRequest.exec evs w).
Proof.
  revert w. induction evs as [|ev evs IH]; intros w Hw Hseq; [done|].
  simpl. apply IH; [by apply (useRequest_seq_inv_step ev evs)|].
  simpl in Hseq. by apply andb_true_iff in Hseq as [_ ?].
Qed.

Lemma useAxiosAbort_seq_inv_fetchData cfg w :
  is_aborted UseAxiosAbort.fetch_controller (UseAxiosAbort.net w) = false ->
  pending (UseAxiosAbort.net w) = [] ->
  useAxiosAbort_seq_inv (UseAxiosAbort.fetchData cfg w).
Proof.
  intros Hab Hp.
  unfold useAxiosAbort_seq_inv, loading_iff_outstanding. simpl. rewrite Hp. simpl.
  split_and!; [done| |lia|done].
  by intros r ->%list_elem_of_singleton.
Qed.

Lemma useAxiosAbort_seq_inv_mount p : useAxiosAbort_seq_inv (UseAxiosAbort.mount p).
Proof.
  unfold UseAxiosAbort.mount, UseAxiosAbort.run_effect. simpl.
  destruct (UseAxiosAbort.immediate p) eqn:Hi.
  - by apply useAxiosAbort_seq_inv_fetchData.
  - unfold useAxiosAbort_seq_inv, loading_iff_outstanding. simpl.
    split_and!; [done|by intros r ?%elem_of_nil|lia|done].
Qed.

Lemma useAxiosAbort_seq_inv_step ev evs w :
  useAxiosAbort_seq_inv w ->
  UseAxiosAbort.sequential (ev :: evs) w = true ->
  useAxiosAbort_seq_inv (UseAxiosAbort.step ev w).
Proof.
  intros Hinv Hseq. simpl in Hseq.
  apply andb_true_iff in Hseq as [Hguard _].
  destruct ev as [p|p cfg| |id rep|]; simpl; try done.
  - unfold UseAxiosAbort.rerender. simpl. rewrite Hguard. done.
  - apply bool_decide_eq_true in Hguard.
    apply useAxiosAbort_seq_inv_fetchData; [apply Hinv|done].
  - destruct Hinv as (Hab & Hsig & Hlen & Hiff).
    pose proof (useAxiosAbort_settle_cases id rep w) as H.
    destruct (take_request id (pending (UseAxiosAbort.net w))) as [[r rest]|] eqn:E;
      rewrite H; [|done].
    apply take_request_Some in E as (Hr & _ & _ & Hl).
    assert (rest = []) as -> by (destruct rest; [done|simpl in Hl; lia]).
    unfold outcome. rewrite (Hsig r Hr), Hab.
    unfold useAxiosAbort_seq_inv, loading_iff_outstanding.
    destruct rep as [d|err]; simpl.
    + split_and!; [done|by intros ? ?%elem_of_nil|lia|done].
    + destruct err; try done; simpl;
        (split_and!; [done|by intros ? ?%elem_of_nil|lia|done]).
Qed.

Lemma useAxiosAbort_seq_inv_exec evs w :
  useAxiosAbort_seq_inv w ->
  UseAxiosAbort.sequential evs w = true ->
  useAxiosAbort_seq_inv (UseAxiosAbort.exec evs w).
Proof.
  revert w. induction evs as [|ev evs IH]; intros w Hw Hseq; [done|].
  simpl. apply IH; [by apply (useAxiosAbort_seq_inv_step ev evs)|].
  simpl in Hseq. by apply andb_true_iff in Hseq as [_ ?].
Qed.

(** C8 (as amended). As long as the requests of an instance do not overlap,
    [loading] is true exactly while a request is outstanding: for
    [useRequest] started in manual mode and not reset under a request in
    flight, and for [useAxios] (axios4) as long as nothing is cancelled. In
    [useAxios] (axios4) the settlement of a cancelled request leaves
    [loading] as it was. *)
Theorem loading_while_outstanding :
  (∀ p0 evs,
     UseRequest.manual p0 = true ->
     UseRequest.sequential evs (UseRequest.mount p0) = true ->
     let w := UseRequest.exec evs (UseRequest.mount p0) in
     loading_iff_outstanding (UseRequest.loading w) (UseRequest.net w))
  ∧ (∀ q0 evs,
       UseAxiosAbort.sequential evs (UseAxiosAbort.mount q0) = true ->
       let w := UseAxiosAbort.exec evs (UseAxiosAbort.mount q0) in
       loading_iff_outstanding (UseAxiosAbort.loading (UseAxiosAbort.st w))
                               (UseAxiosAbort.net w))
  ∧ (∀ w id rep,
       ends_cancelled (UseAxiosAbort.net w) id rep ->
       UseAxiosAbort.loading
         (UseAxiosAbort.st (UseAxiosAbort.step (UseAxiosAbort.Settle id rep) w))
       = UseAxiosAbort.loading (UseAxiosAbort.st w)).
Proof.
  split_and!.
  - intros p0 evs Hm Hseq w.
    apply (useRequest_seq_inv_exec evs (UseRequest.mount p0)); [|done].
    unfold useRequest_seq_inv, loading_iff_outstanding, UseRequest.mount.
    simpl. rewrite Hm. simpl. split; [lia|done].
  - intros q0 evs Hseq w.
    apply (useAxiosAbort_seq_inv_exec evs (UseAxiosAbort.mount q0)); [|done].
    apply useAxiosAbort_seq_inv_mount.
  - intros w id rep Hend. by rewrite useAxiosAbort_cancelled_frame.
Qed.

Lemma loading_while_outstanding_witness :
  let w := UseRequest.exec
             [ UseRequest.Run sample_request_props None;
               UseRequest.Settle 0 (Fail (AxiosError (BadStatus 404) "Not Found"));
               UseRequest.Refresh sample_request_props ]
             (UseRequest.mount sample_request_props) in
  loading_iff_outstanding (UseRequest.loading w) (UseRequest.net w).
Proof.
  apply (proj1 loading_while_outstanding sample_request_props); reflexivity.
Defined.

(** [useAxios] (axios4): a request is cancelled by the unmount and settles,
    and [loading] stays on with nothing in flight; two requests overlap, the
    first succeeds, and [loading] is off under the second. *)
Lemma loading_iff_outstanding_counterexample :
  (let w := UseAxiosAbort.exec
              [ UseAxiosAbort.Refetch sample_abort_props None;
                UseAxiosAbort.Unmount;
                UseAxiosAbort.Settle 0 (Ok (JNum 1)) ]
              (UseAxiosAbort.mount sample_abort_props) in
   ¬ loading_iff_outstanding (UseAxiosAbort.loading (UseAxiosAbort.st w))
                             (UseAxiosAbort.net w))
  ∧ (let w := UseAxiosAbort.exec
                [ UseAxiosAbort.Refetch sample_abort_props None;
                  UseAxiosAbort.Refetch sample_abort_props None;
                  UseAxiosAbort.Settle 0 (Ok (JNum 1)) ]
                (UseAxiosAbort.mount sample_abort_props) in
     ¬ loading_iff_outstanding (UseAxiosAbort.loading (UseAxiosAbort.st w))
                               (UseAxiosAbort.net w)).
Proof.
  split.
  - intros w [H _]. vm_compute in H. by specialize (H eq_refl).
  - intros w [_ H]. vm_compute in H. by specialize (H ltac:(done)).
Qed.

(** [useRequest] with the default options starts with [loading] on although
    mounting sends nothing; the flag stays on until a first [run]. *)
Remark useRequest_default_mount_loading (cfg : obj) :
  let w := UseRequest.mount (UseRequest.Props cfg false false false JNull) in
  UseRequest.loading w = true ∧ pending (UseRequest.net w) = []
  ∧ issued (UseRequest.net w) = 0%nat.
Proof. done. Qed.

(** ** The cache *)

Section RetryHookFacts.
Context {entry : Type}.
Variable cache_hit : Z -> UseAxiosRetry.props -> gmap string entry -> option jsval.
Variable cache_entry : jsval -> Z -> entry.

Abbreviation fetchData := (UseAxiosRetry.fetchData entry cache_hit).
Abbreviation fetchData_resume := (UseAxiosRetry.fetchData_resume entry cache_entry).
Abbreviation settle := (UseAxiosRetry.settle entry cache_entry).
Abbreviation fire_timer := (UseAxiosRetry.fire_timer entry cache_hit).
Abbreviation fail_all := (UseAxiosRetry.fail_all entry cache_hit cache_entry).

Lemma retry_finally_frame p (w : UseAxiosRetry.world entry) :
  let w' := UseAxiosRetry.finally entry p w in
  UseAxiosRetry.response w' = UseAxiosRetry.response w
  ∧ UseAxiosRetry.error w' = UseAxiosRetry.error w
  ∧ UseAxiosRetry.cacheRef w' = UseAxiosRetry.cacheRef w
  ∧ UseAxiosRetry.retryCountRef w' = UseAxiosRetry.retryCountRef w
  ∧ UseAxiosRetry.net w' = UseAxiosRetry.net w
  ∧ UseAxiosRetry.timers w' = UseAxiosRetry.timers w
  ∧ (UseAxiosRetry.loading w = false -> UseAxiosRetry.loading w' = false).
Proof. unfold UseAxiosRetry.finally. by destruct (_ <=? _). Qed.

Lemma retry_fetchData_hit p now (w : UseAxiosRetry.world entry) d :
  cache_hit now p (UseAxiosRetry.cacheRef w) = Some d ->
  let w' := fetchData p now w in
  UseAxiosRetry.response w' = d
  ∧ UseAxiosRetry.loading w' = false
  ∧ UseAxiosRetry.error w' = UseAxiosRetry.error w
  ∧ UseAxiosRetry.net w' = UseAxiosRetry.net w
  ∧ UseAxiosRetry.cacheRef w' = UseAxiosRetry.cacheRef w.
Proof.
  intros Hhit. unfold UseAxiosRetry.fetchData. rewrite Hhit.
  match goal with |- context [UseAxiosRetry.finally entry p ?w0] =>
    destruct (retry_finally_frame p w0) as (Hr & He & Hc & _ & Hn & _ & Hl) end.
  cbv zeta. rewrite Hr, He, Hc, Hn, Hl; done.
Qed.

Lemma retry_fetchData_miss p now (w : UseAxiosRetry.world entry) :
  cache_hit now p (UseAxiosRetry.cacheRef w) = None ->
  fetchData p now w
  = UseAxiosRetry.set_net entry
      (dispatch UseAxiosRetry.cancelTokenSourceRef
                (UseAxiosRetry.request_config p) p (UseAxiosRetry.net w)) w.
Proof. intros Hmiss. unfold UseAxiosRetry.fetchData. by rewrite Hmiss. Qed.

(** ** Retries *)

Lemma retry_fail_all_idle fuel err now (w : UseAxiosRetry.world entry) :
  pending (UseAxiosRetry.net w) = [] -> UseAxiosRetry.timers w = [] ->
  fail_all fuel err now w = w.
Proof. intros Hp Ht. destruct fuel; simpl; [done|]. by rewrite Hp, Ht. Qed.

Lemma retry_settle_single r rep now (w : UseAxiosRetry.world entry) :
  pending (UseAxiosRetry.net w) = [r] ->
  is_aborted (signal r) (UseAxiosRetry.net w) = false ->
  settle (rid r) rep now w
  = fetchData_resume (closure r) now rep
      (UseAxiosRetry.set_net entry (with_pending [] (UseAxiosRetry.net w)) w).
Proof.
  intros Hp Hab. unfold UseAxiosRetry.settle. rewrite Hp. simpl.
  rewrite bool_decide_true by done. unfold outcome.
  change (is_aborted (signal r) _) with (is_aborted (signal r) (UseAxiosRetry.net w)).
  by rewrite Hab.
Qed.

(** The last attempt fails: the error is stored, [loading] goes off, nothing
    is left to do. *)
Lemma retry_last_attempt p err now (w : UseAxiosRetry.world entry) :
  isCancel err = false ->
  attempt_in_flight cache_hit p now (UseAxiosRetry.retry p) w ->
  ∀ fuel, (1 <= fuel)%nat ->
    let w' := fail_all fuel err now w in
    issued (UseAxiosRetry.net w') = issued (UseAxiosRetry.net w)
    ∧ pending (UseAxiosRetry.net w') = []
    ∧ UseAxiosRetry.timers w' = []
    ∧ UseAxiosRetry.retryCountRef w' = UseAxiosRetry.retry p
    ∧ UseAxiosRetry.error w' = retry_error_text err
    ∧ UseAxiosRetry.loading w' = false.
Proof.
  intros Hc ((id & cfg & Hp) & Ht & Hk & Hab & Hmiss) fuel Hfuel.
  destruct fuel as [|fuel]; [lia|]. simpl. rewrite Hp.
  rewrite (retry_settle_single _ (Fail err) now w Hp Hab). simpl.
  unfold UseAxiosRetry.fetchData_resume. rewrite Hc. simpl.
  rewrite Hk, Z.ltb_irrefl.
  unfold UseAxiosRetry.finally. simpl. rewrite Hk, Z.leb_refl.
  rewrite retry_fail_all_idle by done. simpl.
  by rewrite Hk.
Qed.

(** An attempt fails with retries left: the error is stored, the counter goes
    up, the timer fires, and the next attempt is in flight. *)
Lemma retry_next_attempt p err now k (w : UseAxiosRetry.world entry) :
  isCancel err = false ->
  k < UseAxiosRetry.retry p ->
  attempt_in_flight cache_hit p now k w ->
  ∃ r,
    let w1 := settle (rid r) (Fail err) now w in
    let w2 := fire_timer now w1 in
    pending (UseAxiosRetry.net w) = [r]
    ∧ pending (UseAxiosRetry.net w1) = []
    ∧ UseAxiosRetry.timers w1 ≠ []
    ∧ UseAxiosRetry.error w1 = retry_error_text err
    ∧ issued (UseAxiosRetry.net w2) = S (issued (UseAxiosRetry.net w))
    ∧ attempt_in_flight cache_hit p now (k + 1) w2.
Proof.
  intros Hc Hlt ((id & cfg & Hp) & Ht & Hk & Hab & Hmiss).
  eexists. cbv zeta. rewrite (retry_settle_single _ (Fail err) now w Hp Hab).
  simpl. unfold UseAxiosRetry.fetchData_resume. rewrite Hc. simpl.
  rewrite Hk. apply Z.ltb_lt in Hlt as Hlt'. rewrite Hlt'.
  unfold UseAxiosRetry.setTimeout. simpl. rewrite Ht. simpl.
  unfold UseAxiosRetry.finally. simpl.
  split; [done|].
  destruct (UseAxiosRetry.retry p <=? k + 1); simpl;
    (split; [done|]); (split; [done|]); (split; [done|]);
    unfold UseAxiosRetry.fire_timer; simpl;
    rewrite retry_fetchData_miss by done; simpl;
    (split; [done|]);
    (split_and!; [by eexists _, _|done|done|done|done]).
Qed.

Lemma retry_fail_all_attempts p err now (n : nat) :
  isCancel err = false ->
  ∀ k (w : UseAxiosRetry.world entry),
    k <= UseAxiosRetry.retry p ->
    Z.to_nat (UseAxiosRetry.retry p - k) = n ->
    attempt_in_flight cache_hit p now k w ->
    ∀ fuel, (2 * n + 1 <= fuel)%nat ->
      let w' := fail_all fuel err now w in
      issued (UseAxiosRetry.net w') = (issued (UseAxiosRetry.net w) + n)%nat
      ∧ pending (UseAxiosRetry.net w') = []
      ∧ UseAxiosRetry.timers w' = []
      ∧ UseAxiosRetry.retryCountRef w' = UseAxiosRetry.retry p
      ∧ UseAxiosRetry.error w' = retry_error_text err
      ∧ UseAxiosRetry.loading w' = false.
Proof.
  intros Hc. induction n as [|n IH]; intros k w Hle Hn Hin fuel Hfuel.
  - assert (k = UseAxiosRetry.retry p) as -> by lia.
    destruct (retry_last_attempt p err now w Hc Hin fuel) as (Hi & ?); [lia|].
    cbv zeta. rewrite Hi, Nat.add_0_r. done.
  - assert (Hlt : k < UseAxiosRetry.retry p) by lia.
    destruct (retry_next_attempt p err now k w Hc Hlt Hin)
      as (r & Hp & Hp1 & Ht1 & _ & Hi2 & Hin2).
    destruct fuel as [|[|fuel]]; [lia..|].
    assert (Heq : fail_all (S (S fuel)) err now w
                  = fail_all fuel err now
                      (fire_timer now (settle (rid r) (Fail err) now w))).
    { simpl. rewrite Hp, Hp1.
      by destruct (UseAxiosRetry.timers (settle (rid r) (Fail err) now w)). }
    cbv zeta. rewrite Heq.
    destruct (IH (k + 1) _ ltac:(lia) ltac:(lia) Hin2 fuel ltac:(lia))
      as (Hi & ? & ? & ? & ? & ?).
    rewrite Hi, Hi2. split_and!; [lia|done..].
Qed.

(** A call that starts with the counter at zero and whose attempts all fail
    makes [retry + 1] attempts. *)
Lemma retry_fresh_call_attempts p err now (w : UseAxiosRetry.world entry) fuel :
  isCancel err = false ->
  0 <= UseAxiosRetry.retry p ->
  fresh_call cache_hit p now w ->
  (2 * Z.to_nat (UseAxiosRetry.retry p) + 1 <= fuel)%nat ->
  let w0 := fetchData p now w in
  let w' := fail_all fuel err now w0 in
  issued (UseAxiosRetry.net w')
  = (issued (UseAxiosRetry.net w) + (Z.to_nat (UseAxiosRetry.retry p) + 1))%nat
  ∧ pending (UseAxiosRetry.net w') = []
  ∧ UseAxiosRetry.timers w' = []
  ∧ UseAxiosRetry.error w' = retry_error_text err
  ∧ UseAxiosRetry.loading w' = false.
Proof.
  intros Hc Hr (Hk & Hp & Ht & Hab & Hmiss) Hfuel w0 w'.
  assert (Hin : attempt_in_flight cache_hit p now 0 w0).
  { subst w0. rewrite retry_fetchData_miss by done.
    unfold attempt_in_flight. simpl. rewrite Hp. simpl.
    split_and!; [by eexists _, _|done..]. }
  assert (Hi0 : issued (UseAxiosRetry.net w0) = S (issued (UseAxiosRetry.net w))).
  { subst w0. by rewrite retry_fetchData_miss. }
  destruct (retry_fail_all_attempts p err now (Z.to_nat (UseAxiosRetry.retry p))
              Hc 0 w0 Hr ltac:(f_equal; lia) Hin fuel Hfuel)
    as (Hi & ? & ? & ? & ? & ?).
  subst w'. rewrite Hi, Hi0. split_and!; [lia|done..].
Qed.

(** Every failed attempt stores the error text at once. *)
Lemma retry_failure_sets_error p err now (w : UseAxiosRetry.world entry) :
  isCancel err = false ->
  UseAxiosRetry.error (fetchData_resume p now (Fail err) w) = retry_error_text err.
Proof.
  intros Hc. unfold UseAxiosRetry.fetchData_resume. rewrite Hc.
  match goal with |- context [UseAxiosRetry.finally entry p ?w0] =>
    destruct (retry_finally_frame p w0) as (_ & -> & _) end.
  by destruct (_ <? _).
Qed.

(** Nothing in the hook lowers the retry counter: what one call used up is
    not available to the next. *)
Remark retry_counter_never_reset ev (w : UseAxiosRetry.world entry) :
  UseAxiosRetry.retryCountRef w
  <= UseAxiosRetry.retryCountRef
       (UseAxiosRetry.step entry cache_hit cache_entry ev w).
Proof.
  assert (Hfetch : ∀ p now w0,
            UseAxiosRetry.retryCountRef (fetchData p now w0)
            = UseAxiosRetry.retryCountRef w0).
  { intros p now w0. unfold UseAxiosRetry.fetchData.
    destruct (cache_hit now p _); [|done].
    match goal with |- context [UseAxiosRetry.finally entry p ?w1] =>
      destruct (retry_finally_frame p w1) as (_ & _ & _ & -> & _) end.
    done. }
  destruct ev as [p now|id rep now|now| |]; simpl.
  - unfold UseAxiosRetry.run_effect. rewrite Hfetch.
    by destruct (UseAxiosRetry.effect_installed w).
  - unfold UseAxiosRetry.settle.
    destruct (take_request id _) as [[r rest]|]; [|done].
    unfold UseAxiosRetry.fetchData_resume.
    destruct (outcome _ r rep) as [d|err].
    + match goal with |- context [UseAxiosRetry.finally entry ?p ?w1] =>
        destruct (retry_finally_frame p w1) as (_ & _ & _ & -> & _) end.
      by destruct (UseAxiosRetry.cache (closure r)).
    + destruct (isCancel err);
        match goal with |- context [UseAxiosRetry.finally entry ?p ?w1] =>
          destruct (retry_finally_frame p w1) as (_ & _ & _ & -> & _) end;
        [done|]. simpl.
      destruct (_ <? _); simpl; lia.
  - unfold UseAxiosRetry.fire_timer.
    destruct (UseAxiosRetry.timers w) as [|[d p] rest]; [done|].
    by rewrite Hfetch.
  - done.
  - done.
Qed.

End RetryHookFacts.

Lemma part008_cache_hit_Some p now c e :
  UseAxiosRetry.cache p = true ->
  c !! UseAxiosRetry.url p = Some e ->
  now - Part008.timestamp e < UseAxiosRetry.cacheExpiry p ->
  Part008.cache_hit now p c = Some (Part008.data e).
Proof.
  intros Hc He Ht. unfold Part008.cache_hit. rewrite He, Hc.
  apply Z.ltb_lt in Ht. by rewrite Ht.
Qed.

Lemma part008_cache_hit_inv p now c d :
  Part008.cache_hit now p c = Some d ->
  UseAxiosRetry.cache p = true
  ∧ ∃ e, c !! UseAxiosRetry.url p = Some e
         ∧ now - Part008.timestamp e < UseAxiosRetry.cacheExpiry p
         ∧ d = Part008.data e.
Proof.
  unfold Part008.cache_hit.
  destruct (c !! UseAxiosRetry.url p) as [e|]; [|done].
  destruct (UseAxiosRetry.cache p); [|done]. simpl.
  destruct (_ <? _) eqn:Ht; [|done]. intros [= <-].
  apply Z.ltb_lt in Ht. eauto.
Qed.

Lemma part008_repeated_hits p d t0 ts (w : Part008.world) :
  UseAxiosRetry.cache p = true ->
  UseAxiosRetry.cacheRef w !! UseAxiosRetry.url p = Some (Part008.Entry d t0) ->
  UseAxiosRetry.response w = d ->
  Forall (fun t => t - t0 < UseAxiosRetry.cacheExpiry p) ts ->
  let w' := fold_left (fun w t => Part008.fetchData p t w) ts w in
  UseAxiosRetry.net w' = UseAxiosRetry.net w ∧ UseAxiosRetry.response w' = d.
Proof.
  intros Hc. revert w. induction ts as [|t ts IH]; intros w He Hr Hts; [done|].
  apply Forall_cons in Hts as [Ht Hts]. simpl.
  pose proof (part008_cache_hit_Some p t _ _ Hc He Ht) as Hhit.
  destruct (retry_fetchData_hit Part008.cache_hit p t w _ Hhit)
    as (Hr' & _ & _ & Hn' & Hc').
  unfold Part008.fetchData.
  destruct (IH (UseAxiosRetry.fetchData Part008.entry Part008.cache_hit p t w))
    as [Hn'' Hr'']; [by rewrite Hc'|done|done|].
  split; [by rewrite <- Hn'|done].
Qed.

Lemma cached_lookup_Some p now store k c :
  UseAxiosCached.truthy_key p = Some k ->
  store !! k = Some c ->
  now - UseAxiosCached.timestamp c < UseAxiosCached.cacheDuration p ->
  UseAxiosCached.cache_lookup p now store = Some c.
Proof.
  intros Hk Hc Ht. unfold UseAxiosCached.cache_lookup, UseAxiosCached.isCacheValid.
  rewrite Hk, Hc. apply Z.ltb_lt in Ht. by rewrite Ht.
Qed.

Lemma cached_lookup_inv p now store c :
  UseAxiosCached.cache_lookup p now store = Some c ->
  ∃ k, UseAxiosCached.truthy_key p = Some k ∧ store !! k = Some c
       ∧ now - UseAxiosCached.timestamp c < UseAxiosCached.cacheDuration p.
Proof.
  unfold UseAxiosCached.cache_lookup, UseAxiosCached.isCacheValid.
  destruct (UseAxiosCached.truthy_key p) as [k|]; [|done].
  destruct (store !! k) as [c'|] eqn:E; [|done].
  destruct (_ <? _) eqn:Ht; [|done]. intros [= <-].
  apply Z.ltb_lt in Ht. eauto.
Qed.

Lemma cached_execute_hit p now cfg w c :
  UseAxiosCached.cache_lookup p now (UseAxiosCached.cacheStore w) = Some c ->
  let w' := UseAxiosCached.execute p now cfg w in
  UseAxiosCached.data w' = UseAxiosCached.data_of c
  ∧ UseAxiosCached.loading w' = false
  ∧ UseAxiosCached.error w' = None
  ∧ UseAxiosCached.net w' = UseAxiosCached.net w
  ∧ UseAxiosCached.cacheStore w' = UseAxiosCached.cacheStore w.
Proof.
  intros Hhit. unfold UseAxiosCached.execute. simpl. rewrite Hhit.
  by destruct (UseAxiosCached.onSuccess p).
Qed.

Lemma cached_repeated_hits p k d t0 ts cfg (w : UseAxiosCached.world) :
  UseAxiosCached.truthy_key p = Some k ->
  UseAxiosCached.cacheStore w !! k = Some (UseAxiosCached.Cached d t0) ->
  UseAxiosCached.data w = d ->
  Forall (fun t => t - t0 < UseAxiosCached.cacheDuration p) ts ->
  let w' := fold_left (fun w t => UseAxiosCached.execute p t cfg w) ts w in
  UseAxiosCached.net w' = UseAxiosCached.net w ∧ UseAxiosCached.data w' = d.
Proof.
  intros Hk. revert w. induction ts as [|t ts IH]; intros w He Hd Hts; [done|].
  apply Forall_cons in Hts as [Ht Hts]. simpl.
  pose proof (cached_lookup_Some p t _ k _ Hk He Ht) as Hhit.
  destruct (cached_execute_hit p t cfg w _ Hhit) as (Hd' & _ & _ & Hn' & Hc').
  destruct (IH (UseAxiosCached.execute p t cfg w)) as [Hn'' Hd''];
    [by rewrite Hc'|done|done|].
  split; [by rewrite <- Hn'|done].
Qed.

(** C4 (as amended). With caching enabled and an entry for the key that has
    not expired, a call puts the cached value into the state, with [loading]
    off, and sends nothing; a call that sends a request is one whose cache
    test failed; and after a response was cached, repeated calls with the
    same configuration send nothing for as long as the entry has not
    expired. This holds for [fetchData] of part_008 (key: the url, enabled by
    [cache]) and for [execute] of part_010 (key and enabling: a non-empty
    [cacheKey]). The state a hit leaves is the resolved one in part_010,
    whose [execute] clears the error; [fetchData] of part_008 never clears
    the error, so there a hit leaves the error cell as it found it. *)
Theorem cache_hit_skips_network :
  (∀ p now (w : Part008.world) e,
     UseAxiosRetry.cache p = true ->
     UseAxiosRetry.cacheRef w !! UseAxiosRetry.url p = Some e ->
     now - Part008.timestamp e < UseAxiosRetry.cacheExpiry p ->
     let w' := Part008.fetchData p now w in
     UseAxiosRetry.response w' = Part008.data e
     ∧ UseAxiosRetry.loading w' = false
     ∧ UseAxiosRetry.error w' = UseAxiosRetry.error w
     ∧ UseAxiosRetry.net w' = UseAxiosRetry.net w)
  ∧ (∀ p now (w : Part008.world),
       UseAxiosRetry.net (Part008.fetchData p now w) ≠ UseAxiosRetry.net w ->
       ¬ (UseAxiosRetry.cache p = true
          ∧ ∃ e, UseAxiosRetry.cacheRef w !! UseAxiosRetry.url p = Some e
                 ∧ now - Part008.timestamp e < UseAxiosRetry.cacheExpiry p))
  ∧ (∀ p d t0 ts (w : Part008.world),
       UseAxiosRetry.cache p = true ->
       Forall (fun t => t - t0 < UseAxiosRetry.cacheExpiry p) ts ->
       let w1 := Part008.fetchData_resume p t0 (Ok d) w in
       let w2 := fold_left (fun w t => Part008.fetchData p t w) ts w1 in
       UseAxiosRetry.net w2 = UseAxiosRetry.net w1
       ∧ UseAxiosRetry.response w2 = d)
  ∧ (∀ p now cfg w k c,
       UseAxiosCached.truthy_key p = Some k ->
       UseAxiosCached.cacheStore w !! k = Some c ->
       now - UseAxiosCached.timestamp c < UseAxiosCached.cacheDuration p ->
       let w' := UseAxiosCached.execute p now cfg w in
       UseAxiosCached.data w' = UseAxiosCached.data_of c
       ∧ UseAxiosCached.loading w' = false
       ∧ UseAxiosCached.error w' = None
       ∧ UseAxiosCached.net w' = UseAxiosCached.net w)
  ∧ (∀ p now cfg w,
       UseAxiosCached.net (UseAxiosCached.execute p now cfg w)
       ≠ UseAxiosCached.net w ->
       ¬ ∃ k c, UseAxiosCached.truthy_key p = Some k
                ∧ UseAxiosCached.cacheStore w !! k = Some c
                ∧ now - UseAxiosCached.timestamp c < UseAxiosCached.cacheDuration p)
  ∧ (∀ p k d t0 ts cfg w,
       UseAxiosCached.truthy_key p = Some k ->
       Forall (fun t => t - t0 < UseAxiosCached.cacheDuration p) ts ->
       let w1 := UseAxiosCached.execute_fulfilled p t0 d w in
       let w2 := fold_left (fun w t => UseAxiosCached.execute p t cfg w) ts w1 in
       UseAxiosCached.net w2 = UseAxiosCached.net w1
       ∧ UseAxiosCached.data w2 = d).
Proof.
  split_and!.
  - intros p now w e Hc He Ht.
    pose proof (part008_cache_hit_Some p now _ _ Hc He Ht) as Hhit.
    destruct (retry_fetchData_hit Part008.cache_hit p now w _ Hhit)
      as (? & ? & ? & ? & _).
    done.
  - intros p now w Hnet (Hc & e & He & Ht). apply Hnet.
    pose proof (part008_cache_hit_Some p now _ _ Hc He Ht) as Hhit.
    by destruct (retry_fetchData_hit Part008.cache_hit p now w _ Hhit)
      as (_ & _ & _ & ? & _).
  - intros p d t0 ts w Hc Hts w1.
    apply (part008_repeated_hits p d t0); [done| | |done];
      subst w1; unfold Part008.fetchData_resume, UseAxiosRetry.fetchData_resume;
      rewrite Hc;
      match goal with |- context [UseAxiosRetry.finally _ p ?w0] =>
        destruct (retry_finally_frame p w0) as (Hr' & _ & Hc' & _) end;
      rewrite ?Hr', ?Hc'; simpl; by rewrite ?lookup_insert_eq.
  - intros p now cfg w k c Hk Hc Ht.
    pose proof (cached_lookup_Some p now _ k c Hk Hc Ht) as Hhit.
    destruct (cached_execute_hit p now cfg w c Hhit) as (? & ? & ? & ? & _).
    done.
  - intros p now cfg w Hnet (k & c & Hk & Hc & Ht). apply Hnet.
    pose proof (cached_lookup_Some p now _ k c Hk Hc Ht) as Hhit.
    by destruct (cached_execute_hit p now cfg w c Hhit) as (_ & _ & _ & ? & _).
  - intros p k d t0 ts cfg w Hk Hts w1.
    apply (cached_repeated_hits p k d t0); [done| | |done];
      subst w1; unfold UseAxiosCached.execute_fulfilled; rewrite Hk;
      destruct (UseAxiosCached.onSuccess p); simpl; by rewrite ?lookup_insert_eq.
Qed.

Lemma cache_hit_skips_network_witness :
  (let w1 := Part008.fetchData_resume sample_retry_props 1000 (Ok (JStr "post"))
               (Part008.fetchData sample_retry_props 0 Part008.init) in
   let w2 := fold_left (fun w t => Part008.fetchData sample_retry_props t w)
                       [2000; 30000; 60999] w1 in
   UseAxiosRetry.net w2 = UseAxiosRetry.net w1
   ∧ UseAxiosRetry.response w2 = JStr "post")
  ∧ (let w1 := UseAxiosCached.execute_fulfilled sample_cached_props 1000 (JStr "users")
                 (UseAxiosCached.execute sample_cached_props 0 None
                    (UseAxiosCached.init ∅)) in
     let w2 := fold_left (fun w t => UseAxiosCached.execute sample_cached_props t None w)
                         [1500; 30999] w1 in
     UseAxiosCached.net w2 = UseAxiosCached.net w1
     ∧ UseAxiosCached.data w2 = JStr "users").
Proof.
  split.
  - apply (proj1 (proj2 (proj2 cache_hit_skips_network))).
    + reflexivity.
    + repeat constructor.
  - apply (proj2 (proj2 (proj2 (proj2 (proj2 cache_hit_skips_network))))
             sample_cached_props "users").
    + reflexivity.
    + repeat constructor.
Defined.

(** C4, the claim as stated fails for part_008: the first attempt of the
    mount fails, the retry succeeds and is cached, and the effect runs again
    within the expiry time. The hit shows the cached response, with [loading]
    off and nothing sent, next to the error text of the failed attempt. *)
Lemma cache_hit_stale_error_counterexample :
  let p := sample_retry_props in
  let w := fold_left (fun w ev => Part008.step ev w)
             [UseAxiosRetry.Effect p 0;
              UseAxiosRetry.Settle 0 (Fail (AxiosError NetworkFailure "Network Error")) 100;
              UseAxiosRetry.Timer 1100;
              UseAxiosRetry.Settle 1 (Ok (JStr "post")) 1200]
             Part008.init in
  let w' := Part008.step (UseAxiosRetry.Effect p 2000) w in
  UseAxiosRetry.response w' = JStr "post"
  ∧ UseAxiosRetry.loading w' = false
  ∧ UseAxiosRetry.error w' = JStr "Network Error"
  ∧ issued (UseAxiosRetry.net w') = issued (UseAxiosRetry.net w)
  ∧ ¬ hit_resolved_as_stated p 2000 (UseAxiosRetry.cancel Part008.entry w).
Proof.
  intros p w w'. split_and!; try reflexivity.
  intros H.
  destruct (H (Part008.Entry (JStr "post") 1200) eq_refl eq_refl eq_refl)
    as (_ & _ & He & _).
  vm_compute in He. discriminate.
Qed.

(** ** Retries of part_007 and part_008 *)

(** C3 (as amended). A call configured with [retry = N], [N >= 0], that
    starts with the retry counter at zero and whose attempts all fail with
    errors other than cancellations makes exactly [N + 1] attempts, after
    which nothing is left in flight or scheduled and [loading] is off; every
    failed attempt, the first included, puts the error text into the error
    state at once; and nothing the hook does ever lowers the retry counter. *)
Theorem retry_attempts (err : thrown) (p : UseAxiosRetry.props) (now : Z)
    (fuel : nat) :
  isCancel err = false ->
  0 <= UseAxiosRetry.retry p ->
  (2 * Z.to_nat (UseAxiosRetry.retry p) + 1 <= fuel)%nat ->
  (∀ w : Part007.world,
     fresh_call Part007.cache_hit p now w ->
     let w' := Part007.fail_all fuel err now (Part007.fetchData p now w) in
     issued (UseAxiosRetry.net w')
     = (issued (UseAxiosRetry.net w) + (Z.to_nat (UseAxiosRetry.retry p) + 1))%nat
     ∧ pending (UseAxiosRetry.net w') = []
     ∧ UseAxiosRetry.timers w' = []
     ∧ UseAxiosRetry.error w' = retry_error_text err
     ∧ UseAxiosRetry.loading w' = false)
  ∧ (∀ w : Part008.world,
       fresh_call Part008.cache_hit p now w ->
       let w' := Part008.fail_all fuel err now (Part008.fetchData p now w) in
       issued (UseAxiosRetry.net w')
       = (issued (UseAxiosRetry.net w) + (Z.to_nat (UseAxiosRetry.retry p) + 1))%nat
       ∧ pending (UseAxiosRetry.net w') = []
       ∧ UseAxiosRetry.timers w' = []
       ∧ UseAxiosRetry.error w' = retry_error_text err
       ∧ UseAxiosRetry.loading w' = false)
  ∧ (∀ w : Part007.world,
       UseAxiosRetry.error (Part007.fetchData_resume p now (Fail err) w)
       = retry_error_text err)
  ∧ (∀ w : Part008.world,
       UseAxiosRetry.error (Part008.fetchData_resume p now (Fail err) w)
       = retry_error_text err)
  ∧ (∀ ev (w : Part007.world),
       UseAxiosRetry.retryCountRef w
       <= UseAxiosRetry.retryCountRef (Part007.step ev w))
  ∧ (∀ ev (w : Part008.world),
       UseAxiosRetry.retryCountRef w
       <= UseAxiosRetry.retryCountRef (Part008.step ev w)).
Proof.
  intros Hc Hr Hfuel. split_and!.
  - intros w Hw.
    by apply (retry_fresh_call_attempts Part007.cache_hit Part007.cache_entry).
  - intros w Hw.
    by apply (retry_fresh_call_attempts Part008.cache_hit Part008.cache_entry).
  - intros w. by apply retry_failure_sets_error.
  - intros w. by apply retry_failure_sets_error.
  - intros ev w. apply retry_counter_never_reset.
  - intros ev w. apply retry_counter_never_reset.
Qed.

Lemma retry_attempts_witness :
  let w' := Part007.fail_all 7 (AxiosError NetworkFailure "Network Error") 0
              (Part007.fetchData sample_retry_props 0 Part007.init) in
  issued (UseAxiosRetry.net w') = 4%nat
  ∧ pending (UseAxiosRetry.net w') = []
  ∧ UseAxiosRetry.timers w' = []
  ∧ UseAxiosRetry.error w' = JStr "Network Error"
  ∧ UseAxiosRetry.loading w' = false.
Proof.
  apply (proj1 (retry_attempts (AxiosError NetworkFailure "Network Error")
                  sample_retry_props 0 7 eq_refl ltac:(vm_compute; discriminate)
                  ltac:(vm_compute; lia))
           Part007.init).
  repeat split.
Defined.

(** part_007 with [retry = 3]. The first of the four attempts has failed, a
    retry is scheduled, and the error state is set already. And once the
    four attempts have failed, the effect starts the next call with the
    counter still at three. *)
Lemma error_only_after_last_counterexample :
  ¬ error_only_after_last
      (Part007.step
         (UseAxiosRetry.Settle 0 (Fail (AxiosError NetworkFailure "Network Error")) 0)
         (Part007.step (UseAxiosRetry.Effect sample_retry_props 0) Part007.init))
  ∧ ¬ counter_reset_at_call sample_retry_props 5000
        (Part007.fail_all 7 (AxiosError NetworkFailure "Network Error") 0
           (Part007.step (UseAxiosRetry.Effect sample_retry_props 0) Part007.init)).
Proof.
  split.
  - intros H. vm_compute in H. by specialize (H ltac:(done)).
  - intros H. vm_compute in H. done.
Qed.

(** * Further properties of the hooks *)

(** ** [useAxios] (axios4): a change of dependencies kills the signal *)

Lemma useAxiosAbort_dead_step ev w :
  useAxiosAbort_dead w ->
  let w' := UseAxiosAbort.step ev w in
  useAxiosAbort_dead w'
  ∧ UseAxiosAbort.data (UseAxiosAbort.st w') = UseAxiosAbort.data (UseAxiosAbort.st w)
  ∧ UseAxiosAbort.error (UseAxiosAbort.st w') = UseAxiosAbort.error (UseAxiosAbort.st w)
  ∧ (UseAxiosAbort.loading (UseAxiosAbort.st w) = true ->
     UseAxiosAbort.loading (UseAxiosAbort.st w') = true).
Proof.
  intros [Hinv Hab] w'.
  assert (Hinv' : useAxiosAbort_inv w') by by apply useAxiosAbort_inv_step.
  assert (Hab' : is_aborted UseAxiosAbort.fetch_controller (UseAxiosAbort.net w') = true).
  { subst w'. destruct ev as [p|p cfg| |id rep|]; simpl.
    - unfold UseAxiosAbort.rerender, UseAxiosAbort.run_effect. simpl.
      case_bool_decide; [done|].
      destruct (UseAxiosAbort.immediate p); simpl;
        apply is_aborted_abort; by right.
    - done.
    - apply is_aborted_abort. by right.
    - destruct (useAxiosAbort_settle_frame id rep w)
        as [(r0 & rest & _ & -> & _)|[_ ->]]; done.
    - apply is_aborted_abort. by right. }
  split; [done|].
  subst w'. destruct ev as [p|p cfg| |id rep|]; simpl.
  - unfold UseAxiosAbort.rerender, UseAxiosAbort.run_effect. simpl.
    case_bool_decide; [done|]. by destruct (UseAxiosAbort.immediate p).
  - done.
  - done.
  - rewrite (useAxiosAbort_settle_cancelled id rep w Hinv Hab). done.
  - done.
Qed.

Lemma useAxiosAbort_dead_exec evs w :
  useAxiosAbort_dead w ->
  let w' := UseAxiosAbort.exec evs w in
  useAxiosAbort_dead w'
  ∧ UseAxiosAbort.data (UseAxiosAbort.st w') = UseAxiosAbort.data (UseAxiosAbort.st w)
  ∧ UseAxiosAbort.error (UseAxiosAbort.st w') = UseAxiosAbort.error (UseAxiosAbort.st w)
  ∧ (UseAxiosAbort.loading (UseAxiosAbort.st w) = true ->
     UseAxiosAbort.loading (UseAxiosAbort.st w') = true).
Proof.
  revert w. induction evs as [|ev evs IH]; intros w Hw; [done|].
  simpl. destruct (useAxiosAbort_dead_step ev w Hw) as (Hd & Hda & He & Hl).
  destruct (IH _ Hd) as (Hd' & Hda' & He' & Hl').
  cbv zeta. rewrite Hda', He', Hda, He. split_and!; [done..|].
  intros H. by apply Hl', Hl.
Qed.

(** X1. [useAxios] (axios4): once [immediate] or [config.url] has changed
    between two renders, the cleanup has aborted the one signal [fetchData]
    ever uses. From then on every request of the instance ends cancelled:
    whatever happens, [data] and [error] never change again, and once
    [loading] is on (at once, when [immediate] is set) it stays on. *)
Theorem useAxiosAbort_dead_after_dependency_change
    (p0 : UseAxiosAbort.props) (evs : list UseAxiosAbort.event)
    (p : UseAxiosAbort.props) (evs' : list UseAxiosAbort.event) :
  let w0 := UseAxiosAbort.exec evs (UseAxiosAbort.mount p0) in
  UseAxiosAbort.deps p ≠ UseAxiosAbort.effect_deps w0 ->
  let w := UseAxiosAbort.rerender p w0 in
  let w' := UseAxiosAbort.exec evs' w in
  all_cancelled (UseAxiosAbort.net w')
  ∧ UseAxiosAbort.data (UseAxiosAbort.st w') = UseAxiosAbort.data (UseAxiosAbort.st w0)
  ∧ UseAxiosAbort.error (UseAxiosAbort.st w') = UseAxiosAbort.error (UseAxiosAbort.st w0)
  ∧ (UseAxiosAbort.immediate p = true ->
     UseAxiosAbort.loading (UseAxiosAbort.st w') = true)
  ∧ (UseAxiosAbort.loading (UseAxiosAbort.st w) = true ->
     UseAxiosAbort.loading (UseAxiosAbort.st w') = true).
Proof.
  intros w0 Hdeps w w'.
  assert (Hinv0 : useAxiosAbort_inv w0)
    by apply useAxiosAbort_inv_exec, useAxiosAbort_inv_mount.
  assert (Hdead : useAxiosAbort_dead w).
  { split; [by apply (useAxiosAbort_inv_step (UseAxiosAbort.Rerender p))|].
    subst w. unfold UseAxiosAbort.rerender, UseAxiosAbort.run_effect. simpl.
    rewrite bool_decide_false by done.
    destruct Hinv0 as [_ Heff].
    destruct (UseAxiosAbort.immediate p); simpl; apply is_aborted_abort;
      (destruct Heff as [->|?]; [by left|by right]). }
  assert (Hst : UseAxiosAbort.data (UseAxiosAbort.st w) = UseAxiosAbort.data (UseAxiosAbort.st w0)
                ∧ UseAxiosAbort.error (UseAxiosAbort.st w) = UseAxiosAbort.error (UseAxiosAbort.st w0)
                ∧ (UseAxiosAbort.immediate p = true ->
                   UseAxiosAbort.loading (UseAxiosAbort.st w) = true)).
  { subst w. unfold UseAxiosAbort.rerender, UseAxiosAbort.run_effect. simpl.
    rewrite bool_decide_false by done.
    by destruct (UseAxiosAbort.immediate p). }
  destruct Hst as (Hd0 & He0 & Hl0).
  destruct (useAxiosAbort_dead_exec evs' w Hdead) as ([Hinv' Hab'] & Hd & He & Hl).
  fold w' in Hinv', Hab', Hd, He, Hl.
  split_and!.
  - apply Forall_forall. intros r Hr. destruct Hinv' as [Hsig _].
    by rewrite (Hsig r Hr).
  - by rewrite Hd.
  - by rewrite He.
  - intros Hi. by apply Hl, Hl0.
  - done.
Qed.

Lemma useAxiosAbort_dead_after_dependency_change_witness :
  let w' := UseAxiosAbort.exec
              [ UseAxiosAbort.Rerender
                  (UseAxiosAbort.Props {[ "url" := JStr "/api/user/2" ]} true);
                UseAxiosAbort.Settle 0 (Ok (JNum 7));
                UseAxiosAbort.Refetch sample_abort_props None;
                UseAxiosAbort.Settle 1 (Ok (JNum 8)) ]
              (UseAxiosAbort.mount sample_abort_props) in
  UseAxiosAbort.data (UseAxiosAbort.st w') = JNull
  ∧ UseAxiosAbort.loading (UseAxiosAbort.st w') = true.
Proof.
  destruct (useAxiosAbort_dead_after_dependency_change
              sample_abort_props []
              (UseAxiosAbort.Props {[ "url" := JStr "/api/user/2" ]} true)
              [ UseAxiosAbort.Settle 0 (Ok (JNum 7));
                UseAxiosAbort.Refetch sample_abort_props None;
                UseAxiosAbort.Settle 1 (Ok (JNum 8)) ])
    as (_ & Hd & _ & Hl & _).
  - vm_compute. discriminate.
  - split; [exact Hd|]. apply Hl. reflexivity.
Defined.

(** ** [useAxios] (axios4): which controller [cancel] aborts *)

Lemma useAxiosAbort_controllers_step ev w :
  (1 <= controllers (UseAxiosAbort.net w))%nat ->
  (1 <= controllers (UseAxiosAbort.net (UseAxiosAbort.step ev w)))%nat.
Proof.
  intros H. destruct ev as [p|p cfg| |id rep|]; simpl; try done.
  - unfold UseAxiosAbort.rerender, UseAxiosAbort.run_effect. simpl.
    case_bool_decide; simpl; [lia|].
    destruct (UseAxiosAbort.immediate p); simpl; lia.
  - destruct (useAxiosAbort_settle_frame id rep w)
      as [(r0 & rest & _ & -> & _)|[_ ->]]; done.
Qed.

Lemma useAxiosAbort_controllers_exec evs w :
  (1 <= controllers (UseAxiosAbort.net w))%nat ->
  (1 <= controllers (UseAxiosAbort.net (UseAxiosAbort.exec evs w)))%nat.
Proof.
  revert w. induction evs as [|ev evs IH]; intros w Hw; [done|].
  simpl. by apply IH, useAxiosAbort_controllers_step.
Qed.

Lemma useAxiosAbort_controllers_mount p :
  (1 <= controllers (UseAxiosAbort.net (UseAxiosAbort.mount p)))%nat.
Proof.
  unfold UseAxiosAbort.mount, UseAxiosAbort.run_effect. simpl.
  destruct (UseAxiosAbort.immediate p); simpl; lia.
Qed.

Lemma useAxiosAbort_rerendered_rerender p w :
  (1 <= controllers (UseAxiosAbort.net w))%nat ->
  useAxiosAbort_rerendered (UseAxiosAbort.rerender p w).
Proof.
  intros H. unfold useAxiosAbort_rerendered, UseAxiosAbort.rerender,
    UseAxiosAbort.run_effect, UseAxiosAbort.fetch_controller. simpl.
  case_bool_decide; simpl; [split; lia|].
  destruct (UseAxiosAbort.immediate p); simpl; split; lia.
Qed.

Lemma useAxiosAbort_rerendered_step ev w :
  useAxiosAbort_rerendered w -> useAxiosAbort_rerendered (UseAxiosAbort.step ev w).
Proof.
  intros [Hc Hr]. destruct ev as [p|p cfg| |id rep|]; simpl; try done.
  - by apply useAxiosAbort_rerendered_rerender.
  - pose proof (useAxiosAbort_settle_cases id rep w) as H.
    destruct (take_request id (pending (UseAxiosAbort.net w))) as [[r rest]|];
      rewrite H; [|done]. cbv zeta.
    match goal with |- context [UseAxiosAbort.fetchData_resume ?o ?w'] =>
      pose proof (useAxiosAbort_resume_frame o w') as (Hn & _ & Hrc & _);
      destruct (UseAxiosAbort.fetchData_resume o w') as [w'' s] end.
    simpl in *. unfold useAxiosAbort_rerendered. by rewrite Hn, Hrc.
Qed.

Lemma useAxiosAbort_rerendered_exec evs w :
  useAxiosAbort_rerendered w -> useAxiosAbort_rerendered (UseAxiosAbort.exec evs w).
Proof.
  revert w. induction evs as [|ev evs IH]; intros w Hw; [done|].
  simpl. by apply IH, useAxiosAbort_rerendered_step.
Qed.

Lemma useAxiosAbort_first_render w evs :
  first_render_only evs = true ->
  UseAxiosAbort.render_controller (UseAxiosAbort.exec evs w)
  = UseAxiosAbort.render_controller w.
Proof.
  revert w. induction evs as [|ev evs IH]; intros w Hevs; [done|].
  simpl in Hevs. apply andb_true_iff in Hevs as [Hev Hevs].
  simpl. rewrite IH by done.
  destruct ev as [p|p cfg| |id rep|]; simpl; try done.
  pose proof (useAxiosAbort_settle_cases id rep w) as H.
  destruct (take_request id (pending (UseAxiosAbort.net w))) as [[r rest]|];
    rewrite H; [|done]. cbv zeta.
  match goal with |- context [UseAxiosAbort.fetchData_resume ?o ?w'] =>
    pose proof (useAxiosAbort_resume_frame o w') as (_ & _ & Hrc & _);
    destruct (UseAxiosAbort.fetchData_resume o w') as [w'' s] end.
  simpl in *. by rewrite Hrc.
Qed.

Lemma useAxiosAbort_resume_st res w1 w2 :
  UseAxiosAbort.st w1 = UseAxiosAbort.st w2 ->
  UseAxiosAbort.st (fst (UseAxiosAbort.fetchData_resume res w1))
  = UseAxiosAbort.st (fst (UseAxiosAbort.fetchData_resume res w2)).
Proof.
  intros H. unfold UseAxiosAbort.fetchData_resume.
  destruct res as [d|err]; [done|]. by destruct (negb _).
Qed.

(** X2. [useAxios] (axios4): the [cancel] the hook returns aborts the
    controller of the render it comes from, while requests carry the signal
    of the first render. When the component has not rendered again, [cancel]
    cancels every request in flight; after any re-render it cancels none of
    them, and every request settles exactly as it would have without the
    call. *)
Theorem useAxiosAbort_cancel_reach
    (p0 : UseAxiosAbort.props) (evs : list UseAxiosAbort.event) :
  (first_render_only evs = true ->
   all_cancelled
     (UseAxiosAbort.net
        (UseAxiosAbort.cancel (UseAxiosAbort.exec evs (UseAxiosAbort.mount p0)))))
  ∧ (∀ p evs',
       let w := UseAxiosAbort.exec evs'
                  (UseAxiosAbort.rerender p
                     (UseAxiosAbort.exec evs (UseAxiosAbort.mount p0))) in
       Forall
         (fun r =>
            is_aborted (signal r) (UseAxiosAbort.net (UseAxiosAbort.cancel w))
            = is_aborted (signal r) (UseAxiosAbort.net w))
         (pending (UseAxiosAbort.net w))
       ∧ ∀ id rep,
           UseAxiosAbort.st
             (UseAxiosAbort.step (UseAxiosAbort.Settle id rep) (UseAxiosAbort.cancel w))
           = UseAxiosAbort.st (UseAxiosAbort.step (UseAxiosAbort.Settle id rep) w)).
Proof.
  split.
  - intros Hfirst. set (w := UseAxiosAbort.exec evs _).
    assert (Hinv : useAxiosAbort_inv w)
      by apply useAxiosAbort_inv_exec, useAxiosAbort_inv_mount.
    assert (Hrc : UseAxiosAbort.render_controller w = UseAxiosAbort.fetch_controller).
    { subst w. rewrite useAxiosAbort_first_render by done.
      unfold UseAxiosAbort.mount, UseAxiosAbort.run_effect. simpl.
      by destruct (UseAxiosAbort.immediate p0). }
    apply Forall_forall. intros r Hr. simpl in *.
    destruct Hinv as [Hsig _]. rewrite (Hsig r Hr). apply is_aborted_abort.
    by left.
  - intros p evs' w.
    assert (Hinv : useAxiosAbort_inv w).
    { apply useAxiosAbort_inv_exec,
        (useAxiosAbort_inv_step (UseAxiosAbort.Rerender p)),
        useAxiosAbort_inv_exec, useAxiosAbort_inv_mount. }
    assert (Hre : useAxiosAbort_rerendered w).
    { apply useAxiosAbort_rerendered_exec, useAxiosAbort_rerendered_rerender,
        useAxiosAbort_controllers_exec, useAxiosAbort_controllers_mount. }
    destruct Hinv as [Hsig _]. destruct Hre as [_ Hne].
    assert (Hsame : is_aborted UseAxiosAbort.fetch_controller
                      (abort (UseAxiosAbort.render_controller w) (UseAxiosAbort.net w))
                    = is_aborted UseAxiosAbort.fetch_controller (UseAxiosAbort.net w)).
    { unfold is_aborted. simpl. apply bool_decide_ext.
      rewrite elem_of_cons. split; [|by right].
      intros [Heq|?]; [|done]. by destruct Hne. }
    split.
    + apply Forall_forall. intros r Hr. by rewrite (Hsig r Hr).
    + intros id rep. simpl.
      pose proof (useAxiosAbort_settle_cases id rep w) as H.
      pose proof (useAxiosAbort_settle_cases id rep (UseAxiosAbort.cancel w)) as H'.
      simpl in H'.
      destruct (take_request id (pending (UseAxiosAbort.net w))) as [[r rest]|] eqn:E;
        rewrite H, H'; [|done].
      apply take_request_Some in E as (Hr & _).
      unfold outcome. rewrite (Hsig r Hr), Hsame.
      destruct (is_aborted UseAxiosAbort.fetch_controller (UseAxiosAbort.net w));
        cbv zeta;
        match goal with
        | |- UseAxiosAbort.st (fst (let '(a, b) := UseAxiosAbort.fetchData_resume ?o ?w1 in _))
             = UseAxiosAbort.st (fst (let '(c, d) := UseAxiosAbort.fetchData_resume ?o ?w2 in _)) =>
            pose proof (useAxiosAbort_resume_st o w1 w2 eq_refl) as Hst;
            destruct (UseAxiosAbort.fetchData_resume o w1);
            destruct (UseAxiosAbort.fetchData_resume o w2)
        end; exact Hst.
Qed.

Lemma useAxiosAbort_cancel_reach_witness :
  all_cancelled
    (UseAxiosAbort.net
       (UseAxiosAbort.cancel
          (UseAxiosAbort.exec [UseAxiosAbort.Refetch sample_abort_props None]
             (UseAxiosAbort.mount sample_abort_props)))).
Proof.
  apply (proj1 (useAxiosAbort_cancel_reach sample_abort_props
                  [UseAxiosAbort.Refetch sample_abort_props None])).
  reflexivity.
Defined.

(** ** [useRequest]: the request that is not cancelled *)

Lemma take_request_Permutation {K} (id : nat) (l : list (request K)) r rest :
  take_request id l = Some (r, rest) -> l ≡ₚ r :: rest.
Proof.
  revert r rest. induction l as [|x l IH]; intros r rest; simpl; [done|].
  case_bool_decide as Hx.
  - by intros [= <- <-].
  - destruct (take_request id l) as [[r' t']|] eqn:E; [|done].
    intros [= <- <-]. rewrite (IH _ _ eq_refl). apply Permutation_swap.
Qed.

Lemma useRequest_live_inv_run p rc w :
  useRequest_inv w -> useRequest_live_inv w ->
  useRequest_live_inv (UseRequest.run p rc w).
Proof.
  intros Hinv (Hnd & Hlt & Hlive).
  assert (Hfresh : controllers (UseRequest.net w)
                   ∉ map signal (pending (UseRequest.net w))).
  { intros Hin. change (map ?f ?l) with (f <$> l) in Hin.
    apply list_elem_of_fmap in Hin as (r & Hr & Hin).
    specialize (Hlt r Hin). lia. }
  assert (Hnd' : ∀ cfg, NoDup (map signal
                   (pending (UseRequest.net w)
                    ++ [Request (issued (UseRequest.net w))
                                (controllers (UseRequest.net w)) cfg p]))).
  { intros cfg. rewrite map_app. simpl. apply NoDup_app. split_and!;
      [done| |apply NoDup_singleton].
    by intros x Hx ->%list_elem_of_singleton. }
  assert (Hlt' : ∀ cfg r,
            r ∈ pending (UseRequest.net w)
                ++ [Request (issued (UseRequest.net w))
                            (controllers (UseRequest.net w)) cfg p] ->
            (signal r < S (controllers (UseRequest.net w)))%nat).
  { intros cfg r [Hr|Hr%list_elem_of_singleton]%elem_of_app.
    - specialize (Hlt r Hr). lia.
    - subst r. simpl. lia. }
  unfold useRequest_live_inv, UseRequest.run.
  destruct (UseRequest.abortControllerRef w) as [c|] eqn:Href; simpl;
    (split_and!; [apply Hnd'|apply Hlt'|]);
    intros r Hr Hab;
    (apply elem_of_app in Hr as [Hr|Hr%list_elem_of_singleton]; [|by subst r]);
    exfalso; destruct (Hinv r Hr) as [_ [Ha|Hs]]; try congruence.
  - assert (is_aborted (signal r) (abort c (UseRequest.net w)) = true)
      by (apply is_aborted_abort; by right).
    unfold is_aborted in *. simpl in *. congruence.
  - assert (is_aborted (signal r) (abort c (UseRequest.net w)) = true)
      by (apply is_aborted_abort; left; congruence).
    unfold is_aborted in *. simpl in *. congruence.
  - unfold is_aborted in *. simpl in *. congruence.
Qed.

Lemma useRequest_run_resume_error p res w :
  UseRequest.error (fst (UseRequest.run_resume p res w)) = UseRequest.error w
  ∨ ∃ err, res = Fail err ∧ isCancel err = false.
Proof.
  unfold UseRequest.run_resume. destruct res as [d|err].
  - left. by destruct (UseRequest.onSuccess p).
  - destruct (isCancel err) eqn:Hc; [by left|]. right. eauto.
Qed.

Lemma useRequest_live_inv_step ev w :
  useRequest_inv w -> useRequest_live_inv w ->
  useRequest_live_inv (UseRequest.step ev w).
Proof.
  intros Hinv Hlive. destruct ev as [p rc|p|p|id rep|]; simpl.
  - by apply useRequest_live_inv_run.
  - by apply useRequest_live_inv_run.
  - destruct Hlive as (Hnd & Hlt & Hl). split_and!; [done..|].
    intros r Hr Hab. simpl in *. split; [done|]. by apply (Hl r).
  - destruct Hlive as (Hnd & Hlt & Hl).
    pose proof (useRequest_settle_cases id rep w) as H.
    destruct (take_request id (pending (UseRequest.net w))) as [[r0 rest]|] eqn:E;
      rewrite H; [|done].
    pose proof (take_request_Permutation _ _ _ _ E) as Hperm.
    pose proof (take_request_Some _ _ _ _ E) as (Hr0 & _ & Hsub & _).
    assert (Hnd0 : NoDup (signal r0 :: map signal rest)).
    { change (NoDup (map signal (r0 :: rest))). by rewrite <- Hperm. }
    apply NoDup_cons in Hnd0 as [Hnotin Hndrest].
    cbv zeta.
    match goal with |- context [UseRequest.run_resume ?p ?o ?w'] =>
      pose proof (useRequest_run_resume_net p o w') as [Hn Href];
      pose proof (useRequest_run_resume_error p o w') as Herr;
      destruct (UseRequest.run_resume p o w') as [w'' s] end.
    simpl in *. unfold useRequest_live_inv. rewrite Hn, Href. simpl.
    split_and!; [done|by intros r Hr; apply Hlt, Hsub|].
    intros r Hr Hab. destruct (Hl r (Hsub r Hr) Hab) as [He Hrf].
    split; [|done].
    destruct Herr as [->|(err & Hout & Hc)]; [done|]. exfalso.
    unfold outcome in Hout.
    destruct (is_aborted (signal r0) (UseRequest.net w)) eqn:Hab0; [by simplify_eq|].
    destruct (Hl r0 Hr0 Hab0) as [_ Hrf0].
    assert (signal r = signal r0) as Hs by congruence.
    apply Hnotin. rewrite <- Hs.
    change (map ?f ?l) with (f <$> l). apply list_elem_of_fmap. eauto.
  - unfold UseRequest.unmount.
    destruct (UseRequest.abortControllerRef w) as [c|] eqn:Href; [|done].
    destruct Hlive as (Hnd & Hlt & Hl).
    split_and!; [done..|]. simpl. intros r Hr Hab.
    apply (Hl r Hr).
    destruct (is_aborted (signal r) (UseRequest.net w)) eqn:Hab'; [|done].
    assert (is_aborted (signal r) (abort c (UseRequest.net w)) = true)
      by (apply is_aborted_abort; by right).
    congruence.
Qed.

Lemma useRequest_live_inv_exec evs w :
  useRequest_inv w -> useRequest_live_inv w ->
  useRequest_live_inv (UseRequest.exec evs w).
Proof.
  revert w. induction evs as [|ev evs IH]; intros w Hi Hl; [done|].
  simpl. apply IH; [by apply useRequest_inv_step|by apply useRequest_live_inv_step].
Qed.

Lemma useRequest_live_inv_mount p : useRequest_live_inv (UseRequest.mount p).
Proof.
  split_and!; simpl; [constructor|by intros r ?%elem_of_nil..].
Qed.

(** X3. [useRequest]: when a request whose signal is intact succeeds, the
    hook ends up with the response as [data], [error] as it was and
    [loading] off; [onSuccess], when supplied, is called once with the
    response, and the promise of [run] is fulfilled with it. Over an instance
    that passes the hook's signal on, [error] is then empty and no other
    live request is in flight. Over an instance that replaces [config.signal]
    (the one of part_006) an earlier request, although superseded, may have
    failed in the meantime: its error is still in the error state after the
    success, which does not clear it. *)
Theorem useRequest_success_state
    (i : signal_policy)
    (p0 : UseRequest.props) (evs : list UseRequest.event)
    (id : nat) (d : jsval) (r : request UseRequest.props)
    (rest : list (request UseRequest.props)) :
  let w := UseRequest.exec_via i evs (UseRequest.mount p0) in
  take_request id (pending (UseRequest.net w)) = Some (r, rest) ->
  is_aborted (signal r) (UseRequest.net w) = false ->
  let w' := fst (UseRequest.settle_via i id (Ok d) w) in
  (UseRequest.data w' = d
   ∧ UseRequest.error w' = UseRequest.error w
   ∧ UseRequest.loading w' = false
   ∧ UseRequest.calls w'
     = UseRequest.calls w
       ++ (if UseRequest.onSuccess (closure r) then [OnSuccess d] else [])
   ∧ snd (UseRequest.settle_via i id (Ok d) w) = Some (Fulfilled d))
  ∧ (i = PassesSignal ->
     UseRequest.error w' = None ∧ all_cancelled (UseRequest.net w'))
  ∧ (∀ err, isCancel err = false ->
       let w0 := UseRequest.exec_via ReplacesSignal
                   [ UseRequest.Run p0 None; UseRequest.Run p0 None;
                     UseRequest.Settle 0 (Fail err) ]
                   (UseRequest.mount p0) in
       (∃ r1, take_request 1 (pending (UseRequest.net w0)) = Some (r1, [])
              ∧ is_aborted (signal r1) (UseRequest.net w0) = false)
       ∧ UseRequest.error (fst (UseRequest.settle_via ReplacesSignal 1 (Ok d) w0))
         = Some (stored_error err)).
Proof.
  intros w Htake Hab w'.
  pose proof (useRequest_settle_via_cases i id (Ok d) w) as H. rewrite Htake in H.
  assert (Hout : outcome_via i (UseRequest.net w) r (Ok d) = Ok d).
  { destruct i; [|done]. simpl. unfold outcome. by rewrite Hab. }
  split; [|split].
  - subst w'. rewrite H, Hout. simpl.
    destruct (UseRequest.onSuccess (closure r)); simpl;
      (split_and!; [done|done|done|by rewrite ?app_nil_r|done]).
  - intros ->. subst w' w. rewrite useRequest_exec_via_passes in *.
    set (w := UseRequest.exec evs (UseRequest.mount p0)) in *.
    assert (Hinv : useRequest_inv w)
      by apply useRequest_inv_exec, useRequest_inv_mount.
    assert (Hlive : useRequest_live_inv w)
      by (apply useRequest_live_inv_exec;
          [apply useRequest_inv_mount|apply useRequest_live_inv_mount]).
    destruct Hlive as (Hnd & _ & Hl).
    pose proof (take_request_Permutation _ _ _ _ Htake) as Hperm.
    pose proof (take_request_Some _ _ _ _ Htake) as (Hr & _ & Hsub & _).
    destruct (Hl r Hr Hab) as [He Hrf].
    assert (Hnd0 : NoDup (signal r :: map signal rest)).
    { change (NoDup (map signal (r :: rest))). by rewrite <- Hperm. }
    apply NoDup_cons in Hnd0 as [Hnotin _].
    rewrite H, Hout. simpl.
    destruct (UseRequest.onSuccess (closure r)); simpl;
      (split; [done|]);
      apply Forall_forall; intros r' Hr'; simpl;
      (destruct (is_aborted (signal r') (UseRequest.net w)) eqn:Hab'; [done|]);
      exfalso; destruct (Hl r' (Hsub r' Hr') Hab') as [_ Hrf'];
      apply Hnotin; assert (signal r' = signal r) as <- by congruence;
      change (map ?f ?l) with (f <$> l); apply list_elem_of_fmap; eauto.
  - intros err Hc w0. subst w0. simpl.
    unfold UseRequest.refresh, UseRequest.run, UseRequest.mount,
      UseRequest.settle_via, UseRequest.run_resume. simpl.
    rewrite Hc. unfold stored_error.
    repeat (simpl; rewrite ?Hc;
            match goal with
            | |- context [UseRequest.onSuccess p0] =>
                destruct (UseRequest.onSuccess p0)
            | |- context [UseRequest.onError p0] =>
                destruct (UseRequest.onError p0)
            end);
      simpl; (split; [eexists; split; reflexivity|reflexivity]).
Qed.

Lemma useRequest_success_state_witness :
  let w := UseRequest.exec_via PassesSignal
             [ UseRequest.Run sample_request_props None;
               UseRequest.Settle 0 (Fail (AxiosError TimedOut "timeout"));
               UseRequest.Run sample_request_props None ]
             (UseRequest.mount sample_request_props) in
  let w' := fst (UseRequest.settle_via PassesSignal 1 (Ok (JStr "user")) w) in
  UseRequest.data w' = JStr "user" ∧ UseRequest.error w' = None.
Proof.
  intros w w'.
  destruct (useRequest_success_state PassesSignal sample_request_props
              [ UseRequest.Run sample_request_props None;
                UseRequest.Settle 0 (Fail (AxiosError TimedOut "timeout"));
                UseRequest.Run sample_request_props None ]
              1%nat (JStr "user")
              (Request 1 1 (UseRequest.config sample_request_props)
                       sample_request_props) [])
    as ((Hd & _) & He & _).
  - vm_compute. reflexivity.
  - reflexivity.
  - exact (conj Hd (proj1 (He eq_refl))).
Defined.

(** X4. [useRequest]: [reset] puts back the initial data and clears [error]
    and [loading], but cancels nothing: the requests in flight and their
    signals are as before, and a request whose signal is intact still
    delivers, its response replacing the data just reset. *)
Theorem useRequest_reset_keeps_requests
    (p : UseRequest.props) (w : UseRequest.world) :
  let w1 := UseRequest.reset p w in
  UseRequest.data w1 = UseRequest.initialData p
  ∧ UseRequest.error w1 = None
  ∧ UseRequest.loading w1 = false
  ∧ UseRequest.net w1 = UseRequest.net w
  ∧ ∀ id r rest d,
      take_request id (pending (UseRequest.net w)) = Some (r, rest) ->
      is_aborted (signal r) (UseRequest.net w) = false ->
      UseRequest.data (UseRequest.step (UseRequest.Settle id (Ok d)) w1) = d.
Proof.
  intros w1. split_and!; [done..|].
  intros id r rest d Htake Hab. simpl.
  pose proof (useRequest_settle_cases id (Ok d) w1) as H.
  change (UseRequest.net w1) with (UseRequest.net w) in H.
  rewrite Htake in H. rewrite H. unfold outcome.
  change (UseRequest.net w1) with (UseRequest.net w). rewrite Hab. simpl.
  by destruct (UseRequest.onSuccess (closure r)).
Qed.

Lemma useRequest_reset_keeps_requests_witness :
  UseRequest.data
    (UseRequest.step (UseRequest.Settle 0 (Ok (JStr "late")))
       (UseRequest.reset sample_request_props
          (UseRequest.run sample_request_props None
             (UseRequest.mount sample_request_props))))
  = JStr "late".
Proof.
  apply (proj2 (proj2 (proj2 (proj2
           (useRequest_reset_keeps_requests sample_request_props
              (UseRequest.run sample_request_props None
                 (UseRequest.mount sample_request_props))))))
           0%nat
           (Request 0 0 (UseRequest.config sample_request_props) sample_request_props)
           []);
    reflexivity.
Defined.

(** ** [useAxios] with retry (part_007, part_008): the token and the flag *)

Section RetryHookMore.
Context {entry : Type}.
Variable cache_hit : Z -> UseAxiosRetry.props -> gmap string entry -> option jsval.
Variable cache_entry : jsval -> Z -> entry.

Abbreviation rstep := (UseAxiosRetry.step entry cache_hit cache_entry).
Abbreviation rexec := (retry_exec cache_hit cache_entry).

Lemma retry_fetchData_frame p now (w : UseAxiosRetry.world entry) :
  let w' := UseAxiosRetry.fetchData entry cache_hit p now w in
  UseAxiosRetry.error w' = UseAxiosRetry.error w
  ∧ UseAxiosRetry.cacheRef w' = UseAxiosRetry.cacheRef w
  ∧ UseAxiosRetry.retryCountRef w' = UseAxiosRetry.retryCountRef w
  ∧ aborted (UseAxiosRetry.net w') = aborted (UseAxiosRetry.net w)
  ∧ (retry_one_token w -> retry_one_token w').
Proof.
  unfold UseAxiosRetry.fetchData.
  destruct (cache_hit now p (UseAxiosRetry.cacheRef w)) as [d|].
  - match goal with |- context [UseAxiosRetry.finally entry p ?w0] =>
      destruct (retry_finally_frame p w0) as (_ & He & Hc & Hk & Hn & _) end.
    cbv zeta. unfold retry_one_token. rewrite He, Hc, Hk, Hn. done.
  - simpl. split_and!; [done..|]. unfold retry_one_token. simpl. intros Hone r.
    rewrite elem_of_app, list_elem_of_singleton. intros [Hr| ->]; [|done].
    by apply Hone.
Qed.

Lemma retry_settle_cases id rep now (w : UseAxiosRetry.world entry) :
  match take_request id (pending (UseAxiosRetry.net w)) with
  | Some (r, rest) =>
      UseAxiosRetry.settle entry cache_entry id rep now w
      = UseAxiosRetry.fetchData_resume entry cache_entry (closure r) now
          (outcome (UseAxiosRetry.net w) r rep)
          (UseAxiosRetry.set_net entry (with_pending rest (UseAxiosRetry.net w)) w)
  | None => UseAxiosRetry.settle entry cache_entry id rep now w = w
  end.
Proof.
  unfold UseAxiosRetry.settle.
  destruct (take_request id (pending (UseAxiosRetry.net w))) as [[r rest]|]; done.
Qed.

Lemma retry_one_token_step ev (w : UseAxiosRetry.world entry) :
  retry_one_token w -> retry_one_token (rstep ev w).
Proof.
  intros Hone. destruct ev as [p now|id rep now|now| |]; simpl; try done.
  - unfold UseAxiosRetry.run_effect.
    match goal with |- context [UseAxiosRetry.fetchData entry cache_hit p now ?w0] =>
      apply (retry_fetchData_frame p now w0) end.
    by destruct (UseAxiosRetry.effect_installed w).
  - pose proof (retry_settle_cases id rep now w) as H.
    destruct (take_request id (pending (UseAxiosRetry.net w))) as [[r rest]|] eqn:E;
      rewrite H; [|done].
    apply take_request_Some in E as (_ & _ & Hsub & _).
    unfold UseAxiosRetry.fetchData_resume.
    destruct (outcome _ r rep) as [d|err]; [|destruct (isCancel err)];
      match goal with |- context [UseAxiosRetry.finally entry ?p ?w0] =>
        destruct (retry_finally_frame p w0) as (_ & _ & _ & _ & Hn & _) end;
      unfold retry_one_token; rewrite Hn.
    + destruct (UseAxiosRetry.cache (closure r)); simpl; intros x Hx; by apply Hone, Hsub.
    + simpl. intros x Hx. by apply Hone, Hsub.
    + destruct (_ <? _); simpl; intros x Hx; by apply Hone, Hsub.
  - unfold UseAxiosRetry.fire_timer.
    destruct (UseAxiosRetry.timers w) as [|[dl p] rest]; [done|].
    by apply retry_fetchData_frame.
Qed.

Lemma retry_one_token_exec evs (w : UseAxiosRetry.world entry) :
  retry_one_token w -> retry_one_token (rexec evs w).
Proof.
  revert w. induction evs as [|ev evs IH]; intros w Hw; [done|].
  simpl. by apply IH, retry_one_token_step.
Qed.

(** With the token cancelled, a step leaves the error text, the cache and the
    retry counter alone, and the token stays cancelled. *)
Lemma retry_dead_step ev (w : UseAxiosRetry.world entry) :
  retry_one_token w ->
  is_aborted UseAxiosRetry.cancelTokenSourceRef (UseAxiosRetry.net w) = true ->
  let w' := rstep ev w in
  is_aborted UseAxiosRetry.cancelTokenSourceRef (UseAxiosRetry.net w') = true
  ∧ UseAxiosRetry.error w' = UseAxiosRetry.error w
  ∧ UseAxiosRetry.cacheRef w' = UseAxiosRetry.cacheRef w
  ∧ UseAxiosRetry.retryCountRef w' = UseAxiosRetry.retryCountRef w.
Proof.
  intros Hone Hab. destruct ev as [p now|id rep now|now| |]; simpl.
  - unfold UseAxiosRetry.run_effect.
    match goal with |- context [UseAxiosRetry.fetchData entry cache_hit p now ?w0] =>
      destruct (retry_fetchData_frame p now w0) as (He & Hc & Hk & Ha & _) end.
    cbv zeta in *. unfold is_aborted in *. rewrite He, Hc, Hk, Ha.
    destruct (UseAxiosRetry.effect_installed w); simpl; split_and!; done.
  - pose proof (retry_settle_cases id rep now w) as H.
    destruct (take_request id (pending (UseAxiosRetry.net w))) as [[r rest]|] eqn:E;
      rewrite H; [|done].
    apply take_request_Some in E as (Hr & _).
    unfold outcome. rewrite (Hone r Hr), Hab.
    unfold UseAxiosRetry.fetchData_resume. simpl.
    match goal with |- context [UseAxiosRetry.finally entry ?p ?w0] =>
      destruct (retry_finally_frame p w0) as (_ & He & Hc & Hk & Hn & _) end.
    by rewrite He, Hc, Hk, Hn.
  - unfold UseAxiosRetry.fire_timer.
    destruct (UseAxiosRetry.timers w) as [|[dl p] rest]; [done|].
    match goal with |- context [UseAxiosRetry.fetchData entry cache_hit p now ?w0] =>
      destruct (retry_fetchData_frame p now w0) as (He & Hc & Hk & Ha & _) end.
    cbv zeta in *. unfold is_aborted in *. by rewrite He, Hc, Hk, Ha.
  - split_and!; [|done..]. apply is_aborted_abort. by left.
  - split_and!; [|done..]. apply is_aborted_abort. by left.
Qed.

Lemma retry_dead_exec evs (w : UseAxiosRetry.world entry) :
  retry_one_token w ->
  is_aborted UseAxiosRetry.cancelTokenSourceRef (UseAxiosRetry.net w) = true ->
  let w' := rexec evs w in
  retry_one_token w'
  ∧ is_aborted UseAxiosRetry.cancelTokenSourceRef (UseAxiosRetry.net w') = true
  ∧ UseAxiosRetry.error w' = UseAxiosRetry.error w
  ∧ UseAxiosRetry.cacheRef w' = UseAxiosRetry.cacheRef w
  ∧ UseAxiosRetry.retryCountRef w' = UseAxiosRetry.retryCountRef w.
Proof.
  revert w. induction evs as [|ev evs IH]; intros w Hone Hab; [done|].
  simpl. destruct (retry_dead_step ev w Hone Hab) as (Hab1 & He1 & Hc1 & Hk1).
  destruct (IH _ (retry_one_token_step ev w Hone) Hab1) as (? & ? & He & Hc & Hk).
  cbv zeta. rewrite He, Hc, Hk. done.
Qed.

Lemma retry_cancels_token ev (w : UseAxiosRetry.world entry) :
  cancels_token ev w = true ->
  is_aborted UseAxiosRetry.cancelTokenSourceRef (UseAxiosRetry.net (rstep ev w)) = true
  ∧ UseAxiosRetry.error (rstep ev w) = UseAxiosRetry.error w
  ∧ UseAxiosRetry.cacheRef (rstep ev w) = UseAxiosRetry.cacheRef w
  ∧ UseAxiosRetry.retryCountRef (rstep ev w) = UseAxiosRetry.retryCountRef w.
Proof.
  destruct ev as [p now|id rep now|now| |]; simpl; try done.
  - intros Hi. unfold UseAxiosRetry.run_effect. rewrite Hi.
    match goal with |- context [UseAxiosRetry.fetchData entry cache_hit p now ?w0] =>
      destruct (retry_fetchData_frame p now w0) as (He & Hc & Hk & Ha & _) end.
    cbv zeta in *. unfold is_aborted. rewrite He, Hc, Hk, Ha. simpl.
    split_and!; done.
Qed.

(** Once the token is cancelled nothing is ever delivered. *)
Lemma retry_dead_after_cancel evs0 ev evs :
  let w0 := rexec evs0 (UseAxiosRetry.init entry) in
  cancels_token ev w0 = true ->
  let w' := rexec evs (rstep ev w0) in
  all_cancelled (UseAxiosRetry.net w')
  ∧ UseAxiosRetry.error w' = UseAxiosRetry.error w0
  ∧ UseAxiosRetry.cacheRef w' = UseAxiosRetry.cacheRef w0
  ∧ UseAxiosRetry.retryCountRef w' = UseAxiosRetry.retryCountRef w0
  ∧ ∀ id rep now,
      UseAxiosRetry.response (rstep (UseAxiosRetry.Settle id rep now) w')
      = UseAxiosRetry.response w'.
Proof.
  intros w0 Hev w'.
  assert (Hone0 : retry_one_token w0).
  { apply retry_one_token_exec. by intros r ?%elem_of_nil. }
  destruct (retry_cancels_token ev w0 Hev) as (Hab1 & He1 & Hc1 & Hk1).
  destruct (retry_dead_exec evs (rstep ev w0) (retry_one_token_step ev w0 Hone0) Hab1)
    as (Hone & Hab & He & Hc & Hk).
  fold w' in Hone, Hab, He, Hc, Hk.
  split_and!; [|congruence..|].
  - apply Forall_forall. intros r Hr. by rewrite (Hone r Hr).
  - intros id rep now. simpl.
    pose proof (retry_settle_cases id rep now w') as H.
    destruct (take_request id (pending (UseAxiosRetry.net w'))) as [[r rest]|] eqn:E;
      rewrite H; [|done].
    apply take_request_Some in E as (Hr & _).
    unfold outcome. rewrite (Hone r Hr), Hab.
    unfold UseAxiosRetry.fetchData_resume. simpl.
    match goal with |- context [UseAxiosRetry.finally entry ?p ?w1] =>
      destruct (retry_finally_frame p w1) as (Hrs & _) end.
    by rewrite Hrs.
Qed.

(** A call that succeeds at its first attempt: the response is stored, and
    [loading] goes off only if no retry was configured. *)
Lemma retry_first_success p now now' d (w : UseAxiosRetry.world entry) :
  fresh_call cache_hit p now w ->
  UseAxiosRetry.loading w = true ->
  let w' := rstep (UseAxiosRetry.Settle (issued (UseAxiosRetry.net w)) (Ok d) now')
              (UseAxiosRetry.fetchData entry cache_hit p now w) in
  UseAxiosRetry.response w' = d
  ∧ pending (UseAxiosRetry.net w') = []
  ∧ UseAxiosRetry.timers w' = []
  ∧ UseAxiosRetry.loading w' = bool_decide (0 < UseAxiosRetry.retry p)
  ∧ (∀ id rep t, rstep (UseAxiosRetry.Settle id rep t) w' = w')
  ∧ (∀ t, rstep (UseAxiosRetry.Timer t) w' = w').
Proof.
  intros (Hk & Hp & Ht & Hab & Hmiss) Hl w'.
  assert (Hw' : w' = UseAxiosRetry.fetchData_resume entry cache_entry p now' (Ok d)
                       (UseAxiosRetry.set_net entry
                          (Client (S (issued (UseAxiosRetry.net w))) []
                                  (controllers (UseAxiosRetry.net w))
                                  (aborted (UseAxiosRetry.net w))
                                  (S (transmitted (UseAxiosRetry.net w)))) w)).
  { subst w'. rewrite retry_fetchData_miss by done. simpl.
    unfold UseAxiosRetry.settle. simpl. rewrite Hp. simpl.
    rewrite bool_decide_true by done. unfold outcome. simpl.
    unfold dispatch, with_pending, is_aborted in *. simpl in *. by rewrite !Hab. }
  assert (Hfacts : UseAxiosRetry.response w' = d
                   ∧ pending (UseAxiosRetry.net w') = []
                   ∧ UseAxiosRetry.timers w' = []
                   ∧ UseAxiosRetry.loading w' = bool_decide (0 < UseAxiosRetry.retry p)).
  { rewrite Hw'. unfold UseAxiosRetry.fetchData_resume, UseAxiosRetry.finally.
    destruct (UseAxiosRetry.cache p); simpl; rewrite Hk;
      destruct (UseAxiosRetry.retry p <=? 0) eqn:Hr; simpl; rewrite ?Hl, ?Ht;
      (split_and!; [done..|]);
      (apply Z.leb_le in Hr || apply Z.leb_gt in Hr); symmetry;
      (by apply bool_decide_eq_false; lia) || (by apply bool_decide_eq_true; lia). }
  destruct Hfacts as (Hr & Hp' & Ht' & Hl').
  split_and!; [done..| |].
  - intros id rep t. simpl. unfold UseAxiosRetry.settle. by rewrite Hp'.
  - intros t. simpl. unfold UseAxiosRetry.fire_timer. by rewrite Ht'.
Qed.

End RetryHookMore.

(** X5. [useAxios] of part_007 and part_008 has one cancel token for its
    whole life. Once it is cancelled, by [cancel()], by the unmount or by
    the cleanup that precedes every run of the effect but the first, every
    request ends cancelled: whatever happens afterwards, the error text, the
    cache and the retry counter stay as they were, and no settlement changes
    [response]. *)
Theorem retry_token_cancelled_for_good
    (evs0 : list UseAxiosRetry.event) (ev : UseAxiosRetry.event)
    (evs : list UseAxiosRetry.event) :
  (let w0 := retry_exec Part007.cache_hit Part007.cache_entry evs0 Part007.init in
   cancels_token ev w0 = true ->
   let w' := retry_exec Part007.cache_hit Part007.cache_entry evs
               (Part007.step ev w0) in
   all_cancelled (UseAxiosRetry.net w')
   ∧ UseAxiosRetry.error w' = UseAxiosRetry.error w0
   ∧ UseAxiosRetry.cacheRef w' = UseAxiosRetry.cacheRef w0
   ∧ UseAxiosRetry.retryCountRef w' = UseAxiosRetry.retryCountRef w0
   ∧ ∀ id rep now,
       UseAxiosRetry.response (Part007.step (UseAxiosRetry.Settle id rep now) w')
       = UseAxiosRetry.response w')
  ∧ (let w0 := retry_exec Part008.cache_hit Part008.cache_entry evs0 Part008.init in
     cancels_token ev w0 = true ->
     let w' := retry_exec Part008.cache_hit Part008.cache_entry evs
                 (Part008.step ev w0) in
     all_cancelled (UseAxiosRetry.net w')
     ∧ UseAxiosRetry.error w' = UseAxiosRetry.error w0
     ∧ UseAxiosRetry.cacheRef w' = UseAxiosRetry.cacheRef w0
     ∧ UseAxiosRetry.retryCountRef w' = UseAxiosRetry.retryCountRef w0
     ∧ ∀ id rep now,
         UseAxiosRetry.response (Part008.step (UseAxiosRetry.Settle id rep now) w')
         = UseAxiosRetry.response w').
Proof.
  split.
  - apply (retry_dead_after_cancel Part007.cache_hit Part007.cache_entry).
  - apply (retry_dead_after_cancel Part008.cache_hit Part008.cache_entry).
Qed.

Lemma retry_token_cancelled_for_good_witness :
  let w' := retry_exec Part008.cache_hit Part008.cache_entry
              [ UseAxiosRetry.Settle 0 (Ok (JStr "old")) 10;
                UseAxiosRetry.Settle 1 (Ok (JStr "new")) 20 ]
              (Part008.step
                 (UseAxiosRetry.Effect
                    (UseAxiosRetry.Props "/posts/2" "get" JUndefined JUndefined
                                         JUndefined false 60000 3 1000) 5)
                 (retry_exec Part008.cache_hit Part008.cache_entry
                    [UseAxiosRetry.Effect sample_retry_props 0] Part008.init)) in
  all_cancelled (UseAxiosRetry.net w') ∧ UseAxiosRetry.error w' = JNull.
Proof.
  intros w'.
  destruct (proj2 (retry_token_cancelled_for_good
                     [UseAxiosRetry.Effect sample_retry_props 0]
                     (UseAxiosRetry.Effect
                        (UseAxiosRetry.Props "/posts/2" "get" JUndefined JUndefined
                                             JUndefined false 60000 3 1000) 5)
                     [ UseAxiosRetry.Settle 0 (Ok (JStr "old")) 10;
                       UseAxiosRetry.Settle 1 (Ok (JStr "new")) 20 ])
              eq_refl) as (Hall & He & _).
  exact (conj Hall He).
Defined.

(** X6. [useAxios] of part_007 and part_008: when a call that started with
    the retry counter at zero succeeds at its first attempt, the response is
    stored and nothing is left in flight or scheduled, but [loading] is
    turned off only if [retry] is not positive: with a retry configured the
    flag stays on, and no settlement or timer changes that any more. *)
Theorem retry_first_success_loading
    (p : UseAxiosRetry.props) (now now' : Z) (d : jsval) :
  (∀ w : Part007.world,
     fresh_call Part007.cache_hit p now w ->
     UseAxiosRetry.loading w = true ->
     let w' := Part007.step
                 (UseAxiosRetry.Settle (issued (UseAxiosRetry.net w)) (Ok d) now')
                 (Part007.fetchData p now w) in
     UseAxiosRetry.response w' = d
     ∧ pending (UseAxiosRetry.net w') = []
     ∧ UseAxiosRetry.timers w' = []
     ∧ UseAxiosRetry.loading w' = bool_decide (0 < UseAxiosRetry.retry p)
     ∧ (∀ id rep t, Part007.step (UseAxiosRetry.Settle id rep t) w' = w')
     ∧ (∀ t, Part007.step (UseAxiosRetry.Timer t) w' = w'))
  ∧ (∀ w : Part008.world,
       fresh_call Part008.cache_hit p now w ->
       UseAxiosRetry.loading w = true ->
       let w' := Part008.step
                   (UseAxiosRetry.Settle (issued (UseAxiosRetry.net w)) (Ok d) now')
                   (Part008.fetchData p now w) in
       UseAxiosRetry.response w' = d
       ∧ pending (UseAxiosRetry.net w') = []
       ∧ UseAxiosRetry.timers w' = []
       ∧ UseAxiosRetry.loading w' = bool_decide (0 < UseAxiosRetry.retry p)
       ∧ (∀ id rep t, Part008.step (UseAxiosRetry.Settle id rep t) w' = w')
       ∧ (∀ t, Part008.step (UseAxiosRetry.Timer t) w' = w')).
Proof.
  split; intros w Hw Hl.
  - by apply (retry_first_success Part007.cache_hit Part007.cache_entry).
  - by apply (retry_first_success Part008.cache_hit Part008.cache_entry).
Qed.

Lemma retry_first_success_loading_witness :
  let w' := Part007.step (UseAxiosRetry.Settle 0 (Ok (JStr "post")) 10)
              (Part007.fetchData sample_retry_props 0 Part007.init) in
  UseAxiosRetry.response w' = JStr "post"
  ∧ pending (UseAxiosRetry.net w') = []
  ∧ UseAxiosRetry.loading w' = true.
Proof.
  intros w'.
  destruct (proj1 (retry_first_success_loading sample_retry_props 0 10 (JStr "post"))
              Part007.init) as (Hr & Hp & _ & Hl & _).
  - repeat split.
  - reflexivity.
  - exact (conj Hr (conj Hp Hl)).
Defined.

Lemma retry_miss_calls {entry : Type}
    (cache_hit : Z -> UseAxiosRetry.props -> gmap string entry -> option jsval)
    p t (w : UseAxiosRetry.world entry) :
  cache_hit t p (UseAxiosRetry.cacheRef w) = None ->
  let w' := UseAxiosRetry.fetchData entry cache_hit p t w in
  issued (UseAxiosRetry.net w') = S (issued (UseAxiosRetry.net w))
  ∧ transmitted (UseAxiosRetry.net w')
    = (if is_aborted UseAxiosRetry.cancelTokenSourceRef (UseAxiosRetry.net w)
       then transmitted (UseAxiosRetry.net w)
       else S (transmitted (UseAxiosRetry.net w))).
Proof. intros Hmiss. cbv zeta. by rewrite retry_fetchData_miss. Qed.

(** A re-run of the effect cancels the hook's one token before it calls
    [fetchData]: whatever the cache says, nothing reaches the transport. *)
Lemma retry_rerun_transmits_nothing {entry : Type}
    (cache_hit : Z -> UseAxiosRetry.props -> gmap string entry -> option jsval)
    (cache_entry : jsval -> Z -> entry)
    p t (w : UseAxiosRetry.world entry) :
  UseAxiosRetry.effect_installed w = true ->
  let w' := UseAxiosRetry.step entry cache_hit cache_entry
              (UseAxiosRetry.Effect p t) w in
  transmitted (UseAxiosRetry.net w') = transmitted (UseAxiosRetry.net w)
  ∧ is_aborted UseAxiosRetry.cancelTokenSourceRef (UseAxiosRetry.net w') = true.
Proof.
  intros Hi. simpl. unfold UseAxiosRetry.run_effect. rewrite Hi.
  set (w0 := UseAxiosRetry.set_effect_installed entry true
               (UseAxiosRetry.cancel entry w)).
  assert (Hab : is_aborted UseAxiosRetry.cancelTokenSourceRef (UseAxiosRetry.net w0)
                = true).
  { subst w0. simpl. apply is_aborted_abort. by left. }
  assert (Htr : transmitted (UseAxiosRetry.net w0) = transmitted (UseAxiosRetry.net w))
    by done.
  destruct (cache_hit t p (UseAxiosRetry.cacheRef w0)) as [d|] eqn:E.
  - destruct (retry_fetchData_hit cache_hit p t w0 d E) as (_ & _ & _ & -> & _).
    done.
  - destruct (retry_miss_calls cache_hit p t w0 E) as [_ Htr'].
    rewrite Hab in Htr'. split; [by rewrite Htr'|].
    rewrite (retry_fetchData_miss cache_hit p t w0 E).
    unfold is_aborted, dispatch in *. simpl in *. done.
Qed.

Lemma retry_resume_ok_frame {entry : Type} (cache_entry : jsval -> Z -> entry)
    p t0 d (w : UseAxiosRetry.world entry) :
  let w1 := UseAxiosRetry.fetchData_resume entry cache_entry p t0 (Ok d) w in
  UseAxiosRetry.net w1 = UseAxiosRetry.net w
  ∧ UseAxiosRetry.effect_installed w1 = UseAxiosRetry.effect_installed w
  ∧ UseAxiosRetry.cacheRef w1
    = (if UseAxiosRetry.cache p
       then <[UseAxiosRetry.url p := cache_entry d t0]> (UseAxiosRetry.cacheRef w)
       else UseAxiosRetry.cacheRef w).
Proof.
  unfold UseAxiosRetry.fetchData_resume, UseAxiosRetry.finally.
  by destruct (UseAxiosRetry.cache p), (_ <=? _).
Qed.

(** X7. The cache of part_007 keeps the response under the url for good and
    serves it only when it is truthy: after a response was cached, a later
    call for the same url, at any time, makes no axios call and shows the
    cached data if the data is truthy; if the data is one of the falsy values
    ([0], the empty string, [false], [null], [undefined], [NaN]) the call goes
    to axios again, and that call reaches the transport only if the hook's
    cancel token is still intact. A call made by a re-run of the effect comes
    after the cleanup has cancelled that one token: it never reaches the
    transport, and from then on the token stays cancelled. *)
Theorem part007_cache_truthy_only
    (p : UseAxiosRetry.props) (d : jsval) (t0 t : Z) (w : Part007.world) :
  UseAxiosRetry.cache p = true ->
  let w1 := Part007.fetchData_resume p t0 (Ok d) w in
  let w2 := Part007.fetchData p t w1 in
  let w3 := Part007.step (UseAxiosRetry.Effect p t) w1 in
  (truthy d = true ->
   UseAxiosRetry.net w2 = UseAxiosRetry.net w1 ∧ UseAxiosRetry.response w2 = d
   ∧ UseAxiosRetry.loading w2 = false)
  ∧ (truthy d = false ->
     issued (UseAxiosRetry.net w2) = S (issued (UseAxiosRetry.net w1))
     ∧ transmitted (UseAxiosRetry.net w2)
       = (if is_aborted UseAxiosRetry.cancelTokenSourceRef (UseAxiosRetry.net w1)
          then transmitted (UseAxiosRetry.net w1)
          else S (transmitted (UseAxiosRetry.net w1))))
  ∧ (UseAxiosRetry.effect_installed w = true ->
     transmitted (UseAxiosRetry.net w3) = transmitted (UseAxiosRetry.net w1)
     ∧ is_aborted UseAxiosRetry.cancelTokenSourceRef (UseAxiosRetry.net w3) = true
     ∧ issued (UseAxiosRetry.net w3)
       = (if truthy d then issued (UseAxiosRetry.net w1)
          else S (issued (UseAxiosRetry.net w1)))).
Proof.
  intros Hc w1 w2 w3.
  destruct (retry_resume_ok_frame Part007.cache_entry p t0 d w) as (Hn1 & Hi1 & Hc1).
  fold (Part007.fetchData_resume p t0 (Ok d) w) in Hn1, Hi1, Hc1. fold w1 in Hn1, Hi1, Hc1.
  rewrite Hc in Hc1.
  assert (Hcache : get (UseAxiosRetry.cacheRef w1) (UseAxiosRetry.url p) = d).
  { rewrite Hc1. unfold get. by rewrite lookup_insert_eq. }
  split_and!.
  - intros Ht.
    assert (Hhit : Part007.cache_hit t p (UseAxiosRetry.cacheRef w1) = Some d).
    { unfold Part007.cache_hit. by rewrite Hc, Hcache, Ht. }
    destruct (retry_fetchData_hit Part007.cache_hit p t w1 d Hhit)
      as (? & ? & _ & ? & _).
    done.
  - intros Ht.
    assert (Hmiss : Part007.cache_hit t p (UseAxiosRetry.cacheRef w1) = None).
    { unfold Part007.cache_hit. by rewrite Hc, Hcache, Ht. }
    exact (retry_miss_calls Part007.cache_hit p t w1 Hmiss).
  - intros Hi. rewrite <- Hi1 in Hi.
    destruct (retry_rerun_transmits_nothing Part007.cache_hit Part007.cache_entry
                p t w1 Hi) as [Htr Hab].
    split; [done|]. split; [done|].
    subst w3. unfold Part007.step. simpl. unfold UseAxiosRetry.run_effect.
    rewrite Hi.
    set (w0 := UseAxiosRetry.set_effect_installed jsval true
                 (UseAxiosRetry.cancel jsval w1)).
    assert (Hc0 : get (UseAxiosRetry.cacheRef w0) (UseAxiosRetry.url p) = d) by done.
    destruct (truthy d) eqn:Ht.
    + assert (Hhit : Part007.cache_hit t p (UseAxiosRetry.cacheRef w0) = Some d).
      { unfold Part007.cache_hit. by rewrite Hc, Hc0, Ht. }
      by destruct (retry_fetchData_hit Part007.cache_hit p t w0 d Hhit)
        as (_ & _ & _ & -> & _).
    + assert (Hmiss : Part007.cache_hit t p (UseAxiosRetry.cacheRef w0) = None).
      { unfold Part007.cache_hit. by rewrite Hc, Hc0, Ht. }
      by destruct (retry_miss_calls Part007.cache_hit p t w0 Hmiss) as [-> _].
Qed.

Lemma part007_cache_truthy_only_witness :
  let w1 := Part007.fetchData_resume sample_retry_props 0 (Ok (JNum 0)) Part007.init in
  issued (UseAxiosRetry.net (Part007.fetchData sample_retry_props 5 w1))
  = S (issued (UseAxiosRetry.net w1))
  ∧ transmitted (UseAxiosRetry.net (Part007.fetchData sample_retry_props 5 w1))
    = S (transmitted (UseAxiosRetry.net w1)).
Proof.
  apply (proj1 (proj2 (part007_cache_truthy_only sample_retry_props (JNum 0) 0 5
                         Part007.init eq_refl))).
  reflexivity.
Defined.

(** X8. The cache of part_008 serves an entry exactly while it is younger
    than [cacheExpiry]: after a response was cached at time [t0], a call for
    the same url at time [t] goes to axios if and only if
    [cacheExpiry <= t - t0]; otherwise it makes no axios call and shows the
    cached data. With [cache] off nothing is ever stored and every call goes
    to axios. A call that goes to axios reaches the transport only if the
    hook's cancel token is still intact; a call made by a re-run of the
    effect comes after the cleanup has cancelled that one token, so it never
    reaches the transport, cache or no cache. *)
Theorem part008_cache_expiry
    (p : UseAxiosRetry.props) (d : jsval) (t0 t : Z) (w : Part008.world) :
  let w1 := Part008.fetchData_resume p t0 (Ok d) w in
  let w2 := Part008.fetchData p t w1 in
  let w3 := Part008.step (UseAxiosRetry.Effect p t) w1 in
  (UseAxiosRetry.cache p = true ->
   (issued (UseAxiosRetry.net w2) = S (issued (UseAxiosRetry.net w1))
    ↔ UseAxiosRetry.cacheExpiry p <= t - t0)
   ∧ (t - t0 < UseAxiosRetry.cacheExpiry p ->
      UseAxiosRetry.net w2 = UseAxiosRetry.net w1
      ∧ UseAxiosRetry.response w2 = d))
  ∧ (UseAxiosRetry.cache p = false ->
     UseAxiosRetry.cacheRef w1 = UseAxiosRetry.cacheRef w
     ∧ issued (UseAxiosRetry.net w2) = S (issued (UseAxiosRetry.net w1)))
  ∧ (issued (UseAxiosRetry.net w2) = S (issued (UseAxiosRetry.net w1)) ->
     transmitted (UseAxiosRetry.net w2)
     = (if is_aborted UseAxiosRetry.cancelTokenSourceRef (UseAxiosRetry.net w1)
        then transmitted (UseAxiosRetry.net w1)
        else S (transmitted (UseAxiosRetry.net w1))))
  ∧ (UseAxiosRetry.effect_installed w = true ->
     transmitted (UseAxiosRetry.net w3) = transmitted (UseAxiosRetry.net w1)
     ∧ is_aborted UseAxiosRetry.cancelTokenSourceRef (UseAxiosRetry.net w3) = true).
Proof.
  intros w1 w2 w3.
  destruct (retry_resume_ok_frame Part008.cache_entry p t0 d w) as (Hn1 & Hi1 & Hc1).
  fold (Part008.fetchData_resume p t0 (Ok d) w) in Hn1, Hi1, Hc1. fold w1 in Hn1, Hi1, Hc1.
  split_and!.
  - intros Hc. rewrite Hc in Hc1.
    assert (Hcache : UseAxiosRetry.cacheRef w1 !! UseAxiosRetry.url p
                     = Some (Part008.Entry d t0)).
    { rewrite Hc1. by rewrite lookup_insert_eq. }
    assert (Hfresh : t - t0 < UseAxiosRetry.cacheExpiry p ->
                     UseAxiosRetry.net w2 = UseAxiosRetry.net w1
                     ∧ UseAxiosRetry.response w2 = d).
    { intros Ht.
      pose proof (part008_cache_hit_Some p t _ _ Hc Hcache Ht) as Hhit.
      destruct (retry_fetchData_hit Part008.cache_hit p t w1 _ Hhit)
        as (? & _ & _ & ? & _).
      done. }
    split; [|done]. split.
    + intros Hi. destruct (Z.lt_ge_cases (t - t0) (UseAxiosRetry.cacheExpiry p))
        as [Hlt|Hge]; [|done].
      destruct (Hfresh Hlt) as [Hn _]. rewrite Hn in Hi. lia.
    + intros Hge.
      assert (Hmiss : Part008.cache_hit t p (UseAxiosRetry.cacheRef w1) = None).
      { unfold Part008.cache_hit. rewrite Hcache, Hc. simpl.
        apply Z.ltb_ge in Hge. by rewrite Hge. }
      exact (proj1 (retry_miss_calls Part008.cache_hit p t w1 Hmiss)).
  - intros Hc. rewrite Hc in Hc1. split; [done|].
    assert (Hmiss : Part008.cache_hit t p (UseAxiosRetry.cacheRef w1) = None).
    { unfold Part008.cache_hit. rewrite Hc.
      by destruct (UseAxiosRetry.cacheRef w1 !! UseAxiosRetry.url p). }
    exact (proj1 (retry_miss_calls Part008.cache_hit p t w1 Hmiss)).
  - intros Hi.
    destruct (Part008.cache_hit t p (UseAxiosRetry.cacheRef w1)) as [d'|] eqn:E.
    + destruct (retry_fetchData_hit Part008.cache_hit p t w1 _ E)
        as (_ & _ & _ & Hn & _).
      fold (Part008.fetchData p t w1) in Hn. fold w2 in Hn. rewrite Hn in Hi. lia.
    + exact (proj2 (retry_miss_calls Part008.cache_hit p t w1 E)).
  - intros Hi. rewrite <- Hi1 in Hi.
    exact (retry_rerun_transmits_nothing Part008.cache_hit Part008.cache_entry
             p t w1 Hi).
Qed.

Lemma part008_cache_expiry_witness :
  let w1 := Part008.fetchData_resume sample_retry_props 1000 (Ok (JStr "post"))
              Part008.init in
  issued (UseAxiosRetry.net (Part008.fetchData sample_retry_props 61000 w1))
  = S (issued (UseAxiosRetry.net w1)).
Proof.
  apply (proj1 (proj1 (part008_cache_expiry sample_retry_props (JStr "post")
                         1000 61000 Part008.init) eq_refl)).
  vm_compute. discriminate.
Defined.

(** ** The paginated [useAxios] (part_000) *)

Section PagedFacts.
Variable stringify : obj -> string.

Abbreviation pfetch := (UseAxiosPaged.fetchData stringify).
Abbreviation psettle := (UseAxiosPaged.settle stringify).

Lemma paged_fetchData_miss p lm w :
  paged_cache_hit stringify p lm w = false ->
  pfetch p lm w
  = (let n0 := match UseAxiosPaged.cancelTokenSource w with
               | Some c => abort c (UseAxiosPaged.net w)
               | None => UseAxiosPaged.net w
               end in
     UseAxiosPaged.World
       (UseAxiosPaged.State (UseAxiosPaged.data (UseAxiosPaged.st w)) true None)
       (UseAxiosPaged.cacheData w)
       (Some (controllers n0))
       (UseAxiosPaged.retryCount w)
       (UseAxiosPaged.globalConfig w)
       (dispatch (controllers n0)
                 (spread (UseAxiosPaged.globalConfig w) (UseAxiosPaged.config p))
                 (p, lm) (snd (new_controller n0)))
       (UseAxiosPaged.calls w)
       (UseAxiosPaged.pagination w)
       (UseAxiosPaged.pagination_updates w)).
Proof.
  unfold paged_cache_hit, UseAxiosPaged.fetchData. intros ->.
  by destruct (UseAxiosPaged.cancelTokenSource w).
Qed.

Lemma paged_fetchData_hit p lm w :
  paged_cache_hit stringify p lm w = true ->
  pfetch p lm w
  = UseAxiosPaged.setState
      (UseAxiosPaged.State
         (get (UseAxiosPaged.cacheData w) (stringify (UseAxiosPaged.config p)))
         false None) w.
Proof. unfold paged_cache_hit, UseAxiosPaged.fetchData. by intros ->. Qed.

Lemma paged_settle_cases id rep w :
  match take_request id (pending (UseAxiosPaged.net w)) with
  | Some (r, rest) =>
      psettle id rep w
      = UseAxiosPaged.fetchData_resume stringify (fst (closure r)) (snd (closure r))
          (outcome (UseAxiosPaged.net w) r rep)
          (UseAxiosPaged.set_net (with_pending rest (UseAxiosPaged.net w)) w)
  | None => psettle id rep w = w
  end.
Proof.
  unfold UseAxiosPaged.settle.
  destruct (take_request id (pending (UseAxiosPaged.net w))) as [[r rest]|]; done.
Qed.

(** An attempt fails with retries left: the next attempt is in flight and the
    state still shows no error. *)
Lemma paged_next_attempt p lm err k d0 calls0 w :
  isCancel err = false ->
  k < UseAxiosPaged.retry p ->
  paged_attempt stringify p lm k d0 calls0 w ->
  ∃ r, pending (UseAxiosPaged.net w) = [r]
       ∧ issued (UseAxiosPaged.net (psettle (rid r) (Fail err) w))
         = S (issued (UseAxiosPaged.net w))
       ∧ paged_attempt stringify p lm (k + 1) d0 calls0
           (psettle (rid r) (Fail err) w).
Proof.
  intros Hc Hlt ((id & c & cfg & Hp & Hsrc & Hab) & [Hnum Hsrclt] & Hk & Hmiss & Hst & Hcalls).
  eexists. split; [exact Hp|].
  pose proof (paged_settle_cases id (Fail err) w) as H. rewrite Hp in H.
  simpl in H. rewrite bool_decide_true in H by done.
  simpl. rewrite H. unfold outcome. simpl. rewrite Hab.
  unfold UseAxiosPaged.fetchData_resume. rewrite Hc. simpl.
  rewrite Hk. apply Z.ltb_lt in Hlt as Hlt'. rewrite Hlt'.
  rewrite paged_fetchData_miss by done. simpl. rewrite Hsrc. simpl.
  split; [done|].
  specialize (Hsrclt c Hsrc).
  split_and!; [| |done|done|by rewrite Hst|done].
  - eexists _, _, _. split_and!; [done..|].
    unfold is_aborted. simpl. apply bool_decide_eq_false.
    intros [Heq|Hin]%elem_of_cons; [lia|]. specialize (Hnum _ Hin). lia.
  - split; simpl.
    + intros a [->|Hin]%elem_of_cons; [lia|]. specialize (Hnum _ Hin). lia.
    + intros c' [= <-]. lia.
Qed.

(** The attempt fails with no retry left: the error is stored, [data] is
    reset, [onError] is called, and nothing is in flight. *)
Lemma paged_last_attempt p lm err d0 calls0 w :
  isCancel err = false ->
  paged_attempt stringify p lm (UseAxiosPaged.retry p) d0 calls0 w ->
  ∃ r, pending (UseAxiosPaged.net w) = [r]
       ∧ let w' := psettle (rid r) (Fail err) w in
         issued (UseAxiosPaged.net w') = issued (UseAxiosPaged.net w)
         ∧ pending (UseAxiosPaged.net w') = []
         ∧ UseAxiosPaged.st w' = UseAxiosPaged.State JNull false (Some err)
         ∧ UseAxiosPaged.calls w'
           = calls0 ++ (if UseAxiosPaged.onError p then [OnError err] else []).
Proof.
  intros Hc ((id & c & cfg & Hp & Hsrc & Hab) & _ & Hk & Hmiss & Hst & Hcalls).
  eexists. split; [exact Hp|].
  pose proof (paged_settle_cases id (Fail err) w) as H. rewrite Hp in H.
  simpl in H. rewrite bool_decide_true in H by done.
  simpl. rewrite H. unfold outcome. simpl. rewrite Hab.
  unfold UseAxiosPaged.fetchData_resume. rewrite Hc. simpl.
  rewrite Hk, Z.ltb_irrefl.
  destruct (UseAxiosPaged.onError p); simpl; rewrite Hcalls, ?app_nil_r; done.
Qed.

Lemma paged_fail_all_idle fuel err w :
  pending (UseAxiosPaged.net w) = [] -> paged_fail_all stringify fuel err w = w.
Proof. intros Hp. destruct fuel; simpl; [done|]. by rewrite Hp. Qed.

Lemma paged_fail_all_progress p lm err d0 calls0 (j : nat) :
  isCancel err = false ->
  ∀ k w,
    k + Z.of_nat j <= UseAxiosPaged.retry p ->
    paged_attempt stringify p lm k d0 calls0 w ->
    let w' := paged_fail_all stringify j err w in
    issued (UseAxiosPaged.net w') = (issued (UseAxiosPaged.net w) + j)%nat
    ∧ paged_attempt stringify p lm (k + Z.of_nat j) d0 calls0 w'.
Proof.
  intros Hc. induction j as [|j IH]; intros k w Hle Hin.
  - simpl. rewrite Nat.add_0_r, Z.add_0_r. done.
  - destruct (paged_next_attempt p lm err k d0 calls0 w Hc ltac:(lia) Hin)
      as (r & Hp & Hi & Hin').
    simpl paged_fail_all. rewrite Hp.
    destruct (IH (k + 1) _ ltac:(lia) Hin') as [Hi' Hin''].
    cbv zeta in *. rewrite Hi', Hi.
    replace (k + Z.of_nat (S j)) with (k + 1 + Z.of_nat j) by lia.
    split; [lia|done].
Qed.

Lemma paged_fresh_call_attempt p lm w :
  paged_fresh_call stringify p lm w ->
  issued (UseAxiosPaged.net (pfetch p lm w)) = S (issued (UseAxiosPaged.net w))
  ∧ paged_attempt stringify p lm 0
      (UseAxiosPaged.data (UseAxiosPaged.st w)) (UseAxiosPaged.calls w)
      (pfetch p lm w).
Proof.
  intros (Hk & Hp & [Hnum Hsrc] & Hmiss).
  rewrite paged_fetchData_miss by done.
  destruct (UseAxiosPaged.cancelTokenSource w) as [c|] eqn:Hc; simpl;
    rewrite Hp; simpl; (split; [done|]);
    (split_and!; [|split; simpl| | | |]; try done).
  - eexists _, _, _. split_and!; [done..|].
    unfold is_aborted. simpl. apply bool_decide_eq_false.
    intros [Heq|Hin]%elem_of_cons; [specialize (Hsrc c eq_refl); lia|].
    specialize (Hnum _ Hin). lia.
  - intros a [->|Hin]%elem_of_cons; [specialize (Hsrc c eq_refl); lia|].
    specialize (Hnum _ Hin). lia.
  - intros c' [= <-]. lia.
  - eexists _, _, _. split_and!; [done..|].
    unfold is_aborted. simpl. apply bool_decide_eq_false.
    intros Hin. specialize (Hnum _ Hin). lia.
  - intros a Hin. specialize (Hnum _ Hin). lia.
  - intros c' [= <-]. lia.
Qed.

Lemma paged_fail_all_add (a b : nat) err w :
  paged_fail_all stringify (a + b) err w
  = paged_fail_all stringify b err (paged_fail_all stringify a err w).
Proof.
  revert w. induction a as [|a IH]; intros w; [done|].
  simpl. destruct (pending (UseAxiosPaged.net w)) as [|r l] eqn:Hp.
  - by rewrite paged_fail_all_idle.
  - apply IH.
Qed.

Lemma paged_fail_all_exhausted p lm err w (j : nat) :
  isCancel err = false ->
  0 <= UseAxiosPaged.retry p ->
  paged_fresh_call stringify p lm w ->
  UseAxiosPaged.retry p < Z.of_nat j ->
  let w' := paged_fail_all stringify j err (pfetch p lm w) in
  issued (UseAxiosPaged.net w')
  = (issued (UseAxiosPaged.net w) + (Z.to_nat (UseAxiosPaged.retry p) + 1))%nat
  ∧ pending (UseAxiosPaged.net w') = []
  ∧ UseAxiosPaged.st w' = UseAxiosPaged.State JNull false (Some err)
  ∧ UseAxiosPaged.calls w'
    = UseAxiosPaged.calls w
      ++ (if UseAxiosPaged.onError p then [OnError err] else []).
Proof.
  intros Hc Hr Hfresh Hj.
  destruct (paged_fresh_call_attempt p lm w Hfresh) as [Hi0 Hin0].
  set (n := Z.to_nat (UseAxiosPaged.retry p)).
  replace j with (n + (1 + (j - n - 1)))%nat by lia.
  rewrite !paged_fail_all_add.
  destruct (paged_fail_all_progress p lm err _ _ n Hc 0 _ ltac:(lia) Hin0)
    as [Hi Hin].
  replace (0 + Z.of_nat n) with (UseAxiosPaged.retry p) in Hin by lia.
  destruct (paged_last_attempt p lm err _ _ _ Hc Hin) as (r & Hp & Hi' & Hp' & Hst & Hcalls).
  cbv zeta in *.
  assert (Hone : paged_fail_all stringify 1 err
                   (paged_fail_all stringify n err (pfetch p lm w))
                 = psettle (rid r) (Fail err)
                     (paged_fail_all stringify n err (pfetch p lm w))).
  { simpl. by rewrite Hp. }
  rewrite Hone, paged_fail_all_idle by done.
  rewrite Hi', Hi, Hi0. split_and!; [lia|done..].
Qed.

End PagedFacts.

(** X9. The paginated [useAxios] (part_000), for a call that starts with the
    retry counter at zero and misses the cache, with [retry = N >= 0] and
    every attempt failing with an error that is not a cancellation: after
    [j <= N] failures [j + 1] requests have been sent, a request is in
    flight and the state still shows [loading] without any error; once more
    than [N] attempts have failed, exactly [N + 1] requests were sent, nothing
    is in flight, the state is [{data: null, loading: false, error}], and
    [onError], when supplied, was called exactly once. *)
Theorem paged_retry_attempts
    (stringify : obj -> string) (p : UseAxiosPaged.props) (isLoadMore : bool)
    (err : thrown) (w : UseAxiosPaged.world) (j : nat) :
  isCancel err = false ->
  0 <= UseAxiosPaged.retry p ->
  paged_fresh_call stringify p isLoadMore w ->
  let w' := paged_fail_all stringify j err
              (UseAxiosPaged.fetchData stringify p isLoadMore w) in
  (Z.of_nat j <= UseAxiosPaged.retry p ->
   issued (UseAxiosPaged.net w') = (issued (UseAxiosPaged.net w) + 1 + j)%nat
   ∧ length (pending (UseAxiosPaged.net w')) = 1%nat
   ∧ UseAxiosPaged.st w'
     = UseAxiosPaged.State (UseAxiosPaged.data (UseAxiosPaged.st w)) true None
   ∧ UseAxiosPaged.calls w' = UseAxiosPaged.calls w)
  ∧ (UseAxiosPaged.retry p < Z.of_nat j ->
     issued (UseAxiosPaged.net w')
     = (issued (UseAxiosPaged.net w) + (Z.to_nat (UseAxiosPaged.retry p) + 1))%nat
     ∧ pending (UseAxiosPaged.net w') = []
     ∧ UseAxiosPaged.st w' = UseAxiosPaged.State JNull false (Some err)
     ∧ UseAxiosPaged.calls w'
       = UseAxiosPaged.calls w
         ++ (if UseAxiosPaged.onError p then [OnError err] else [])).
Proof.
  intros Hc Hr Hfresh w'. split; intros Hj.
  - destruct (paged_fresh_call_attempt stringify p isLoadMore w Hfresh) as [Hi0 Hin0].
    destruct (paged_fail_all_progress stringify p isLoadMore err _ _ j Hc 0 _
                ltac:(lia) Hin0) as [Hi Hin].
    fold w' in Hi, Hin.
    destruct Hin as ((id & c & cfg & Hp & _) & _ & _ & _ & Hst & Hcalls).
    rewrite Hi, Hi0, Hp. split_and!; [lia|done..].
  - by apply paged_fail_all_exhausted.
Qed.

Lemma paged_retry_attempts_witness :
  let p := UseAxiosPaged.Props {[ "url" := JStr "/users" ]} true false 2 false true in
  let w' := paged_fail_all (fun _ => "k") 3 (AxiosError (BadStatus 503) "unavailable")
              (UseAxiosPaged.fetchData (fun _ => "k") p false
                 (UseAxiosPaged.init p ∅)) in
  issued (UseAxiosPaged.net w') = 3%nat
  ∧ UseAxiosPaged.st w'
    = UseAxiosPaged.State JNull false
        (Some (AxiosError (BadStatus 503) "unavailable"))
  ∧ UseAxiosPaged.calls w' = [OnError (AxiosError (BadStatus 503) "unavailable")].
Proof.
  intros p w'.
  destruct (proj2 (paged_retry_attempts (fun _ => "k") p false
                     (AxiosError (BadStatus 503) "unavailable")
                     (UseAxiosPaged.init p ∅) 3
                     eq_refl ltac:(vm_compute; discriminate)
                     ltac:(repeat split; intros ? H; vm_compute in H;
                           try discriminate; by apply elem_of_nil in H)))
    as (Hi & _ & Hst & Hcalls).
  - vm_compute. reflexivity.
  - exact (conj Hi (conj Hst Hcalls)).
Defined.

Section PagedCancellation.
Variable stringify : obj -> string.

Lemma paged_inv_frame w w' :
  UseAxiosPaged.net w' = UseAxiosPaged.net w ->
  UseAxiosPaged.cancelTokenSource w' = UseAxiosPaged.cancelTokenSource w ->
  paged_inv w -> paged_inv w'.
Proof. unfold paged_inv. intros -> ->. done. Qed.

Lemma paged_inv_fetchData p lm w :
  paged_inv w -> paged_inv (UseAxiosPaged.fetchData stringify p lm w).
Proof.
  intros Hinv. destruct (paged_cache_hit stringify p lm w) eqn:Hhit.
  - rewrite paged_fetchData_hit by done. by apply (paged_inv_frame w).
  - rewrite paged_fetchData_miss by done.
    destruct (UseAxiosPaged.cancelTokenSource w) as [c|] eqn:Hsrc; simpl;
      intros r [Hr|Hr%list_elem_of_singleton]%elem_of_app; simpl;
      try (subst r; by right);
      left; destruct (Hinv r Hr) as [Ha|Hs]; try congruence.
    + apply is_aborted_abort. by right.
    + apply is_aborted_abort. left. congruence.
    + done.
Qed.

Lemma paged_inv_resume p lm res w :
  paged_inv w -> paged_inv (UseAxiosPaged.fetchData_resume stringify p lm res w).
Proof.
  intros Hinv. unfold UseAxiosPaged.fetchData_resume. destruct res as [d|err].
  - apply (paged_inv_frame w); [| |done];
      destruct (UseAxiosPaged.cache p), lm, (UseAxiosPaged.onSuccess p); done.
  - destruct (isCancel err); [done|].
    destruct (_ <? _).
    + apply paged_inv_fetchData. by apply (paged_inv_frame w).
    + apply (paged_inv_frame w); [| |done]; by destruct (UseAxiosPaged.onError p).
Qed.

Lemma paged_inv_step ev w :
  paged_inv w -> paged_inv (paged_step stringify ev w).
Proof.
  intros Hinv. destruct ev as [p lm|id rep|]; simpl.
  - by apply paged_inv_fetchData.
  - pose proof (paged_settle_cases stringify id rep w) as H.
    destruct (take_request id (pending (UseAxiosPaged.net w))) as [[r rest]|] eqn:E;
      rewrite H; [|done].
    apply paged_inv_resume. intros x Hx. simpl in *.
    apply take_request_Some in E as (_ & _ & Hsub & _).
    apply (Hinv x). by apply Hsub.
  - unfold UseAxiosPaged.unmount.
    destruct (UseAxiosPaged.cancelTokenSource w) as [c|] eqn:Hsrc; [|done].
    intros r Hr. simpl in *. destruct (Hinv r Hr) as [Ha|Hs]; [left|right; congruence].
    apply is_aborted_abort. by right.
Qed.

Lemma paged_inv_exec evs w :
  paged_inv w -> paged_inv (paged_exec stringify evs w).
Proof.
  revert w. induction evs as [|ev evs IH]; intros w Hw; [done|].
  simpl. by apply IH, paged_inv_step.
Qed.

Lemma paged_inv_init p g : paged_inv (UseAxiosPaged.init p g).
Proof. by intros r ?%elem_of_nil. Qed.

Lemma paged_cancelled_frame w id rep :
  ends_cancelled (UseAxiosPaged.net w) id rep ->
  let w' := UseAxiosPaged.settle stringify id rep w in
  UseAxiosPaged.st w' = UseAxiosPaged.st w
  ∧ UseAxiosPaged.cacheData w' = UseAxiosPaged.cacheData w
  ∧ UseAxiosPaged.retryCount w' = UseAxiosPaged.retryCount w
  ∧ UseAxiosPaged.calls w' = UseAxiosPaged.calls w
  ∧ issued (UseAxiosPaged.net w') = issued (UseAxiosPaged.net w).
Proof.
  intros Hend. cbv zeta.
  pose proof (paged_settle_cases stringify id rep w) as H.
  destruct (take_request id (pending (UseAxiosPaged.net w))) as [[r rest]|] eqn:E;
    rewrite H; [|done].
  destruct (outcome_cancelled (UseAxiosPaged.net w) id rep _ r rest
              (ends_cancelled_with_pending _ _ _ Hend) E) as (err & -> & Hc).
  unfold UseAxiosPaged.fetchData_resume. by rewrite Hc.
Qed.

End PagedCancellation.

(** X10. The paginated [useAxios] (part_000): a call of [fetchData] that
    misses the cache first cancels the token of every request of the
    instance still in flight, whereas a call answered by the cache neither
    cancels nor sends anything; the unmount cancels every request in flight;
    and a request that ends cancelled changes nothing at all: the state, the
    cache, the retry counter and the callbacks invoked stay as they are and
    no retry is sent. *)
Theorem paged_cancels_previous
    (stringify : obj -> string) (p0 : UseAxiosPaged.props) (g : obj)
    (evs : list paged_event) (p : UseAxiosPaged.props) (isLoadMore : bool) :
  let w := paged_exec stringify evs (UseAxiosPaged.init p0 g) in
  let w1 := UseAxiosPaged.fetchData stringify p isLoadMore w in
  (paged_cache_hit stringify p isLoadMore w = false ->
   Forall (fun r => is_aborted (signal r) (UseAxiosPaged.net w1) = true)
          (pending (UseAxiosPaged.net w))
   ∧ issued (UseAxiosPaged.net w1) = S (issued (UseAxiosPaged.net w)))
  ∧ (paged_cache_hit stringify p isLoadMore w = true ->
     UseAxiosPaged.net w1 = UseAxiosPaged.net w)
  ∧ all_cancelled (UseAxiosPaged.net (UseAxiosPaged.unmount w))
  ∧ (∀ w2 id rep,
       ends_cancelled (UseAxiosPaged.net w2) id rep ->
       let w3 := UseAxiosPaged.settle stringify id rep w2 in
       UseAxiosPaged.st w3 = UseAxiosPaged.st w2
       ∧ UseAxiosPaged.cacheData w3 = UseAxiosPaged.cacheData w2
       ∧ UseAxiosPaged.retryCount w3 = UseAxiosPaged.retryCount w2
       ∧ UseAxiosPaged.calls w3 = UseAxiosPaged.calls w2
       ∧ issued (UseAxiosPaged.net w3) = issued (UseAxiosPaged.net w2)).
Proof.
  intros w w1.
  assert (Hinv : paged_inv w) by apply paged_inv_exec, paged_inv_init.
  split_and!.
  - intros Hmiss. subst w1. rewrite paged_fetchData_miss by done.
    split.
    + apply Forall_forall. intros r Hr.
      destruct (UseAxiosPaged.cancelTokenSource w) as [c|] eqn:Hsrc; simpl;
        destruct (Hinv r Hr) as [Ha|Hs]; try congruence.
      * apply is_aborted_abort. by right.
      * apply is_aborted_abort. left. congruence.
      * done.
    + by destruct (UseAxiosPaged.cancelTokenSource w).
  - intros Hhit. subst w1. by rewrite paged_fetchData_hit.
  - apply Forall_forall. intros r Hr. unfold UseAxiosPaged.unmount in *.
    destruct (UseAxiosPaged.cancelTokenSource w) as [c|] eqn:Hsrc; simpl in *;
      destruct (Hinv r Hr) as [Ha|Hs]; try done; try congruence.
    + apply is_aborted_abort. by right.
    + apply is_aborted_abort. left. congruence.
  - intros w2 id rep Hend. by apply paged_cancelled_frame.
Qed.

Lemma paged_cancels_previous_witness :
  let p := UseAxiosPaged.Props {[ "url" := JStr "/users" ]} true false 2 false true in
  let w := paged_exec (fun _ => "k") [PFetch p false] (UseAxiosPaged.init p ∅) in
  Forall (fun r => is_aborted (signal r)
                     (UseAxiosPaged.net (UseAxiosPaged.fetchData (fun _ => "k") p true w))
                   = true)
         (pending (UseAxiosPaged.net w)).
Proof.
  intros p w.
  apply (proj1 (paged_cancels_previous (fun _ => "k") p ∅ [PFetch p false] p true)).
  reflexivity.
Defined.

(** X11. Cache and pagination of the paginated [useAxios] (part_000). A
    response is shown as [data], with [loading] off, and is written to the
    cache only when [cache] is on and the call is not a [loadMore]; a later
    plain call with the same configuration is answered from the cache,
    without any request, exactly when the cached data is truthy. The
    response also queues one pagination updater, run by the next render. For
    a plain call that render shows the response as the items of page 1, with
    [hasMore] on. For a [loadMore] call the updater spreads the items of the
    last render and the response into a new array: when one of the two
    cannot be spread the render throws; otherwise the elements are appended,
    the page number goes up by one and [hasMore] says whether the response
    has a positive length. After a render that did not throw, [loadMore]
    calls [fetchData(true)], which goes past the cache and makes a request,
    only while [hasMore] is on; otherwise it does nothing. *)
Theorem paged_cache_round_trip
    (stringify : obj -> string)
    (spread_elements : jsval -> option (list jsval))
    (length_positive : jsval -> bool)
    (p : UseAxiosPaged.props) (isLoadMore : bool)
    (d : jsval) (w : UseAxiosPaged.world) :
  let key := stringify (UseAxiosPaged.config p) in
  let prev := UseAxiosPaged.pagination w in
  let w1 := UseAxiosPaged.fetchData_resume stringify p isLoadMore (Ok d) w in
  UseAxiosPaged.st w1 = UseAxiosPaged.State d false None
  ∧ UseAxiosPaged.cacheData w1
    = (if UseAxiosPaged.cache p && negb isLoadMore
       then <[key := d]> (UseAxiosPaged.cacheData w)
       else UseAxiosPaged.cacheData w)
  ∧ UseAxiosPaged.pagination w1 = prev
  ∧ UseAxiosPaged.pagination_updates w1
    = UseAxiosPaged.pagination_updates w
      ++ [if isLoadMore then UseAxiosPaged.NextPage d else UseAxiosPaged.FirstPage d]
  ∧ (UseAxiosPaged.pagination_updates w = [] ->
     UseAxiosPaged.render spread_elements length_positive w1
     = (if isLoadMore then
          match UseAxiosPaged.items_elements spread_elements
                  (UseAxiosPaged.items prev),
                spread_elements d with
          | Some l1, Some l2 =>
              Some (UseAxiosPaged.set_pagination
                      (UseAxiosPaged.Pagination
                         (UseAxiosPaged.page prev + 1) (UseAxiosPaged.pageSize prev)
                         (length_positive d) (UseAxiosPaged.total prev)
                         (UseAxiosPaged.ItemsArray (l1 ++ l2))) w1)
          | _, _ => None
          end
        else
          Some (UseAxiosPaged.set_pagination
                  (UseAxiosPaged.Pagination
                     1 (UseAxiosPaged.pageSize prev) true (UseAxiosPaged.total prev)
                     (UseAxiosPaged.ItemsData d)) w1)))
  ∧ (UseAxiosPaged.cache p = true -> isLoadMore = false ->
     (truthy d = true ->
      let w2 := UseAxiosPaged.fetchData stringify p false w1 in
      UseAxiosPaged.net w2 = UseAxiosPaged.net w1
      ∧ UseAxiosPaged.st w2 = UseAxiosPaged.State d false None)
     ∧ (truthy d = false ->
        issued (UseAxiosPaged.net (UseAxiosPaged.fetchData stringify p false w1))
        = S (issued (UseAxiosPaged.net w1))))
  ∧ (∀ wr, UseAxiosPaged.render spread_elements length_positive w1 = Some wr ->
       let w2 := UseAxiosPaged.loadMore stringify p wr in
       if UseAxiosPaged.hasMore (UseAxiosPaged.pagination wr)
       then issued (UseAxiosPaged.net w2) = S (issued (UseAxiosPaged.net wr))
       else w2 = wr).
Proof.
  intros key prev w1.
  assert (Hst : UseAxiosPaged.st w1 = UseAxiosPaged.State d false None).
  { subst w1. unfold UseAxiosPaged.fetchData_resume.
    by destruct (UseAxiosPaged.cache p), isLoadMore, (UseAxiosPaged.onSuccess p). }
  assert (Hcache : UseAxiosPaged.cacheData w1
                   = (if UseAxiosPaged.cache p && negb isLoadMore
                      then <[key := d]> (UseAxiosPaged.cacheData w)
                      else UseAxiosPaged.cacheData w)).
  { subst w1. unfold UseAxiosPaged.fetchData_resume.
    by destruct (UseAxiosPaged.cache p), isLoadMore, (UseAxiosPaged.onSuccess p). }
  assert (Hpg : UseAxiosPaged.pagination w1 = prev).
  { subst w1. unfold UseAxiosPaged.fetchData_resume.
    by destruct (UseAxiosPaged.cache p), isLoadMore, (UseAxiosPaged.onSuccess p). }
  assert (Hq : UseAxiosPaged.pagination_updates w1
               = UseAxiosPaged.pagination_updates w
                 ++ [if isLoadMore then UseAxiosPaged.NextPage d
                     else UseAxiosPaged.FirstPage d]).
  { subst w1. unfold UseAxiosPaged.fetchData_resume.
    by destruct (UseAxiosPaged.cache p), isLoadMore, (UseAxiosPaged.onSuccess p). }
  assert (Hmore : ∀ w0, paged_cache_hit stringify p true w0 = false).
  { intros w0. unfold paged_cache_hit. simpl. by rewrite andb_false_r. }
  split_and!; [done|done|done|done| | |].
  - intros Hempty. unfold UseAxiosPaged.render. rewrite Hq, Hpg, Hempty. simpl.
    destruct isLoadMore; simpl; [|done].
    by destruct (UseAxiosPaged.items_elements _ _), (spread_elements d).
  - intros Hc ->.
    assert (Hget : get (UseAxiosPaged.cacheData w1) key = d).
    { rewrite Hcache, Hc. simpl. unfold get. by rewrite lookup_insert_eq. }
    split; intros Ht.
    + assert (Hhit : paged_cache_hit stringify p false w1 = true).
      { unfold paged_cache_hit. fold key. by rewrite Hc, Hget, Ht. }
      intros w2. subst w2. rewrite paged_fetchData_hit by done. fold key.
      by rewrite Hget.
    + assert (Hmiss : paged_cache_hit stringify p false w1 = false).
      { unfold paged_cache_hit. fold key. by rewrite Hc, Hget, Ht. }
      rewrite paged_fetchData_miss by done.
      by destruct (UseAxiosPaged.cancelTokenSource w1).
  - intros wr _. unfold UseAxiosPaged.loadMore.
    destruct (UseAxiosPaged.hasMore (UseAxiosPaged.pagination wr)); [|done].
    rewrite paged_fetchData_miss by done.
    by destruct (UseAxiosPaged.cancelTokenSource wr).
Qed.

(** A paginated endpoint that answers with an object around the rows: the
    first page renders, and the render after a [loadMore] throws. *)
Lemma paged_cache_round_trip_witness :
  let p := UseAxiosPaged.Props {[ "url" := JStr "/users" ]} true true 0 false false in
  let elements := fun v : jsval => @None (list jsval) in
  let w1 := UseAxiosPaged.fetchData_resume (fun _ => "k") p true (Ok (JObj 7))
              (UseAxiosPaged.init p ∅) in
  UseAxiosPaged.render elements (fun _ => false) w1 = None.
Proof.
  intros p elements w1.
  exact (proj1 (proj2 (proj2 (proj2 (proj2
           (paged_cache_round_trip (fun _ => "k") elements (fun _ => false) p true
              (JObj 7) (UseAxiosPaged.init p ∅)))))) eq_refl).
Defined.

(** ** [useAxios] with a keyed cache (part_010): overlapping calls *)

Lemma cached_execute_miss p now cfg w :
  UseAxiosCached.cache_lookup p now (UseAxiosCached.cacheStore w) = None ->
  let w' := UseAxiosCached.execute p now cfg w in
  UseAxiosCached.net w'
  = dispatch (controllers (UseAxiosCached.net w))
             (spread (UseAxiosCached.config p) (default ∅ cfg)) p
             (snd (new_controller (UseAxiosCached.net w)))
  ∧ UseAxiosCached.abortControllerRef w' = Some (controllers (UseAxiosCached.net w))
  ∧ UseAxiosCached.cacheStore w' = UseAxiosCached.cacheStore w
  ∧ UseAxiosCached.loading w' = true
  ∧ UseAxiosCached.error w' = None
  ∧ UseAxiosCached.data w' = UseAxiosCached.data w.
Proof. intros Hmiss. unfold UseAxiosCached.execute. simpl. by rewrite Hmiss. Qed.

(** X12. [useAxios] of part_010: [execute] never aborts anything, so calls
    may overlap; the ref then holds the controller of the latest call only,
    and [cancel] aborts that one alone. After two calls that both miss the
    cache, [cancel] leaves the first request with its signal intact (so that
    it still delivers) and cancels the second. *)
Theorem cached_cancel_latest_only
    (p1 p2 : UseAxiosCached.props) (now1 now2 : Z) (cfg1 cfg2 : option obj)
    (w : UseAxiosCached.world) :
  (∀ a, a ∈ aborted (UseAxiosCached.net w) ->
        (a < controllers (UseAxiosCached.net w))%nat) ->
  UseAxiosCached.cache_lookup p1 now1 (UseAxiosCached.cacheStore w) = None ->
  UseAxiosCached.cache_lookup p2 now2 (UseAxiosCached.cacheStore w) = None ->
  let w2 := UseAxiosCached.execute p2 now2 cfg2
              (UseAxiosCached.execute p1 now1 cfg1 w) in
  aborted (UseAxiosCached.net w2) = aborted (UseAxiosCached.net w)
  ∧ ∃ r1 r2,
      pending (UseAxiosCached.net (cached_cancel w2))
      = pending (UseAxiosCached.net w) ++ [r1; r2]
      ∧ closure r1 = p1 ∧ closure r2 = p2
      ∧ is_aborted (signal r1) (UseAxiosCached.net (cached_cancel w2)) = false
      ∧ is_aborted (signal r2) (UseAxiosCached.net (cached_cancel w2)) = true.
Proof.
  intros Hnum Hm1 Hm2 w2.
  destruct (cached_execute_miss p1 now1 cfg1 w Hm1) as (Hn1 & Hr1 & Hc1 & _).
  set (w1 := UseAxiosCached.execute p1 now1 cfg1 w) in *.
  assert (Hm2' : UseAxiosCached.cache_lookup p2 now2 (UseAxiosCached.cacheStore w1) = None)
    by by rewrite Hc1.
  destruct (cached_execute_miss p2 now2 cfg2 w1 Hm2') as (Hn2 & Hr2 & _).
  fold w2 in Hn2, Hr2.
  split; [by rewrite Hn2, Hn1|].
  unfold cached_cancel. rewrite Hr2, Hn2, Hn1. simpl.
  eexists _, _. rewrite <- app_assoc. simpl. split_and!; [done..| |].
  - unfold is_aborted. simpl. apply bool_decide_eq_false.
    intros [?|Hin]%elem_of_cons; [lia|]. specialize (Hnum _ Hin). lia.
  - unfold is_aborted. simpl. apply bool_decide_eq_true. by left.
Qed.

Lemma cached_cancel_latest_only_witness :
  let w2 := UseAxiosCached.execute sample_cached_props 5 None
              (UseAxiosCached.execute sample_cached_props 0 None
                 (UseAxiosCached.init ∅)) in
  aborted (UseAxiosCached.net w2) = [].
Proof.
  intros w2.
  refine (proj1 (cached_cancel_latest_only sample_cached_props sample_cached_props
                   0 5 None None (UseAxiosCached.init ∅) _ eq_refl eq_refl)).
  intros a Ha. vm_compute in Ha. by apply elem_of_nil in Ha.
Defined.

(** ** [FilterDrawer] (part_003) *)

Section FilterDrawerFacts.
Context {date : Type} (dayjs_format : FilterDrawer.value date -> string)
  (inherited : string -> bool).

Lemma filterDrawer_apply_own (filters : list FilterDrawer.FilterOption)
    (s : FilterDrawer.state date) (key : string) :
  FilterDrawer.own (FilterDrawer.handleApply date dayjs_format filters s).1 !! key
  = if String.eqb key "__proto__" then None
    else FilterDrawer.filterValues date s !! key ≫= filterDrawer_formatted dayjs_format filters key.
Proof.
  unfold FilterDrawer.handleApply. simpl.
  apply (map_fold_weak_ind
           (fun r m => FilterDrawer.own r !! key
                       = if String.eqb key "__proto__" then None
                         else m !! key ≫= filterDrawer_formatted dayjs_format filters key)).
  - simpl. rewrite !lookup_empty. by destruct (String.eqb _ _).
  - intros i x m r Hi IH.
    unfold FilterDrawer.format_entry, FilterDrawer.assign, filterDrawer_formatted in *.
    fold (FilterDrawer.is_date_filter filters i).
    destruct (String.eqb_spec key "__proto__") as [->|Hk].
    + destruct (FilterDrawer.is_date_filter filters i && FilterDrawer.value_truthy date x),
        x, (String.eqb_spec i "__proto__"); simpl; try exact IH;
        by rewrite lookup_insert_ne.
    + destruct (decide (i = key)) as [->|Hne].
      * rewrite lookup_insert_eq. simpl.
        destruct (String.eqb_spec key "__proto__"); [done|].
        destruct (FilterDrawer.is_date_filter filters key
                  && FilterDrawer.value_truthy date x); simpl.
        -- by rewrite lookup_insert_eq.
        -- destruct x; simpl; [by rewrite IH, Hi|by rewrite lookup_insert_eq].
      * rewrite (lookup_insert_ne m) by done. rewrite <- IH.
        destruct (FilterDrawer.is_date_filter filters i && FilterDrawer.value_truthy date x),
          x, (String.eqb_spec i "__proto__"); simpl; try done;
          by rewrite lookup_insert_ne.
Qed.

Lemma filterDrawer_apply_proto (filters : list FilterDrawer.FilterOption)
    (s : FilterDrawer.state date) :
  FilterDrawer.proto (FilterDrawer.handleApply date dayjs_format filters s).1
  = FilterDrawer.filterValues date s !! "__proto__" ≫= fun v =>
      match filterDrawer_formatted dayjs_format filters "__proto__" v with
      | Some (FilterDrawer.AList ids) => Some ids
      | _ => None
      end.
Proof.
  unfold FilterDrawer.handleApply. simpl.
  apply (map_fold_weak_ind
           (fun r m => FilterDrawer.proto r
                       = m !! "__proto__" ≫= fun v =>
                           match filterDrawer_formatted dayjs_format filters "__proto__" v with
                           | Some (FilterDrawer.AList ids) => Some ids
                           | _ => None
                           end)).
  - simpl. by rewrite lookup_empty.
  - intros i x m r Hi IH.
    unfold FilterDrawer.format_entry, FilterDrawer.assign, filterDrawer_formatted in *.
    fold (FilterDrawer.is_date_filter filters i).
    destruct (String.eqb_spec i "__proto__") as [->|Hk].
    + rewrite lookup_insert_eq. simpl. rewrite Hi in IH. simpl in IH.
      destruct (FilterDrawer.is_date_filter filters "__proto__"
                && FilterDrawer.value_truthy date x); simpl; [done|].
      by destruct x.
    + rewrite lookup_insert_ne by done. rewrite <- IH.
      by destruct (FilterDrawer.is_date_filter filters i
                   && FilterDrawer.value_truthy date x), x.
Qed.

Lemma filterDrawer_selection_of_selected (field : string)
    (s : FilterDrawer.state date) (l : list string) :
  FilterDrawer.selection_of inherited field (FilterDrawer.selectedListItems date s)
  = Some l ->
  l = FilterDrawer.selected date s field.
Proof.
  unfold FilterDrawer.selection_of, FilterDrawer.selected.
  destruct (_ !! field); simpl; [congruence|].
  destruct (inherited field); congruence.
Qed.

Lemma filterDrawer_selection_of_None (field : string)
    (s : FilterDrawer.state date) :
  FilterDrawer.selection_of inherited field (FilterDrawer.selectedListItems date s)
  = None
  ↔ FilterDrawer.selectedListItems date s !! field = None ∧ inherited field = true.
Proof.
  unfold FilterDrawer.selection_of.
  destruct (_ !! field); [split; [done|by intros [? _]]|].
  destruct (inherited field); split; try done. by intros [_ ?].
Qed.

Lemma filterDrawer_selection_readable (field : string)
    (s : FilterDrawer.state date) :
  FilterDrawer.selection_readable date inherited s field ->
  FilterDrawer.selection_of inherited field (FilterDrawer.selectedListItems date s)
  = Some (FilterDrawer.selected date s field).
Proof.
  unfold FilterDrawer.selection_readable, FilterDrawer.selection_of,
    FilterDrawer.selected.
  intros [[l ->]| ->]; [done|]. by destruct (_ !! field).
Qed.

Lemma filterDrawer_toggle_Some (field itemId : string)
    (s s' : FilterDrawer.state date) :
  FilterDrawer.handleListItemToggle date inherited field itemId s = Some s' ->
  let new := if bool_decide (itemId ∈ FilterDrawer.selected date s field)
             then filter (fun id => id ≠ itemId) (FilterDrawer.selected date s field)
             else FilterDrawer.selected date s field ++ [itemId] in
  s' = FilterDrawer.State date (FilterDrawer.open date s)
         (<[field := FilterDrawer.VList date new]> (FilterDrawer.filterValues date s))
         (FilterDrawer.expandedSelects date s)
         (<[field := new]> (FilterDrawer.selectedListItems date s)).
Proof.
  unfold FilterDrawer.handleListItemToggle.
  destruct (FilterDrawer.selection_of _ _ _) as [l|] eqn:E; [|done].
  apply filterDrawer_selection_of_selected in E as ->. by intros [= <-].
Qed.

Lemma filterDrawer_toggle_own (field itemId : string)
    (s : FilterDrawer.state date) (l : list string) :
  FilterDrawer.selectedListItems date s !! field = Some l ->
  is_Some (FilterDrawer.handleListItemToggle date inherited field itemId s).
Proof.
  intros Hl. unfold FilterDrawer.handleListItemToggle, FilterDrawer.selection_of.
  by rewrite Hl.
Qed.

End FilterDrawerFacts.

Lemma filter_ne_absent (x : string) (l : list string) :
  x ∉ l -> filter (fun y => y ≠ x) l = l.
Proof.
  induction l as [|y l IH]; intros Hx; [done|].
  rewrite filter_cons_True.
  - f_equal. apply IH. intros ?. apply Hx. by right.
  - intros ->. apply Hx. by left.
Qed.

(** X13. [handleListItemToggle] of the filter drawer (part_003). The click
    throws a TypeError, before any state is written, exactly when the cell
    [selectedListItems] owns nothing under the field and the field names a
    member of [Object.prototype] ([constructor], [toString], ...), for then
    [prev[field] || []] is that member and has no [includes]. In every other
    case the click flips the membership of the item in the selection of its
    field and of no other item, keeps the selection free of duplicates,
    leaves the selections of the other fields and the other cells alone and
    mirrors the new selection into [filterValues]; and a click that selects
    an item followed by a click that deselects it restores the selection. *)
Theorem filterDrawer_toggle_selection {date : Type} (inherited : string -> bool)
    (field itemId : string) (s : FilterDrawer.state date) :
  (FilterDrawer.handleListItemToggle date inherited field itemId s = None
   ↔ FilterDrawer.selectedListItems date s !! field = None
     ∧ inherited field = true)
  ∧ (∀ s', FilterDrawer.handleListItemToggle date inherited field itemId s = Some s' ->
       (∀ id, id ∈ FilterDrawer.selected date s' field
              ↔ if decide (id = itemId)
                then id ∉ FilterDrawer.selected date s field
                else id ∈ FilterDrawer.selected date s field)
       ∧ (NoDup (FilterDrawer.selected date s field) ->
          NoDup (FilterDrawer.selected date s' field))
       ∧ FilterDrawer.filterValues date s' !! field
         = Some (FilterDrawer.VList date (FilterDrawer.selected date s' field))
       ∧ (∀ other, other ≠ field ->
            FilterDrawer.selectedListItems date s' !! other
            = FilterDrawer.selectedListItems date s !! other
            ∧ FilterDrawer.filterValues date s' !! other
              = FilterDrawer.filterValues date s !! other)
       ∧ FilterDrawer.expandedSelects date s' = FilterDrawer.expandedSelects date s
       ∧ FilterDrawer.open date s' = FilterDrawer.open date s
       ∧ (itemId ∉ FilterDrawer.selected date s field ->
          ∃ s'', FilterDrawer.handleListItemToggle date inherited field itemId s'
                 = Some s''
                 ∧ FilterDrawer.selected date s'' field
                   = FilterDrawer.selected date s field)).
Proof.
  split.
  - unfold FilterDrawer.handleListItemToggle.
    rewrite <- filterDrawer_selection_of_None.
    by destruct (FilterDrawer.selection_of _ _ _).
  - intros s' Hs'. pose proof (filterDrawer_toggle_Some inherited _ _ _ _ Hs') as Heq.
    cbv zeta in Heq.
    assert (Hsel : FilterDrawer.selected date s' field
                   = if bool_decide (itemId ∈ FilterDrawer.selected date s field)
                     then filter (fun id => id ≠ itemId) (FilterDrawer.selected date s field)
                     else FilterDrawer.selected date s field ++ [itemId]).
    { rewrite Heq. unfold FilterDrawer.selected at 1. simpl.
      by rewrite lookup_insert_eq. }
    split_and!.
    + intros id. rewrite Hsel. case_bool_decide as Hin.
      * rewrite list_elem_of_filter. destruct (decide (id = itemId)) as [->|Hne].
        -- split; [by intros [? _]|done].
        -- split; [by intros [_ ?]|done].
      * rewrite elem_of_app, list_elem_of_singleton.
        destruct (decide (id = itemId)) as [->|Hne].
        -- split; [done|by right].
        -- split; [by intros [?|?]|by left].
    + intros Hnd. rewrite Hsel. case_bool_decide as Hin.
      * by apply NoDup_filter.
      * apply NoDup_app. split_and!; [done| |apply NoDup_singleton].
        intros x Hx ->%list_elem_of_singleton. done.
    + rewrite Hsel. rewrite Heq. simpl. by rewrite lookup_insert_eq.
    + intros other Hne. rewrite Heq. simpl. by rewrite !lookup_insert_ne.
    + by rewrite Heq.
    + by rewrite Heq.
    + intros Hnot.
      assert (Hown : FilterDrawer.selectedListItems date s' !! field
                     = Some (FilterDrawer.selected date s' field)).
      { rewrite Heq. unfold FilterDrawer.selected. simpl.
        by rewrite !lookup_insert_eq. }
      destruct (filterDrawer_toggle_own inherited field itemId s' _ Hown)
        as [s'' Hs''].
      exists s''. split; [done|].
      pose proof (filterDrawer_toggle_Some inherited _ _ _ _ Hs'') as Heq'.
      cbv zeta in Heq'. rewrite Heq'. unfold FilterDrawer.selected at 1. simpl.
      rewrite lookup_insert_eq. simpl. rewrite Hsel.
      rewrite (bool_decide_eq_false_2 _ Hnot).
      rewrite bool_decide_eq_true_2 by (apply elem_of_app; right; by left).
      rewrite filter_app, filter_cons_False, filter_nil, app_nil_r
        by (intros Hn; by apply Hn).
      by apply filter_ne_absent.
Qed.

Lemma filterDrawer_toggle_selection_witness :
  FilterDrawer.handleListItemToggle unit object_prototype_member
    "constructor" "open" (FilterDrawer.init unit) = None
  ∧ ∃ s1 s2,
      FilterDrawer.handleListItemToggle unit object_prototype_member
        "status" "open" (FilterDrawer.init unit) = Some s1
      ∧ FilterDrawer.handleListItemToggle unit object_prototype_member
          "status" "open" s1 = Some s2
      ∧ FilterDrawer.selected unit s2 "status" = [].
Proof.
  split.
  - apply (proj1 (filterDrawer_toggle_selection object_prototype_member
                    "constructor" "open" (FilterDrawer.init unit))).
    split; reflexivity.
  - destruct (FilterDrawer.handleListItemToggle unit object_prototype_member
                "status" "open" (FilterDrawer.init unit)) as [s1|] eqn:E1;
      [|discriminate E1].
    destruct (proj2 (filterDrawer_toggle_selection object_prototype_member
                       "status" "open" (FilterDrawer.init unit)) s1 E1)
      as (_ & _ & _ & _ & _ & _ & Hback).
    destruct Hback as (s2 & E2 & Hsel); [apply not_elem_of_nil|].
    exists s1, s2. split; [reflexivity|]. split; [exact E2|exact Hsel].
Defined.

(** X14. [handleApply] of the filter drawer (part_003). Under a key other
    than [__proto__]: a picked date of a date filter is applied as its
    formatted string, a cleared date is left out, and a date stored under a
    field that is not a date filter is left out as well; a list selection
    that was emptied again is still applied, as an empty array, instead of
    being dropped. Nothing is applied under a key that [filterValues] does
    not hold, and the drawer is closed. The object applied never owns a
    property [__proto__]: the assignment under that key runs the setter of
    [Object.prototype], which drops a formatted date and makes an array of
    selected ids the prototype of the object. *)
Theorem filterDrawer_applied_values {date : Type}
    (dayjs_format : FilterDrawer.value date -> string)
    (inherited : string -> bool)
    (filters : list FilterDrawer.FilterOption) (field : string)
    (s : FilterDrawer.state date) :
  let result s := (FilterDrawer.handleApply date dayjs_format filters s).1 in
  let apply s := FilterDrawer.own (result s) in
  (field ≠ "__proto__" ->
   (∀ d, apply (FilterDrawer.handleDateChange date field (Some d) s) !! field
         = if FilterDrawer.is_date_filter filters field
           then Some (FilterDrawer.AStr
                        (dayjs_format (FilterDrawer.VDate date (Some d))))
           else None)
   ∧ (∀ itemId s1 s2,
        FilterDrawer.is_date_filter filters field = false ->
        FilterDrawer.selected date s field = [] ->
        FilterDrawer.handleListItemToggle date inherited field itemId s = Some s1 ->
        FilterDrawer.handleListItemToggle date inherited field itemId s1 = Some s2 ->
        apply s2 !! field = Some (FilterDrawer.AList [])))
  ∧ apply (FilterDrawer.handleDateChange date field None s) !! field = None
  ∧ (∀ key, FilterDrawer.filterValues date s !! key = None -> apply s !! key = None)
  ∧ apply s !! "__proto__" = None
  ∧ FilterDrawer.proto (result s)
    = match FilterDrawer.filterValues date s !! "__proto__" with
      | Some (FilterDrawer.VList _ ids) =>
          if FilterDrawer.is_date_filter filters "__proto__" then None
          else Some ids
      | _ => None
      end
  ∧ FilterDrawer.open date (FilterDrawer.handleApply date dayjs_format filters s).2
    = false.
Proof.
  intros result apply. unfold apply, result. split_and!.
  - intros Hf.
    assert (Hne : String.eqb field "__proto__" = false)
      by by apply String.eqb_neq.
    split.
    + intros d. rewrite filterDrawer_apply_own, Hne. simpl.
      rewrite lookup_insert_eq. simpl. unfold filterDrawer_formatted. simpl.
      by destruct (FilterDrawer.is_date_filter filters field).
    + intros itemId s1 s2 Hd Hsel H1 H2.
      pose proof (filterDrawer_toggle_Some inherited _ _ _ _ H1) as E1.
      pose proof (filterDrawer_toggle_Some inherited _ _ _ _ H2) as E2.
      cbv zeta in E1, E2.
      assert (Hs1 : FilterDrawer.selected date s1 field = [itemId]).
      { rewrite E1. unfold FilterDrawer.selected at 1. simpl.
        rewrite lookup_insert_eq. simpl. rewrite Hsel.
        by rewrite (bool_decide_eq_false_2 (itemId ∈ [])) by apply not_elem_of_nil. }
      rewrite Hs1 in E2.
      rewrite bool_decide_eq_true_2 in E2 by by left.
      rewrite filter_cons_False, filter_nil in E2 by (intros Hn; by apply Hn).
      rewrite filterDrawer_apply_own, Hne, E2. simpl.
      rewrite lookup_insert_eq. simpl. unfold filterDrawer_formatted.
      by rewrite Hd.
  - rewrite filterDrawer_apply_own. destruct (String.eqb _ _); [done|].
    simpl. rewrite lookup_insert_eq. simpl. unfold filterDrawer_formatted.
    simpl. by rewrite andb_false_r.
  - intros key Hk. rewrite filterDrawer_apply_own, Hk. by destruct (String.eqb _ _).
  - by rewrite filterDrawer_apply_own.
  - rewrite filterDrawer_apply_proto. unfold filterDrawer_formatted.
    destruct (_ !! "__proto__") as [[d|ids]|]; simpl; [|  |done].
    + by destruct (FilterDrawer.is_date_filter filters "__proto__" && _).
    + rewrite andb_true_r.
      by destruct (FilterDrawer.is_date_filter filters "__proto__").
  - done.
Qed.

Lemma filterDrawer_applied_values_witness :
  FilterDrawer.own
    (FilterDrawer.handleApply unit (fun _ => "2024-01-31")
       [FilterDrawer.mkFilterOption "day" "Day" FilterDrawer.TDate None]
       (FilterDrawer.handleDateChange unit "day" (Some tt)
          (FilterDrawer.init unit))).1 !! "day"
  = Some (FilterDrawer.AStr "2024-01-31").
Proof.
  refine (proj1 (proj1 (filterDrawer_applied_values (fun _ => "2024-01-31")
                          object_prototype_member
                          [FilterDrawer.mkFilterOption "day" "Day" FilterDrawer.TDate None]
                          "day" (FilterDrawer.init unit)) _) tt).
  discriminate.
Defined.

(** X15. [renderListOptions] of the filter drawer (part_003). When the cell
    [selectedListItems] owns nothing under the field and the field names a
    member of [Object.prototype], [selected] is that member and the first
    check box to be rendered throws a TypeError: the rendering throws as soon
    as there is an option to display. In every other case: a list of at most
    ten options is displayed in full and without the button, whatever the
    stored flag; a longer list shows the button and its first ten options
    until the button is clicked, all of them afterwards, and a second click
    goes back. The flag lives in [expandedSelects] under [field + "_expand"],
    the map that also holds the open sections: opening or closing the section
    of a filter whose field has that name acts as a click on the button, and
    no other section does. *)
Theorem filterDrawer_displayed_options {date : Type} (inherited : string -> bool)
    (field : string) (options : list (string * string))
    (s : FilterDrawer.state date) :
  let render s := FilterDrawer.renderListOptions date inherited field options s in
  let displayed s := (fun r : list (string * string * bool) * bool => r.1.*1)
                       <$> render s in
  let button s := snd <$> render s in
  let showAll s := FilterDrawer.flag_of inherited (field +:+ "_expand")
                     (FilterDrawer.expandedSelects date s) in
  (FilterDrawer.selectedListItems date s !! field = None ->
   inherited field = true ->
   render s = match options with
              | [] => Some ([], false)
              | _ :: _ => None
              end)
  ∧ (FilterDrawer.selection_readable date inherited s field ->
     ((length options <= 10)%nat ->
      displayed s = Some options ∧ button s = Some false)
     ∧ ((10 < length options)%nat -> button s = Some true)
     ∧ (showAll s = false ->
        displayed s = Some (take 10%nat options)
        ∧ displayed (FilterDrawer.toggleShowAll date inherited field s)
          = Some options)
     ∧ displayed (FilterDrawer.toggleShowAll date inherited field
                    (FilterDrawer.toggleShowAll date inherited field s))
       = displayed s)
  ∧ render (FilterDrawer.toggleExpand date inherited (field +:+ "_expand") s)
    = render (FilterDrawer.toggleShowAll date inherited field s)
  ∧ (∀ other, other ≠ field +:+ "_expand" ->
       render (FilterDrawer.toggleExpand date inherited other s) = render s).
Proof.
  intros render displayed button showAll.
  assert (Hmap : ∀ (sel : list string) (l : list (string * string)),
             (map (fun option : string * string =>
                     (option, bool_decide (option.1 ∈ sel))) l).*1 = l).
  { intros sel l. induction l as [|x l IH]; [done|]. simpl. f_equal. exact IH. }
  split_and!.
  - intros Hown Hinh. unfold render, FilterDrawer.renderListOptions,
      FilterDrawer.selection_of. rewrite Hown, Hinh.
    destruct options as [|o options]; simpl.
    + by destruct (FilterDrawer.flag_of _ _ _).
    + by destruct (FilterDrawer.flag_of _ _ _).
  - intros Hread.
    assert (Hr : ∀ s0, FilterDrawer.selectedListItems date s0
                       = FilterDrawer.selectedListItems date s ->
               render s0
               = Some (map (fun option : string * string =>
                              (option,
                               bool_decide (option.1 ∈ FilterDrawer.selected date s field)))
                           (if FilterDrawer.flag_of inherited (field +:+ "_expand")
                                 (FilterDrawer.expandedSelects date s0)
                            then options else take 10%nat options),
                       bool_decide (10 < length options)%nat)).
    { intros s0 Hs0. unfold render, FilterDrawer.renderListOptions.
      rewrite Hs0. by rewrite (filterDrawer_selection_readable inherited field s Hread). }
    unfold displayed, button, showAll.
    rewrite !Hr by done. simpl. rewrite !Hmap.
    unfold FilterDrawer.flag_of. simpl. rewrite !lookup_insert_eq. simpl.
    split_and!.
    + intros Hlen. split.
      * destruct (default _ _); [done|]. by rewrite take_ge.
      * f_equal. apply bool_decide_eq_false. lia.
    + intros Hlen. f_equal. by apply bool_decide_eq_true.
    + intros Hflag. by rewrite Hflag.
    + by rewrite negb_involutive.
  - done.
  - intros other Hne. unfold render, FilterDrawer.renderListOptions,
      FilterDrawer.toggleExpand, FilterDrawer.flag_of. simpl.
    by rewrite lookup_insert_ne.
Qed.

Lemma filterDrawer_displayed_options_witness :
  FilterDrawer.renderListOptions unit object_prototype_member
    "toString" [("a", "A"); ("b", "B")] (FilterDrawer.init unit) = None
  ∧ (fun r : list (string * string * bool) * bool => r.1.*1)
      <$> FilterDrawer.renderListOptions unit object_prototype_member
            "status" [("a", "A"); ("b", "B")] (FilterDrawer.init unit)
    = Some [("a", "A"); ("b", "B")].
Proof.
  split.
  - exact (proj1 (filterDrawer_displayed_options object_prototype_member
                    "toString" [("a", "A"); ("b", "B")] (FilterDrawer.init unit))
             eq_refl eq_refl).
  - refine (proj1 (proj1 (proj1 (proj2
              (filterDrawer_displayed_options object_prototype_member
                 "status" [("a", "A"); ("b", "B")] (FilterDrawer.init unit))) _) _)).
    + right. reflexivity.
    + simpl. lia.
Defined.

(** ** [TreeDataGrid] (part_003) *)

Section TreeFacts.
Import TreeDataGrid.
Context {key : Type} `{Countable key} (prop_key : key -> string)
  (inherited : string -> bool).

Lemma node_of_snoc (data : list (@TreeNode key)) (n : @TreeNode key) (k : key) :
  node_of (data ++ [n]) k = if decide (id n = k) then Some n else node_of data k.
Proof.
  unfold node_of. rewrite filter_app.
  destruct (decide (id n = k)) as [Heq|Hne].
  - rewrite filter_cons_True, filter_nil by done. apply last_snoc.
  - rewrite filter_cons_False, filter_nil, app_nil_r by done. done.
Qed.

Lemma init_nodes_snoc (data : list (@TreeNode key)) (n : @TreeNode key) :
  init_nodes (data ++ [n]) = set_node (init_nodes data) n.
Proof. unfold init_nodes. by rewrite fold_left_app. Qed.

Lemma init_nodes_order (data : list (@TreeNode key)) :
  (init_nodes data).2 = key_order data.
Proof.
  unfold key_order. induction data as [|n data IH] using rev_ind; [done|].
  rewrite init_nodes_snoc, map_app. simpl. by rewrite of_list_snoc, IH.
Qed.

Lemma init_nodes_lookup (data : list (@TreeNode key)) (k : key) :
  (init_nodes data).1 !! k
  = (fun n => Entry (parentId n) 0 []) <$> node_of data k.
Proof.
  induction data as [|n data IH] using rev_ind; [done|].
  rewrite init_nodes_snoc, node_of_snoc. simpl.
  destruct (decide (id n = k)) as [<-|Hne].
  - by rewrite lookup_insert_eq.
  - by rewrite lookup_insert_ne.
Qed.

Lemma node_of_is_Some (data : list (@TreeNode key)) (k : key) :
  is_Some (node_of data k) ↔ k ∈ map id data.
Proof.
  induction data as [|n data IH] using rev_ind.
  - split; [by intros [? ?]|by intros ?%elem_of_nil].
  - rewrite node_of_snoc, map_app, elem_of_app. simpl.
    rewrite list_elem_of_singleton. destruct (decide (id n = k)) as [<-|Hne].
    + split; [by right|by eexists].
    + rewrite IH. split; [by left|]. by intros [?|?].
Qed.

Lemma key_order_elem (data : list (@TreeNode key)) (k : key) :
  k ∈ key_order data ↔ k ∈ map id data.
Proof. apply elem_of_of_list. Qed.

Lemma key_order_NoDup (data : list (@TreeNode key)) : NoDup (key_order data).
Proof. apply NoDup_of_list. Qed.

Lemma parent_of_Some (data : list (@TreeNode key)) (k p : key) :
  parent_of data k = Some p -> k ∈ map id data ∧ p ∈ map id data.
Proof.
  unfold parent_of. intros Hp.
  destruct (node_of data k) as [n|] eqn:Hn; [|done]. simpl in Hp.
  destruct (parentId n) as [q|]; [|done]. simpl in Hp.
  case_bool_decide; [|done]. injection Hp as <-.
  split; [|done]. apply node_of_is_Some. by eexists.
Qed.


Lemma link_inv_init (data : list (@TreeNode key)) :
  link_inv data [] ((init_nodes data).1, []).
Proof.
  split_and!; simpl.
  - intros k. rewrite init_nodes_lookup. by destruct (node_of data k).
  - done.
  - intros p. unfold node_children. rewrite init_nodes_lookup.
    by destruct (node_of data p).
Qed.

Lemma linked_lookup (m : gmap key (@entry key)) (k pid : key) (node parent : entry)
    (l : nat) (k' : key) :
  m !! k = Some node -> m !! pid = Some parent ->
  let m' := alter (push_child k) pid (<[k := set_level l node]> m) in
  node_parentId <$> m' !! k' = node_parentId <$> m !! k'
  ∧ node_children m' k'
    = (if decide (k' = pid) then node_children m k' ++ [k] else node_children m k')
  ∧ (k' ≠ k -> level <$> m' !! k' = level <$> m !! k')
  ∧ level <$> m' !! k = Some l.
Proof.
  intros Hk Hpid m'. unfold m', node_children.
  assert (Hlk : level <$> alter (push_child k) pid (<[k:=set_level l node]> m) !! k
                = Some l).
  { destruct (decide (k = pid)) as [<-|Hne].
    - by rewrite lookup_alter_eq, lookup_insert_eq.
    - by rewrite lookup_alter_ne, lookup_insert_eq. }
  destruct (decide (k' = pid)) as [->|Hne].
  - rewrite lookup_alter_eq. destruct (decide (pid = k)) as [->|Hne'].
    + rewrite lookup_insert_eq, Hk. simpl. split_and!; [done|done|done|done].
    + rewrite lookup_insert_ne, Hpid by done. simpl. split_and!; done.
  - rewrite lookup_alter_ne by done. destruct (decide (k' = k)) as [->|Hne'].
    + rewrite lookup_insert_eq, Hk. simpl. split_and!; done.
    + rewrite lookup_insert_ne by done. split_and!; done.
Qed.

Lemma link_inv_step (data : list (@TreeNode key)) (done_ : list key)
    (acc : gmap key (@entry key) * list key) (k : key) :
  link_inv data done_ acc -> k ∈ map id data ->
  link_inv data (done_ ++ [k]) (link acc k).
Proof.
  destruct acc as [m roots]. intros (Hpar & Hroots & Hch) Hk. simpl in *.
  apply node_of_is_Some in Hk as [n Hn].
  pose proof (Hpar k) as Hmk. rewrite Hn in Hmk. simpl in Hmk.
  destruct (m !! k) as [node|] eqn:Hnode; [|done]. simpl in Hmk.
  injection Hmk as Hnp.
  assert (Hpo : parent_of data k
                = p ← parentId n; if bool_decide (p ∈ map id data) then Some p else None).
  { unfold parent_of. by rewrite Hn. }
  unfold link. cbv beta iota. rewrite Hnp.
  assert (Hroot : parent_of data k = None ->
                  link_inv data (done_ ++ [k]) (m, roots ++ [k])).
  { intros Hnone. split_and!; simpl.
    - done.
    - rewrite filter_app, filter_cons_True, filter_nil by done. by rewrite Hroots.
    - intros p. rewrite filter_app, filter_cons_False, filter_nil, app_nil_r; [done|].
      by rewrite Hnone. }
  destruct (parentId n) as [pid|] eqn:Hpid; [|by apply Hroot].
  simpl in Hpo.
  assert (Hdom : is_Some (m !! pid) ↔ pid ∈ map id data).
  { rewrite <- node_of_is_Some, <- !fmap_is_Some with (f := node_parentId).
    rewrite Hpar. by rewrite fmap_is_Some. }
  destruct (m !! pid) as [parent|] eqn:Hparent.
  - rewrite bool_decide_eq_true_2 in Hpo by (apply Hdom; by eexists).
    split_and!; simpl.
    + intros k'. rewrite <- Hpar.
      apply (linked_lookup m k pid node parent (level parent + 1) k' Hnode Hparent).
    + rewrite filter_app, filter_cons_False, filter_nil, app_nil_r; [done|].
      by rewrite Hpo.
    + intros p.
      destruct (linked_lookup m k pid node parent (level parent + 1) p Hnode Hparent)
        as (_ & -> & _).
      rewrite filter_app, Hch. destruct (decide (p = pid)) as [->|Hne].
      * by rewrite filter_cons_True, filter_nil.
      * rewrite filter_cons_False, filter_nil, app_nil_r; [done|].
        rewrite Hpo. congruence.
  - apply Hroot. rewrite Hpo, bool_decide_eq_false_2; [done|].
    intros Hin. apply Hdom in Hin as [? ?]. done.
Qed.

Lemma link_inv_fold (data : list (@TreeNode key)) (l done_ : list key)
    (acc : gmap key (@entry key) * list key) :
  link_inv data done_ acc -> (∀ k, k ∈ l -> k ∈ map id data) ->
  link_inv data (done_ ++ l) (fold_left link l acc).
Proof.
  revert done_ acc. induction l as [|k l IH]; intros done_ acc Hinv Hl.
  - by rewrite app_nil_r.
  - simpl. replace (done_ ++ k :: l) with ((done_ ++ [k]) ++ l)
      by (by rewrite <- app_assoc).
    apply IH.
    + apply link_inv_step; [done|]. apply Hl. by left.
    + intros k' Hk'. apply Hl. by right.
Qed.

Lemma link_inv_all (data : list (@TreeNode key)) :
  link_inv data (key_order data)
    (fold_left link (key_order data) ((init_nodes data).1, [])).
Proof.
  apply (link_inv_fold data (key_order data) []).
  - apply link_inv_init.
  - intros k. apply key_order_elem.
Qed.


Lemma rooted_functional (data : list (@TreeNode key)) (d d' : nat) (k : key) :
  rooted data d k -> rooted data d' k -> d = d'.
Proof.
  revert d' k. induction d as [|d IH]; intros [|d'] k; simpl.
  - done.
  - intros [_ Hn] (p & Hp & _). congruence.
  - intros (p & Hp & _) [_ Hn]. congruence.
  - intros (p & Hp & Hr) (p' & Hp' & Hr'). f_equal. apply (IH d' p); [done|].
    congruence.
Qed.

Lemma rooted_elem (data : list (@TreeNode key)) (d : nat) (k : key) :
  rooted data d k -> k ∈ map id data.
Proof.
  destruct d; simpl.
  - by intros [? _].
  - intros (p & Hp & _). by apply parent_of_Some in Hp as [? _].
Qed.

Lemma rooted_chain (data : list (@TreeNode key)) (d : nat) (k : key) :
  rooted data d k ->
  ∃ l, length l = S d ∧ NoDup l
       ∧ ∀ x, x ∈ l -> x ∈ map id data ∧ ∃ i, (i <= d)%nat ∧ rooted data i x.
Proof.
  revert k. induction d as [|d IH]; intros k Hr.
  - exists [k]. split_and!; [done|apply NoDup_singleton|].
    intros x ->%list_elem_of_singleton. split; [apply Hr|]. by exists 0%nat.
  - pose proof Hr as (p & Hp & Hrp).
    destruct (IH p Hrp) as (l & Hlen & Hnd & Hl). exists (k :: l). split_and!.
    + simpl. by rewrite Hlen.
    + apply NoDup_cons. split; [|done]. intros Hin.
      destruct (Hl k Hin) as (_ & i & Hi & Hri).
      pose proof (rooted_functional data _ _ _ Hri Hr). lia.
    + intros x [->|Hx]%elem_of_cons.
      * split; [by eapply rooted_elem|]. exists (S d). split; [lia|done].
      * destruct (Hl x Hx) as (? & i & ? & ?). split; [done|].
        exists i. split; [lia|done].
Qed.

Lemma rooted_bound (data : list (@TreeNode key)) (d : nat) (k : key) :
  rooted data d k -> (d < length (key_order data))%nat.
Proof.
  intros Hr. destruct (rooted_chain data d k Hr) as (l & Hlen & Hnd & Hl).
  assert (length l <= length (key_order data))%nat; [|lia].
  apply submseteq_length, NoDup_submseteq; [done|].
  intros x Hx. apply key_order_elem, Hl, Hx.
Qed.

Lemma of_list_length {A} `{EqDecision A} (l : list A) :
  (length (JsSet.of_list l) <= length l)%nat.
Proof.
  induction l as [|x l IH] using rev_ind; [done|].
  rewrite of_list_snoc, length_app. unfold JsSet.add.
  case_bool_decide; rewrite ?length_app; simpl; lia.
Qed.

Lemma key_order_length (data : list (@TreeNode key)) :
  (length (key_order data) <= length data)%nat.
Proof.
  unfold key_order. etransitivity; [apply of_list_length|]. by rewrite length_map.
Qed.

Lemma ancestor_rooted (data : list (@TreeNode key)) (j d : nat) (k a : key) :
  rooted data d k -> ancestor data j k = Some a ->
  (j <= d)%nat ∧ rooted data (d - j) a.
Proof.
  revert d k. induction j as [|j IH]; intros d k Hr Ha; simpl in Ha.
  - injection Ha as <-. split; [lia|]. by rewrite Nat.sub_0_r.
  - destruct (parent_of data k) as [p|] eqn:Hp; [|done]. simpl in Ha.
    destruct d as [|d]; simpl in Hr.
    + destruct Hr as [_ Hr]. congruence.
    + destruct Hr as (p' & Hp' & Hr). assert (p' = p) as -> by congruence.
      destruct (IH d p Hr Ha) as [Hle Hra]. split; [lia|done].
Qed.

Section Below.
Context (data : list (@TreeNode key)) (expandedRows : gmap string bool).

Lemma below_rooted (r k : key) (d : nat) :
  below prop_key inherited data expandedRows r k -> rooted data d r ->
  ∃ j, rooted data (d + j) k.
Proof.
  intros Hb Hr. induction Hb as [|k p Hp Hexp Hb IH].
  - exists 0%nat. by rewrite Nat.add_0_r.
  - destruct IH as [j Hj]. exists (S j). rewrite Nat.add_succ_r. simpl. eauto.
Qed.

Lemma below_unique (d : nat) (r1 r2 k : key) :
  below prop_key inherited data expandedRows r1 k -> below prop_key inherited data expandedRows r2 k ->
  rooted data d r1 -> rooted data d r2 -> r1 = r2.
Proof.
  intros H1. revert r2. induction H1 as [|k p Hp Hexp Hb IH]; intros r2 H2 Hr1 Hr2.
  - inversion H2 as [|k' p Hp Hexp Hb]; subst; [done|].
    destruct (below_rooted _ _ d Hb Hr2) as [j Hj].
    assert (Hr : rooted data (S (d + j)) r1) by (simpl; eauto).
    pose proof (rooted_functional data _ _ _ Hr1 Hr). lia.
  - inversion H2 as [|k' p' Hp' Hexp' Hb']; subst.
    + destruct (below_rooted _ _ d Hb Hr1) as [j Hj].
      assert (Hr : rooted data (S (d + j)) k) by (simpl; eauto).
      pose proof (rooted_functional data _ _ _ Hr2 Hr). lia.
    + assert (p' = p) as -> by congruence. by apply IH.
Qed.

Lemma below_trans (a b c : key) :
  below prop_key inherited data expandedRows a b -> below prop_key inherited data expandedRows b c ->
  below prop_key inherited data expandedRows a c.
Proof.
  intros Hab Hbc. induction Hbc as [|k p Hp Hexp Hb IH]; [done|].
  by eapply below_step.
Qed.

Lemma visible_rooted (k : key) :
  visible prop_key inherited data expandedRows k -> ∃ d, rooted data d k.
Proof.
  intros (r & Hr & Hp & Hb).
  destruct (below_rooted r k 0) as [j Hj]; [done|done|]. by exists j.
Qed.

End Below.


Section Flat.
Context (data : list (@TreeNode key)) (expandedRows : gmap string bool)
  (nodes : gmap key (@entry key)).
Hypothesis Hch : ∀ p, node_children nodes p
                      = filter (fun k => parent_of data k = Some p) (key_order data).

Lemma children_elem (p c : key) :
  c ∈ node_children nodes p ↔ parent_of data c = Some p.
Proof.
  rewrite Hch, list_elem_of_filter. split; [by intros [? _]|].
  intros Hp. split; [done|]. apply key_order_elem.
  by apply parent_of_Some in Hp as [? _].
Qed.

Lemma children_NoDup (p : key) : NoDup (node_children nodes p).
Proof. rewrite Hch. apply NoDup_filter, key_order_NoDup. Qed.

Lemma children_rooted (d : nat) (p : key) :
  rooted data d p -> Forall (rooted data (S d)) (node_children nodes p).
Proof.
  intros Hr. apply Forall_forall. intros c Hc%children_elem. simpl. eauto.
Qed.

Lemma children_fuel (d fuel : nat) (k : key) :
  rooted data d k ->
  (length (key_order data) <= d + fuel)%nat ->
  (0 < length (node_children nodes k))%nat ->
  ∃ fuel', fuel = S fuel'.
Proof.
  intros Hr Hfuel Hlen.
  destruct (node_children nodes k) as [|c l] eqn:Hc; [simpl in Hlen; lia|].
  assert (Hrc : rooted data (S d) c).
  { assert (Hin : c ∈ node_children nodes k) by (rewrite Hc; by left).
    apply children_elem in Hin. simpl. eauto. }
  apply rooted_bound in Hrc. destruct fuel as [|fuel']; [lia|by eexists].
Qed.

Lemma flat_nil (fuel : nat) : flat prop_key inherited fuel nodes expandedRows [] = [].
Proof. by destruct fuel. Qed.

Lemma flat_cons (fuel : nat) (k : key) (ns : list key) :
  flat prop_key inherited fuel nodes expandedRows (k :: ns)
  = k :: (if is_expanded prop_key inherited expandedRows k
             && bool_decide (0 < length (node_children nodes k))%nat
          then match fuel with
               | O => []
               | S fuel => flat prop_key inherited fuel nodes expandedRows (node_children nodes k)
               end
          else [])
      ++ flat prop_key inherited fuel nodes expandedRows ns.
Proof. by destruct fuel. Qed.

Lemma flattenTree_nil (fuel : nat) (result : list key) :
  flattenTree prop_key inherited fuel nodes expandedRows [] result = Some result.
Proof. by destruct fuel. Qed.

Lemma flattenTree_cons (fuel : nat) (k : key) (ns result : list key) :
  flattenTree prop_key inherited fuel nodes expandedRows (k :: ns) result
  = (if is_expanded prop_key inherited expandedRows k
        && bool_decide (0 < length (node_children nodes k))%nat
     then match fuel with
          | O => None
          | S fuel => flattenTree prop_key inherited fuel nodes expandedRows
                        (node_children nodes k) (result ++ [k])
          end
     else Some (result ++ [k]))
    ≫= flattenTree prop_key inherited fuel nodes expandedRows ns.
Proof.
  assert (Hnone : ∀ (f : option (list key) -> key -> option (list key)) l,
             (∀ k, f None k = None) -> fold_left f l None = None).
  { intros f l Hf. induction l as [|x l IH]; [done|]. simpl. by rewrite Hf. }
  destruct fuel as [|fuel]; simpl.
  - destruct (is_expanded prop_key inherited expandedRows k
              && bool_decide (0 < length (node_children nodes k))%nat); simpl.
    + by apply Hnone.
    + done.
  - destruct (is_expanded prop_key inherited expandedRows k
              && bool_decide (0 < length (node_children nodes k))%nat); simpl; [|done].
    destruct (flattenTree prop_key inherited fuel nodes expandedRows
                (node_children nodes k) (result ++ [k])); simpl; [done|].
    by apply Hnone.
Qed.

Lemma flattenTree_flat (fuel : nat) (ns result r : list key) :
  flattenTree prop_key inherited fuel nodes expandedRows ns result = Some r ->
  r = result ++ flat prop_key inherited fuel nodes expandedRows ns.
Proof.
  revert ns result r. induction fuel as [|fuel IHf]; intros ns;
    induction ns as [|k ns IHn]; intros result r.
  - rewrite flattenTree_nil, flat_nil, app_nil_r. congruence.
  - rewrite flattenTree_cons, flat_cons.
    destruct (is_expanded prop_key inherited expandedRows k
              && bool_decide (0 < length (node_children nodes k))%nat); simpl; [done|].
    intros ->%IHn. by rewrite <- app_assoc.
  - rewrite flattenTree_nil, flat_nil, app_nil_r. congruence.
  - rewrite flattenTree_cons, flat_cons.
    destruct (is_expanded prop_key inherited expandedRows k
              && bool_decide (0 < length (node_children nodes k))%nat); simpl.
    + destruct (flattenTree prop_key inherited fuel nodes expandedRows
                  (node_children nodes k) (result ++ [k])) as [r1|] eqn:Hr1; simpl; [|done].
      apply IHf in Hr1 as ->. intros ->%IHn.
      rewrite <- !app_assoc. done.
    + intros ->%IHn. by rewrite <- app_assoc.
Qed.

Lemma flattenTree_total (fuel d : nat) (ns result : list key) :
  Forall (rooted data d) ns ->
  (length (key_order data) <= d + fuel)%nat ->
  is_Some (flattenTree prop_key inherited fuel nodes expandedRows ns result).
Proof.
  revert d ns result. induction fuel as [|fuel IHf]; intros d ns;
    induction ns as [|k ns IHn]; intros result Hall Hfuel.
  - by rewrite flattenTree_nil.
  - rewrite flattenTree_cons. apply Forall_cons in Hall as [Hk Hall].
    destruct (is_expanded prop_key inherited expandedRows k) eqn:Hexp; simpl; [|by apply IHn].
    case_bool_decide as Hlen; simpl; [|by apply IHn].
    destruct (children_fuel d 0 k Hk Hfuel Hlen) as [? ?]. done.
  - by rewrite flattenTree_nil.
  - rewrite flattenTree_cons. apply Forall_cons in Hall as [Hk Hall].
    destruct (is_expanded prop_key inherited expandedRows k) eqn:Hexp; simpl; [|by apply IHn].
    case_bool_decide as Hlen; simpl; [|by apply IHn].
    destruct (IHf (S d) (node_children nodes k) (result ++ [k])) as [r1 Hr1].
    + by apply children_rooted.
    + lia.
    + rewrite Hr1. simpl. by apply IHn.
Qed.

Lemma flat_fuel (fuel fuel' d : nat) (ns : list key) :
  Forall (rooted data d) ns ->
  (length (key_order data) <= d + fuel)%nat ->
  (length (key_order data) <= d + fuel')%nat ->
  flat prop_key inherited fuel nodes expandedRows ns = flat prop_key inherited fuel' nodes expandedRows ns.
Proof.
  revert fuel' d ns. induction fuel as [|fuel IHf]; intros fuel' d ns;
    induction ns as [|k ns IHn]; intros Hall Hfuel Hfuel'.
  - by rewrite !flat_nil.
  - rewrite !flat_cons. apply Forall_cons in Hall as [Hk Hall]. rewrite IHn by done.
    destruct (is_expanded prop_key inherited expandedRows k) eqn:Hexp; simpl; [|done].
    case_bool_decide as Hlen; simpl; [|done].
    destruct (children_fuel d 0 k Hk Hfuel Hlen) as [? ?]. done.
  - by rewrite !flat_nil.
  - rewrite !flat_cons. apply Forall_cons in Hall as [Hk Hall]. rewrite IHn by done.
    destruct (is_expanded prop_key inherited expandedRows k) eqn:Hexp; simpl; [|done].
    case_bool_decide as Hlen; simpl; [|done].
    destruct (children_fuel d fuel' k Hk Hfuel' Hlen) as [f' ->].
    rewrite (IHf f' (S d)); [done| |lia|lia]. by apply children_rooted.
Qed.

Lemma flat_head (fuel : nat) (ns : list key) (n : key) :
  n ∈ ns -> n ∈ flat prop_key inherited fuel nodes expandedRows ns.
Proof.
  induction ns as [|k ns IH]; [by intros ?%elem_of_nil|].
  rewrite flat_cons. intros [->|Hn]%elem_of_cons; [by left|].
  right. apply elem_of_app. right. by apply IH.
Qed.

Lemma flat_below (fuel : nat) (ns : list key) (x : key) :
  x ∈ flat prop_key inherited fuel nodes expandedRows ns ->
  ∃ n, n ∈ ns ∧ below prop_key inherited data expandedRows n x.
Proof.
  revert ns x. induction fuel as [|fuel IHf]; intros ns;
    induction ns as [|k ns IHn]; intros x.
  - rewrite flat_nil. by intros ?%elem_of_nil.
  - rewrite flat_cons. intros [->|Hx]%elem_of_cons.
    { exists k. split; [by left|constructor]. }
    assert (Hx' : x ∈ flat prop_key inherited 0 nodes expandedRows ns).
    { apply elem_of_app in Hx as [Hx|Hx]; [|done].
      destruct (_ && _); by apply elem_of_nil in Hx. }
    destruct (IHn x Hx') as (n & Hn & Hb). exists n. split; [by right|done].
  - rewrite flat_nil. by intros ?%elem_of_nil.
  - rewrite flat_cons. intros [->|Hx]%elem_of_cons.
    { exists k. split; [by left|constructor]. }
    apply elem_of_app in Hx as [Hx|Hx].
    + destruct (is_expanded prop_key inherited expandedRows k) eqn:Hexp; simpl in Hx;
        [|by apply elem_of_nil in Hx].
      case_bool_decide; simpl in Hx; [|by apply elem_of_nil in Hx].
      destruct (IHf _ _ Hx) as (c & Hc & Hb). exists k. split; [by left|].
      apply below_trans with c; [|done].
      apply below_step with k; [by apply children_elem|done|constructor].
    + destruct (IHn x Hx) as (n & Hn & Hb). exists n. split; [by right|done].
Qed.

Lemma flat_closed (fuel d : nat) (ns : list key) (p x : key) :
  Forall (rooted data d) ns ->
  (length (key_order data) <= d + fuel)%nat ->
  p ∈ flat prop_key inherited fuel nodes expandedRows ns ->
  is_expanded prop_key inherited expandedRows p = true ->
  parent_of data x = Some p ->
  x ∈ flat prop_key inherited fuel nodes expandedRows ns.
Proof.
  intros Hall Hfuel Hp Hexp Hx.
  revert d ns Hall Hfuel Hp. induction fuel as [|fuel IHf]; intros d ns;
    induction ns as [|k ns IHn]; intros Hall Hfuel Hp.
  - rewrite flat_nil in Hp. by apply elem_of_nil in Hp.
  - rewrite flat_cons in Hp. rewrite flat_cons.
    apply Forall_cons in Hall as [Hk Hall].
    assert (Hcases : p = k ∨ p ∈ flat prop_key inherited 0 nodes expandedRows ns).
    { apply elem_of_cons in Hp as [->|Hp]; [by left|]. right.
      apply elem_of_app in Hp as [Hp|Hp]; [|done].
      destruct (_ && _); by apply elem_of_nil in Hp. }
    destruct Hcases as [->|Hp'].
    + assert (Hlen : (0 < length (node_children nodes k))%nat).
      { apply children_elem in Hx.
        destruct (node_children nodes k); [by apply elem_of_nil in Hx|simpl; lia]. }
      destruct (children_fuel d 0 k Hk Hfuel Hlen) as [? ?]. done.
    + right. apply elem_of_app. right. by apply IHn.
  - rewrite flat_nil in Hp. by apply elem_of_nil in Hp.
  - rewrite flat_cons in Hp. rewrite flat_cons.
    apply Forall_cons in Hall as [Hk Hall].
    apply elem_of_cons in Hp as [->|Hp].
    + right. apply elem_of_app. left. rewrite Hexp. simpl.
      pose proof Hx as Hin%children_elem.
      rewrite bool_decide_eq_true_2.
      * by apply flat_head.
      * destruct (node_children nodes k); [by apply elem_of_nil in Hin|simpl; lia].
    + apply elem_of_app in Hp as [Hp|Hp].
      * right. apply elem_of_app. left.
        destruct (is_expanded prop_key inherited expandedRows k
                  && bool_decide (0 < length (node_children nodes k))%nat);
          [|by apply elem_of_nil in Hp].
        apply (IHf (S d)); [by apply children_rooted|lia|done].
      * right. apply elem_of_app. right. by apply IHn.
Qed.

Lemma flat_elem (fuel d : nat) (ns : list key) (x : key) :
  Forall (rooted data d) ns ->
  (length (key_order data) <= d + fuel)%nat ->
  x ∈ flat prop_key inherited fuel nodes expandedRows ns
  ↔ ∃ n, n ∈ ns ∧ below prop_key inherited data expandedRows n x.
Proof.
  intros Hall Hfuel. split; [apply flat_below|].
  intros (n & Hn & Hb). induction Hb as [|k p Hp Hexp Hb IH].
  - by apply flat_head.
  - by eapply flat_closed.
Qed.

Lemma flat_NoDup (fuel d : nat) (ns : list key) :
  NoDup ns -> Forall (rooted data d) ns ->
  NoDup (flat prop_key inherited fuel nodes expandedRows ns).
Proof.
  revert d ns. induction fuel as [|fuel IHf]; intros d ns;
    induction ns as [|k ns IHn]; intros Hnd Hall.
  - rewrite flat_nil. constructor.
  - rewrite flat_cons. apply NoDup_cons in Hnd as [Hk Hnd].
    apply Forall_cons in Hall as [Hrk Hall].
    replace (if is_expanded prop_key inherited expandedRows k
                && bool_decide (0 < length (node_children nodes k))%nat
             then [] else []) with (@nil key) by (by destruct (_ && _)).
    rewrite app_nil_l. apply NoDup_cons. split; [|by apply (IHn Hnd)].
    intros (n & Hn & Hb)%flat_below.
    assert (n = k) as ->; [|done].
    apply (below_unique data expandedRows d n k k);
      [done|constructor| |done].
    by eapply Forall_forall in Hall.
  - rewrite flat_nil. constructor.
  - rewrite flat_cons. apply NoDup_cons in Hnd as [Hk Hnd].
    apply Forall_cons in Hall as [Hrk Hall].
    set (sub := if is_expanded prop_key inherited expandedRows k
                   && bool_decide (0 < length (node_children nodes k))%nat
                then flat prop_key inherited fuel nodes expandedRows (node_children nodes k)
                else []).
    assert (Hsub : ∀ y, y ∈ sub ->
              ∃ c, parent_of data c = Some k
                   ∧ is_expanded prop_key inherited expandedRows k = true
                   ∧ below prop_key inherited data expandedRows c y).
    { intros y Hy. unfold sub in Hy.
      destruct (is_expanded prop_key inherited expandedRows k) eqn:Hexp; simpl in Hy;
        [|by apply elem_of_nil in Hy].
      case_bool_decide; [|by apply elem_of_nil in Hy].
      apply flat_below in Hy as (c & Hc%children_elem & Hb). by exists c. }
    assert (Hsub_nd : NoDup sub).
    { unfold sub. destruct (_ && _); [|constructor].
      apply (IHf (S d)); [apply children_NoDup|by apply children_rooted]. }
    assert (Hrest : ∀ y, y ∈ flat prop_key inherited (S fuel) nodes expandedRows ns ->
              below prop_key inherited data expandedRows k y -> False).
    { intros y (n & Hn & Hb)%flat_below Hky.
      assert (n = k) as ->; [|done].
      apply (below_unique data expandedRows d n k y); [done|done| |done].
      by eapply Forall_forall in Hall. }
    assert (Hbelow : ∀ y, y ∈ sub -> below prop_key inherited data expandedRows k y).
    { intros y (c & Hc & Hexp & Hb)%Hsub.
      apply below_trans with c; [|done].
      apply below_step with k; [done|done|constructor]. }
    apply NoDup_cons. split.
    + intros [Hin|Hin]%elem_of_app.
      * destruct (Hsub k Hin) as (c & Hc & _ & Hb).
        assert (Hrc : rooted data (S d) c) by (simpl; eauto).
        destruct (below_rooted data expandedRows c k (S d) Hb Hrc) as [j Hj].
        pose proof (rooted_functional data _ _ _ Hrk Hj). lia.
      * apply (Hrest k Hin). constructor.
    + apply NoDup_app. split_and!; [done| |by apply (IHn Hnd)].
      intros y Hy Hy'. apply (Hrest y Hy'). by apply Hbelow.
Qed.

End Flat.


Lemma link_nodes_inv (data : list (@TreeNode key)) :
  link_inv data (key_order data) (link_nodes data).
Proof. apply link_inv_all. Qed.

Lemma link_nodes_is_Some (data : list (@TreeNode key)) (k : key) :
  is_Some ((link_nodes data).1 !! k) ↔ k ∈ map id data.
Proof.
  destruct (link_nodes_inv data) as (Hpar & _).
  rewrite <- node_of_is_Some, <- !fmap_is_Some with (f := node_parentId).
  rewrite Hpar. by rewrite fmap_is_Some.
Qed.

Lemma link_nodes_roots (data : list (@TreeNode key)) :
  (link_nodes data).2 = filter (fun k => parent_of data k = None) (key_order data).
Proof. by destruct (link_nodes_inv data) as (_ & ? & _). Qed.

Lemma link_nodes_children (data : list (@TreeNode key)) (p : key) :
  node_children (link_nodes data).1 p
  = filter (fun k => parent_of data k = Some p) (key_order data).
Proof. by destruct (link_nodes_inv data) as (_ & _ & ?). Qed.

Lemma link_nodes_roots_rooted (data : list (@TreeNode key)) :
  Forall (rooted data 0) (link_nodes data).2.
Proof.
  rewrite link_nodes_roots. apply Forall_forall.
  intros k [Hp Hk%key_order_elem]%list_elem_of_filter. by split.
Qed.

Lemma link_nodes_roots_NoDup (data : list (@TreeNode key)) :
  NoDup (link_nodes data).2.
Proof. rewrite link_nodes_roots. apply NoDup_filter, key_order_NoDup. Qed.

Lemma processTreeData_unfold (fuel : nat) (data : list (@TreeNode key))
    (expandedRows : gmap string bool) :
  processTreeData prop_key inherited fuel data expandedRows
  = node_rows (link_nodes data).1
      <$> flattenTree prop_key inherited fuel (link_nodes data).1 expandedRows
            (link_nodes data).2 [].
Proof.
  unfold processTreeData, link_nodes. rewrite <- init_nodes_order.
  destruct (init_nodes data) as [m0 order]. simpl.
  by destruct (fold_left link order (m0, [])).
Qed.

Lemma node_rows_fst (m : gmap key (@entry key)) (ids : list key) :
  (∀ k, k ∈ ids -> is_Some (m !! k)) -> (node_rows m ids).*1 = ids.
Proof.
  induction ids as [|k ids IH]; intros Hall; [done|].
  unfold node_rows. simpl. destruct (Hall k) as [e He]; [by left|].
  rewrite He. simpl. f_equal. apply IH. intros k' Hk'. apply Hall. by right.
Qed.

Lemma node_rows_elem (m : gmap key (@entry key)) (ids : list key) k e :
  (k, e) ∈ node_rows m ids -> k ∈ ids ∧ m !! k = Some e.
Proof.
  intros (k' & Hk' & Heq)%list_elem_of_omap.
  destruct (m !! k') as [e'|] eqn:He'; [|done]. simpl in Heq.
  injection Heq as <- <-. done.
Qed.

(** The rows of [processTreeData], for any fuel that lets it return and for
    every fuel from the number of nodes on. *)
Lemma processTreeData_rows (data : list (@TreeNode key))
    (expandedRows : gmap string bool) :
  let nodes := (link_nodes data).1 in
  let roots := (link_nodes data).2 in
  (∀ fuel rows, processTreeData prop_key inherited fuel data expandedRows = Some rows ->
     rows = node_rows nodes (flat prop_key inherited fuel nodes expandedRows roots))
  ∧ (∀ fuel, (length data <= fuel)%nat ->
       processTreeData prop_key inherited fuel data expandedRows
       = Some (node_rows nodes
                 (flat prop_key inherited (length data) nodes expandedRows roots))).
Proof.
  intros nodes roots. split.
  - intros fuel rows. rewrite processTreeData_unfold. fold nodes roots.
    destruct (flattenTree prop_key inherited fuel nodes expandedRows roots []) as [r|] eqn:Hr;
      [|done].
    apply flattenTree_flat in Hr as ->. simpl. congruence.
  - intros fuel Hfuel. rewrite processTreeData_unfold. fold nodes roots.
    pose proof (key_order_length data) as Hlen.
    destruct (flattenTree_total data expandedRows nodes (link_nodes_children data)
                fuel 0 roots []) as [r Hr];
      [apply link_nodes_roots_rooted|lia|].
    rewrite Hr. apply flattenTree_flat in Hr as ->. simpl. do 2 f_equal.
    apply (flat_fuel data expandedRows nodes (link_nodes_children data) fuel
             (length data) 0); [apply link_nodes_roots_rooted|lia|lia].
Qed.

Lemma flat_elem_ids (data : list (@TreeNode key))
    (expandedRows : gmap string bool) (fuel : nat) (k : key) :
  k ∈ flat prop_key inherited fuel (link_nodes data).1 expandedRows (link_nodes data).2 ->
  k ∈ map id data ∧ ∃ d, rooted data d k.
Proof.
  intros (r & Hr & Hb)%(flat_below data expandedRows _ (link_nodes_children data)).
  pose proof (link_nodes_roots_rooted data) as Hall.
  eapply Forall_forall in Hall; [|done].
  destruct (below_rooted data expandedRows r k 0 Hb Hall) as [j Hj].
  split; [by eapply rooted_elem|by eexists].
Qed.

Lemma processTreeData_ids (data : list (@TreeNode key))
    (expandedRows : gmap string bool) (fuel : nat) rows :
  processTreeData prop_key inherited fuel data expandedRows = Some rows ->
  rows.*1 = flat prop_key inherited fuel (link_nodes data).1 expandedRows (link_nodes data).2.
Proof.
  intros ->%processTreeData_rows. apply node_rows_fst.
  intros k [Hk _]%flat_elem_ids. by apply link_nodes_is_Some.
Qed.

Lemma flat_visible (data : list (@TreeNode key))
    (expandedRows : gmap string bool) (fuel : nat) (k : key) :
  (length data <= fuel)%nat ->
  k ∈ flat prop_key inherited fuel (link_nodes data).1 expandedRows (link_nodes data).2
  ↔ visible prop_key inherited data expandedRows k.
Proof.
  intros Hfuel. pose proof (key_order_length data) as Hlen.
  rewrite (flat_elem data expandedRows _ (link_nodes_children data) fuel 0);
    [|apply link_nodes_roots_rooted|lia].
  rewrite link_nodes_roots. unfold visible. split.
  - intros (r & [Hp Hr%key_order_elem]%list_elem_of_filter & Hb). by exists r.
  - intros (r & Hr & Hp & Hb). exists r. split; [|done].
    apply list_elem_of_filter. split; [done|]. by apply key_order_elem.
Qed.

Lemma flat_ext (nodes : gmap key (@entry key)) (e1 e2 : gmap string bool)
    (fuel : nat) (ns : list key) :
  (∀ k, is_expanded prop_key inherited e1 k = is_expanded prop_key inherited e2 k) ->
  flat prop_key inherited fuel nodes e1 ns = flat prop_key inherited fuel nodes e2 ns.
Proof.
  intros Hext. revert ns. induction fuel as [|fuel IHf]; intros ns;
    induction ns as [|k ns IHn]; simpl; try done.
  - rewrite Hext. f_equal. f_equal. exact IHn.
  - rewrite Hext, IHf. f_equal. f_equal. exact IHn.
Qed.

Lemma flattenTree_ext (nodes : gmap key (@entry key)) (e1 e2 : gmap string bool)
    (fuel : nat) (ns result : list key) :
  (∀ k, is_expanded prop_key inherited e1 k = is_expanded prop_key inherited e2 k) ->
  flattenTree prop_key inherited fuel nodes e1 ns result
  = flattenTree prop_key inherited fuel nodes e2 ns result.
Proof.
  intros Hext. 
  assert (Hfold : ∀ (f g : option (list key) -> key -> option (list key)) l a,
            (∀ a k, f a k = g a k) -> fold_left f l a = fold_left g l a).
  { intros f g l. induction l as [|x l IH]; intros a Hfg; [done|].
    simpl. rewrite Hfg. by apply IH. }
  revert ns result. induction fuel as [|fuel IHf]; intros ns result; simpl.
  - apply Hfold. intros a k. by rewrite Hext.
  - apply Hfold. intros [a|] k; [|done]. simpl. rewrite Hext.
    destruct (_ && _); [apply IHf|done].
Qed.

Lemma flat_collapsed (nodes : gmap key (@entry key))
    (expandedRows : gmap string bool) (fuel : nat) (ns : list key) :
  (∀ k, k ∈ ns -> is_expanded prop_key inherited expandedRows k = false) ->
  flat prop_key inherited fuel nodes expandedRows ns = ns.
Proof.
  induction ns as [|k ns IH]; intros Hall; [apply flat_nil|].
  rewrite flat_cons, IH.
  - rewrite (Hall k) by by left. done.
  - intros k' Hk'. apply Hall. by right.
Qed.


Lemma link_cases (data : list (@TreeNode key)) (m : gmap key (@entry key))
    (roots : list key) (k : key) :
  (∀ k, node_parentId <$> m !! k = parentId <$> node_of data k) ->
  k ∈ map id data ->
  (parent_of data k = None ∧ link (m, roots) k = (m, roots ++ [k]))
  ∨ ∃ node parent p,
      m !! k = Some node ∧ m !! p = Some parent ∧ parent_of data k = Some p
      ∧ link (m, roots) k
        = (alter (push_child k) p (<[k := set_level (level parent + 1) node]> m),
           roots).
Proof.
  intros Hpar Hk. apply node_of_is_Some in Hk as [n Hn].
  pose proof (Hpar k) as Hmk. rewrite Hn in Hmk. simpl in Hmk.
  destruct (m !! k) as [node|] eqn:Hnode; [|done]. simpl in Hmk.
  injection Hmk as Hnp.
  assert (Hpo : parent_of data k
                = p ← parentId n; if bool_decide (p ∈ map id data) then Some p else None).
  { unfold parent_of. by rewrite Hn. }
  unfold link. cbv beta iota. rewrite Hnode, Hnp.
  destruct (parentId n) as [pid|] eqn:Hpid; [|by left].
  simpl in Hpo.
  assert (Hdom : is_Some (m !! pid) ↔ pid ∈ map id data).
  { rewrite <- node_of_is_Some, <- !fmap_is_Some with (f := node_parentId).
    rewrite Hpar. by rewrite fmap_is_Some. }
  destruct (m !! pid) as [parent|] eqn:Hparent.
  - rewrite bool_decide_eq_true_2 in Hpo by (apply Hdom; by eexists).
    right. by exists node, parent, pid.
  - left. split; [|done]. rewrite Hpo, bool_decide_eq_false_2; [done|].
    intros Hin. apply Hdom in Hin as [? ?]. done.
Qed.

Lemma link_level_step (data : list (@TreeNode key)) (done_ : list key)
    (acc : gmap key (@entry key) * list key) (k : key) :
  link_inv data done_ acc -> k ∈ map id data ->
  (∀ k' e, acc.1 !! k' = Some e -> k' ∈ done_ ->
           level e = 0%nat ↔ parent_of data k' = None) ->
  (∀ k' e, acc.1 !! k' = Some e -> k' ∉ done_ -> level e = 0%nat) ->
  (∀ k' e, (link acc k).1 !! k' = Some e -> k' ∈ done_ ++ [k] ->
           level e = 0%nat ↔ parent_of data k' = None)
  ∧ (∀ k' e, (link acc k).1 !! k' = Some e -> k' ∉ done_ ++ [k] ->
             level e = 0%nat).
Proof.
  destruct acc as [m roots]. intros (Hpar & _) Hk I1 I2. simpl in Hpar, I1, I2.
  destruct (link_cases data m roots k Hpar Hk)
    as [[Hnone ->]|(node & parent & p & Hnode & Hparent & Hp & ->)]; cbn [fst snd].
  - split.
    + intros k' e He [Hin| ->%list_elem_of_singleton]%elem_of_app; [by apply I1|].
      split; [done|]. intros _.
      destruct (decide (k ∈ done_)); [by apply (I1 k e)|by apply (I2 k e)].
    + intros k' e He Hnot. apply (I2 k' e He). intros ?. apply Hnot.
      apply elem_of_app. by left.
  - assert (Hsame : ∀ k' e, k' ≠ k ->
              alter (push_child k) p (<[k:=set_level (level parent + 1) node]> m) !! k'
              = Some e ->
              ∃ e0, m !! k' = Some e0 ∧ level e0 = level e).
    { intros k' e Hne He.
      destruct (linked_lookup m k p node parent (level parent + 1) k' Hnode Hparent)
        as (_ & _ & Hl & _).
      specialize (Hl Hne). rewrite He in Hl. simpl in Hl.
      destruct (m !! k') as [e0|]; [|done]. simpl in Hl. injection Hl as Hl.
      by exists e0. }
    split.
    + intros k' e He Hin. destruct (decide (k' = k)) as [->|Hne].
      * destruct (linked_lookup m k p node parent (level parent + 1) k Hnode Hparent)
          as (_ & _ & _ & Hl).
        rewrite He in Hl. simpl in Hl. injection Hl as Hl.
        rewrite Hp, Hl. split; [lia|done].
      * destruct (Hsame k' e Hne He) as (e0 & He0 & <-).
        apply (I1 k' e0 He0).
        apply elem_of_app in Hin as [Hin| ->%list_elem_of_singleton]; done.
    + intros k' e He Hnot.
      assert (Hne : k' ≠ k).
      { intros ->. apply Hnot. apply elem_of_app. right. by left. }
      destruct (Hsame k' e Hne He) as (e0 & He0 & <-).
      apply (I2 k' e0 He0). intros ?. apply Hnot. apply elem_of_app. by left.
Qed.

Lemma link_level_fold (data : list (@TreeNode key)) (l done_ : list key)
    (acc : gmap key (@entry key) * list key) :
  link_inv data done_ acc -> (∀ k, k ∈ l -> k ∈ map id data) ->
  (∀ k' e, acc.1 !! k' = Some e -> k' ∈ done_ ->
           level e = 0%nat ↔ parent_of data k' = None) ->
  (∀ k' e, acc.1 !! k' = Some e -> k' ∉ done_ -> level e = 0%nat) ->
  ∀ k' e, (fold_left link l acc).1 !! k' = Some e -> k' ∈ done_ ++ l ->
          level e = 0%nat ↔ parent_of data k' = None.
Proof.
  revert done_ acc. induction l as [|k l IH]; intros done_ acc Hinv Hl I1 I2.
  - rewrite app_nil_r. simpl. done.
  - simpl. replace (done_ ++ k :: l) with ((done_ ++ [k]) ++ l)
      by (by rewrite <- app_assoc).
    assert (Hk : k ∈ map id data) by (apply Hl; by left).
    destruct (link_level_step data done_ acc k Hinv Hk I1 I2) as [I1' I2'].
    apply IH; [by apply link_inv_step| |done|done].
    intros k' Hk'. apply Hl. by right.
Qed.

Lemma link_nodes_level (data : list (@TreeNode key)) (k : key) e :
  (link_nodes data).1 !! k = Some e ->
  level e = 0%nat ↔ parent_of data k = None.
Proof.
  intros He.
  apply (link_level_fold data (key_order data) [] ((init_nodes data).1, [])).
  - apply link_inv_init.
  - intros k'. apply key_order_elem.
  - intros k' e' _ Hin. by apply elem_of_nil in Hin.
  - simpl. intros k' e'. rewrite init_nodes_lookup.
    destruct (node_of data k'); [|done]. simpl. by intros [= <-] _.
  - done.
  - simpl. apply key_order_elem, link_nodes_is_Some. by eexists.
Qed.

Lemma link_depth_step (data : list (@TreeNode key)) (done_ : list key)
    (acc : gmap key (@entry key) * list key) (k : key) :
  link_inv data done_ acc -> k ∈ map id data ->
  (∀ p, parent_of data k = Some p -> p ∈ done_) ->
  (∀ k' e, acc.1 !! k' = Some e -> k' ∈ done_ -> rooted data (level e) k') ->
  (∀ k' e, acc.1 !! k' = Some e -> k' ∉ done_ -> level e = 0%nat) ->
  (∀ k' e, (link acc k).1 !! k' = Some e -> k' ∈ done_ ++ [k] ->
           rooted data (level e) k')
  ∧ (∀ k' e, (link acc k).1 !! k' = Some e -> k' ∉ done_ ++ [k] ->
             level e = 0%nat).
Proof.
  destruct acc as [m roots]. intros (Hpar & _) Hk Hfirst I3 I2. simpl in Hpar, I3, I2.
  destruct (link_cases data m roots k Hpar Hk)
    as [[Hnone ->]|(node & parent & p & Hnode & Hparent & Hp & ->)]; cbn [fst snd].
  - split.
    + intros k' e He [Hin| ->%list_elem_of_singleton]%elem_of_app; [by apply I3|].
      destruct (decide (k ∈ done_)); [by apply (I3 k e)|].
      rewrite (I2 k e) by done. by split.
    + intros k' e He Hnot. apply (I2 k' e He). intros ?. apply Hnot.
      apply elem_of_app. by left.
  - assert (Hsame : ∀ k' e, k' ≠ k ->
              alter (push_child k) p (<[k:=set_level (level parent + 1) node]> m) !! k'
              = Some e ->
              ∃ e0, m !! k' = Some e0 ∧ level e0 = level e).
    { intros k' e Hne He.
      destruct (linked_lookup m k p node parent (level parent + 1) k' Hnode Hparent)
        as (_ & _ & Hl & _).
      specialize (Hl Hne). rewrite He in Hl. simpl in Hl.
      destruct (m !! k') as [e0|]; [|done]. simpl in Hl. injection Hl as Hl.
      by exists e0. }
    split.
    + intros k' e He Hin. destruct (decide (k' = k)) as [->|Hne].
      * destruct (linked_lookup m k p node parent (level parent + 1) k Hnode Hparent)
          as (_ & _ & _ & Hl).
        rewrite He in Hl. simpl in Hl. injection Hl as Hl.
        rewrite Hl, Nat.add_1_r. simpl. exists p. split; [done|].
        apply (I3 p parent Hparent). by apply Hfirst.
      * destruct (Hsame k' e Hne He) as (e0 & He0 & <-).
        apply (I3 k' e0 He0).
        apply elem_of_app in Hin as [Hin| ->%list_elem_of_singleton]; done.
    + intros k' e He Hnot.
      assert (Hne : k' ≠ k).
      { intros ->. apply Hnot. apply elem_of_app. right. by left. }
      destruct (Hsame k' e Hne He) as (e0 & He0 & <-).
      apply (I2 k' e0 He0). intros ?. apply Hnot. apply elem_of_app. by left.
Qed.

Lemma link_depth_fold (data : list (@TreeNode key)) (l done_ : list key)
    (acc : gmap key (@entry key) * list key) :
  parents_first data -> done_ ++ l = key_order data ->
  link_inv data done_ acc ->
  (∀ k' e, acc.1 !! k' = Some e -> k' ∈ done_ -> rooted data (level e) k') ->
  (∀ k' e, acc.1 !! k' = Some e -> k' ∉ done_ -> level e = 0%nat) ->
  ∀ k' e, (fold_left link l acc).1 !! k' = Some e -> k' ∈ done_ ++ l ->
          rooted data (level e) k'.
Proof.
  intros Hfirst. revert done_ acc.
  induction l as [|k l IH]; intros done_ acc Horder Hinv I3 I2.
  - rewrite app_nil_r. simpl. done.
  - simpl. replace (done_ ++ k :: l) with ((done_ ++ [k]) ++ l)
      by (by rewrite <- app_assoc).
    assert (Hk : k ∈ map id data).
    { apply key_order_elem. rewrite <- Horder. apply elem_of_app. right. by left. }
    assert (Hp : ∀ p, parent_of data k = Some p -> p ∈ done_).
    { intros p Hp. specialize (Hfirst (length done_) k p).
      rewrite <- Horder in Hfirst. rewrite list_lookup_middle in Hfirst by done.
      rewrite take_app_length in Hfirst. by apply Hfirst. }
    destruct (link_depth_step data done_ acc k Hinv Hk Hp I3 I2) as [I3' I2'].
    apply IH; [by rewrite <- app_assoc|by apply link_inv_step|done|done].
Qed.

Lemma link_nodes_depth (data : list (@TreeNode key)) (k : key) e :
  parents_first data ->
  (link_nodes data).1 !! k = Some e -> rooted data (level e) k.
Proof.
  intros Hfirst He.
  apply (link_depth_fold data (key_order data) [] ((init_nodes data).1, [])).
  - done.
  - done.
  - apply link_inv_init.
  - intros k' e' _ Hin. by apply elem_of_nil in Hin.
  - simpl. intros k' e'. rewrite init_nodes_lookup.
    destruct (node_of data k'); [|done]. simpl. by intros [= <-] _.
  - done.
  - simpl. apply key_order_elem, link_nodes_is_Some. by eexists.
Qed.

Lemma link_nodes_entry (data : list (@TreeNode key)) (k : key) e :
  (link_nodes data).1 !! k = Some e ->
  Some (node_parentId e) = parentId <$> node_of data k
  ∧ children e = filter (fun c => parent_of data c = Some k) (key_order data).
Proof.
  intros He. destruct (link_nodes_inv data) as (Hpar & _ & Hch). split.
  - rewrite <- Hpar, He. done.
  - rewrite <- Hch. unfold node_children. by rewrite He.
Qed.


Lemma flattenTree_collapsed (nodes : gmap key (@entry key))
    (expandedRows : gmap string bool) (fuel : nat) (ns result : list key) :
  (∀ k, k ∈ ns -> is_expanded prop_key inherited expandedRows k = false) ->
  flattenTree prop_key inherited fuel nodes expandedRows ns result = Some (result ++ ns).
Proof.
  revert result. induction ns as [|k ns IH]; intros result Hall.
  - by rewrite flattenTree_nil, app_nil_r.
  - rewrite flattenTree_cons, (Hall k) by by left. simpl.
    rewrite IH, <- app_assoc; [done|]. intros k' Hk'. apply Hall. by right.
Qed.

Lemma is_expanded_toggle (expandedRows : gmap string bool) (i k : key) :
  is_expanded prop_key inherited (handleToggleExpand prop_key inherited i expandedRows) k
  = if decide (prop_key k = prop_key i)
    then negb (is_expanded prop_key inherited expandedRows k)
    else is_expanded prop_key inherited expandedRows k.
Proof.
  unfold is_expanded, handleToggleExpand.
  destruct (decide (prop_key k = prop_key i)) as [->|Hne].
  - by rewrite lookup_insert_eq.
  - by rewrite lookup_insert_ne.
Qed.

Lemma flat_expand_one (nodes : gmap key (@entry key))
    (expandedRows : gmap string bool) (fuel : nat) (ns : list key) (r : key) :
  (∀ k, k ∈ ns -> is_expanded prop_key inherited expandedRows k = bool_decide (k = r)) ->
  (∀ c, c ∈ node_children nodes r -> is_expanded prop_key inherited expandedRows c = false) ->
  (r ∈ ns -> (0 < fuel)%nat) ->
  flat prop_key inherited fuel nodes expandedRows ns
  = ns ≫= fun k => if decide (k = r) then k :: node_children nodes r else [k].
Proof.
  intros Hns Hc Hfuel. induction ns as [|k ns IH]; [apply flat_nil|].
  rewrite flat_cons, bind_cons, IH.
  - rewrite (Hns k) by by left. destruct (decide (k = r)) as [->|Hne].
    + rewrite bool_decide_eq_true_2 by done. simpl. f_equal. f_equal.
      case_bool_decide as Hlen.
      * destruct fuel as [|fuel]; [by specialize (Hfuel ltac:(by left)); lia|].
        by apply flat_collapsed.
      * destruct (node_children nodes r); [done|simpl in Hlen; lia].
    + by rewrite bool_decide_eq_false_2.
  - intros k' Hk'. apply Hns. by right.
  - intros Hr. apply Hfuel. by right.
Qed.

End TreeFacts.

(** X16. [processTreeData] of the tree grid (part_003) returns on every
    input, whatever the parent links are: with fuel from the number of nodes
    on, the recursion of [flattenTree] is never cut short, and the rows do not
    depend on the fuel. No id is shown twice; a node is shown exactly when it
    lies below a node without (known) parent and all the nodes above it are
    expanded; the [children] of a row are the nodes that name it as their
    parent, in the order the ids first occur in [data], and its [parentId] is
    that of the last node of [data] with its id. *)
Theorem treeDataGrid_rows_visible {key : Type} `{Countable key}
    (prop_key : key -> string) (inherited : string -> bool)
    (data : list (@TreeDataGrid.TreeNode key))
    (expandedRows : gmap string bool) :
  ∃ rows,
    (∀ fuel, (length data <= fuel)%nat ->
       TreeDataGrid.processTreeData prop_key inherited fuel data expandedRows = Some rows)
    ∧ NoDup rows.*1
    ∧ (∀ k, k ∈ rows.*1 ↔ TreeDataGrid.visible prop_key inherited data expandedRows k)
    ∧ (∀ k e, (k, e) ∈ rows ->
         Some (TreeDataGrid.node_parentId e)
         = TreeDataGrid.parentId <$> TreeDataGrid.node_of data k
         ∧ TreeDataGrid.children e
           = filter (fun c => TreeDataGrid.parent_of data c = Some k)
                    (TreeDataGrid.key_order data)).
Proof.
  destruct (processTreeData_rows prop_key inherited data expandedRows) as [_ Hrows].
  eexists. split; [exact Hrows|].
  pose proof (Hrows (length data) (le_n _)) as Hn.
  apply processTreeData_ids in Hn. rewrite Hn. split_and!.
  - apply (flat_NoDup prop_key inherited data expandedRows _ (link_nodes_children data) _ 0).
    + apply link_nodes_roots_NoDup.
    + apply link_nodes_roots_rooted.
  - intros k. by apply flat_visible.
  - intros k e [_ He]%node_rows_elem. by apply link_nodes_entry.
Qed.

Lemma treeDataGrid_rows_visible_witness :
  ∃ rows : list (string * TreeDataGrid.entry),
    TreeDataGrid.processTreeData (fun s : string => s) (fun _ => false) 2
      [TreeDataGrid.mkTreeNode "a" None; TreeDataGrid.mkTreeNode "b" (Some "a")]
      {[ "a" := true ]} = Some rows
    ∧ NoDup rows.*1.
Proof.
  destruct (treeDataGrid_rows_visible (fun s : string => s) (fun _ => false)
              [TreeDataGrid.mkTreeNode "a" None; TreeDataGrid.mkTreeNode "b" (Some "a")]
              {[ "a" := true ]}) as (rows & Hrows & Hnd & _).
  exists rows. split; [|exact Hnd]. apply Hrows. simpl. lia.
Defined.

(** X17. With no row expanded, [processTreeData] (part_003) returns, for any
    fuel, exactly the nodes without parent, in the order in which their ids
    first occur in [data]; a node whose [parentId] names no node of [data]
    counts as one of them. *)
Theorem treeDataGrid_collapsed_rows {key : Type} `{Countable key}
    (prop_key : key -> string) (inherited : string -> bool)
    (data : list (@TreeDataGrid.TreeNode key))
    (expandedRows : gmap string bool) (fuel : nat) :
  (∀ k, TreeDataGrid.is_expanded prop_key inherited expandedRows k = false) ->
  ∃ rows,
    TreeDataGrid.processTreeData prop_key inherited fuel data expandedRows = Some rows
    ∧ rows.*1 = filter (fun k => TreeDataGrid.parent_of data k = None)
                       (TreeDataGrid.key_order data).
Proof.
  intros Hcol.
  assert (Hp : TreeDataGrid.processTreeData prop_key inherited fuel data expandedRows
               = Some (TreeDataGrid.node_rows (TreeDataGrid.link_nodes data).1
                         (TreeDataGrid.link_nodes data).2)).
  { rewrite processTreeData_unfold, flattenTree_collapsed; [done|].
    intros k _. apply Hcol. }
  eexists. split; [exact Hp|].
  rewrite (processTreeData_ids prop_key inherited data expandedRows fuel _ Hp).
  rewrite flat_collapsed by (intros k _; apply Hcol).
  apply link_nodes_roots.
Qed.

Lemma treeDataGrid_collapsed_rows_witness :
  ∃ rows,
    TreeDataGrid.processTreeData (fun s : string => s) (fun _ => false) 0
      [TreeDataGrid.mkTreeNode "a" None; TreeDataGrid.mkTreeNode "b" (Some "a");
       TreeDataGrid.mkTreeNode "c" (Some "x")] ∅ = Some rows
    ∧ rows.*1 = ["a"; "c"].
Proof.
  refine (treeDataGrid_collapsed_rows (fun s : string => s) (fun _ => false)
            [TreeDataGrid.mkTreeNode "a" None; TreeDataGrid.mkTreeNode "b" (Some "a");
             TreeDataGrid.mkTreeNode "c" (Some "x")] ∅ 0 _).
  intros k. reflexivity.
Defined.

(** X18. A node that is its own ancestor (its parent links lead back to it,
    as for a node that names itself as parent) is never among the rows of
    [processTreeData] (part_003), whatever is expanded. *)
Theorem treeDataGrid_cycle_hidden {key : Type} `{Countable key}
    (prop_key : key -> string) (inherited : string -> bool)
    (data : list (@TreeDataGrid.TreeNode key))
    (expandedRows : gmap string bool) (fuel : nat)
    (rows : list (key * @TreeDataGrid.entry key)) (j : nat) (k : key) :
  TreeDataGrid.processTreeData prop_key inherited fuel data expandedRows = Some rows ->
  (0 < j)%nat ->
  TreeDataGrid.ancestor data j k = Some k ->
  k ∉ rows.*1.
Proof.
  intros Hrows Hj Hanc Hin.
  rewrite (processTreeData_ids prop_key inherited data expandedRows fuel rows Hrows) in Hin.
  apply flat_elem_ids in Hin as [_ [d Hd]].
  destruct (ancestor_rooted data j d k k Hd Hanc) as [Hle Hd'].
  pose proof (rooted_functional data _ _ _ Hd Hd'). lia.
Qed.

Lemma treeDataGrid_cycle_hidden_witness :
  "b" ∉ ([("a", @TreeDataGrid.Entry string None 0 [])]).*1.
Proof.
  apply (treeDataGrid_cycle_hidden (fun s : string => s) (fun _ => false)
           [TreeDataGrid.mkTreeNode "a" None; TreeDataGrid.mkTreeNode "b" (Some "b")]
           {[ "b" := true ]} 2 _ 1 "b").
  - vm_compute. reflexivity.
  - lia.
  - vm_compute. reflexivity.
Defined.

(** X19. The [level] of a row of [processTreeData] (part_003) is 0 exactly
    for the nodes without parent. When every node comes after its parent in
    the order of the map, the level of each row is its depth in the tree;
    the levels are computed in one pass in that order, from the level the
    parent has at that moment. *)
Theorem treeDataGrid_levels {key : Type} `{Countable key}
    (prop_key : key -> string) (inherited : string -> bool)
    (data : list (@TreeDataGrid.TreeNode key))
    (expandedRows : gmap string bool) (fuel : nat)
    (rows : list (key * @TreeDataGrid.entry key)) (k : key) (e : @TreeDataGrid.entry key) :
  TreeDataGrid.processTreeData prop_key inherited fuel data expandedRows = Some rows ->
  (k, e) ∈ rows ->
  (TreeDataGrid.level e = 0%nat ↔ TreeDataGrid.parent_of data k = None)
  ∧ (TreeDataGrid.parents_first data ->
     TreeDataGrid.rooted data (TreeDataGrid.level e) k).
Proof.
  intros Hrows Hin.
  apply processTreeData_rows in Hrows as ->.
  apply node_rows_elem in Hin as [_ He]. split.
  - by apply link_nodes_level.
  - intros Hfirst. by apply link_nodes_depth.
Qed.

Lemma treeDataGrid_levels_witness :
  TreeDataGrid.rooted
    [TreeDataGrid.mkTreeNode "a" None; TreeDataGrid.mkTreeNode "b" (Some "a")]
    1 "b".
Proof.
  refine (proj2 (treeDataGrid_levels (fun s : string => s) (fun _ => false)
            [TreeDataGrid.mkTreeNode "a" None; TreeDataGrid.mkTreeNode "b" (Some "a")]
            {[ "a" := true ]} 2
            [("a", TreeDataGrid.Entry None 0 ["b"]);
             ("b", TreeDataGrid.Entry (Some "a") 1 [])]
            "b" (TreeDataGrid.Entry (Some "a") 1 []) _ _) _).
  - vm_compute. reflexivity.
  - right. left.
  - intros i k p Hi Hp.
    destruct i as [|[|i]]; vm_compute in Hi; [|injection Hi as <-|done].
    + injection Hi as <-. vm_compute in Hp. done.
    + vm_compute in Hp. injection Hp as <-. vm_compute. left.
Defined.

(** X20. [handleToggleExpand] of the tree grid (part_003): toggling a row
    twice gives the rows back. In a tree with no row expanded, toggling a
    node without parent inserts its children right after it and changes
    nothing else, provided no other id of [data] converts to the same
    property name (as the number 1 and the string "1" do). *)
Theorem treeDataGrid_toggle_expand {key : Type} `{Countable key}
    (prop_key : key -> string) (inherited : string -> bool)
    (data : list (@TreeDataGrid.TreeNode key))
    (expandedRows : gmap string bool) (r : key) :
  (∀ fuel,
     TreeDataGrid.processTreeData prop_key inherited fuel data
       (TreeDataGrid.handleToggleExpand prop_key inherited r
          (TreeDataGrid.handleToggleExpand prop_key inherited r expandedRows))
     = TreeDataGrid.processTreeData prop_key inherited fuel data expandedRows)
  ∧ ((∀ k, TreeDataGrid.is_expanded prop_key inherited expandedRows k = false) ->
     TreeDataGrid.parent_of data r = None ->
     (∀ k, k ∈ map TreeDataGrid.id data -> prop_key k = prop_key r -> k = r) ->
     ∀ fuel, (length data <= fuel)%nat ->
     ∃ rows,
       TreeDataGrid.processTreeData prop_key inherited fuel data
         (TreeDataGrid.handleToggleExpand prop_key inherited r expandedRows) = Some rows
       ∧ rows.*1
         = filter (fun k => TreeDataGrid.parent_of data k = None)
                  (TreeDataGrid.key_order data)
           ≫= fun k =>
                if decide (k = r)
                then k :: filter (fun c => TreeDataGrid.parent_of data c = Some r)
                                 (TreeDataGrid.key_order data)
                else [k]).
Proof.
  split.
  - intros fuel. rewrite !processTreeData_unfold. f_equal.
    apply flattenTree_ext. intros k. rewrite !is_expanded_toggle.
    destruct (decide (prop_key k = prop_key r)); [apply negb_involutive|done].
  - intros Hcol Hroot Hinj fuel Hfuel.
    set (exp' := TreeDataGrid.handleToggleExpand prop_key inherited r expandedRows).
    destruct (processTreeData_rows prop_key inherited data exp') as [Hsound Htotal].
    specialize (Htotal fuel Hfuel). eexists. split; [exact Htotal|].
    apply processTreeData_ids in Htotal. rewrite Htotal.
    assert (Hexp : ∀ k, k ∈ map TreeDataGrid.id data ->
              TreeDataGrid.is_expanded prop_key inherited exp' k = bool_decide (k = r)).
    { intros k Hk. unfold exp'. rewrite is_expanded_toggle, Hcol.
      destruct (decide (prop_key k = prop_key r)) as [Heq|Hne].
      - by rewrite bool_decide_eq_true_2 by by apply Hinj.
      - rewrite bool_decide_eq_false_2; [done|]. by intros ->. }
    rewrite (flat_expand_one prop_key inherited _ exp' fuel _ r).
    + by rewrite link_nodes_roots, link_nodes_children.
    + intros k Hk. apply Hexp. rewrite link_nodes_roots in Hk.
      apply list_elem_of_filter in Hk as [_ Hk]. by apply key_order_elem.
    + intros c Hc. rewrite link_nodes_children in Hc.
      apply list_elem_of_filter in Hc as [Hp Hc%key_order_elem].
      rewrite Hexp by done. apply bool_decide_eq_false. intros ->. congruence.
    + intros Hr. rewrite link_nodes_roots in Hr.
      apply list_elem_of_filter in Hr as [_ Hr%key_order_elem].
      destruct data; [by apply elem_of_nil in Hr|simpl in Hfuel; lia].
Qed.

Lemma treeDataGrid_toggle_expand_witness :
  ∃ rows,
    TreeDataGrid.processTreeData (fun s : string => s) (fun _ => false) 3
      [TreeDataGrid.mkTreeNode "a" None; TreeDataGrid.mkTreeNode "b" (Some "a");
       TreeDataGrid.mkTreeNode "c" None]
      (TreeDataGrid.handleToggleExpand (fun s : string => s) (fun _ => false) "a" ∅) = Some rows
    ∧ rows.*1 = ["a"; "b"; "c"].
Proof.
  refine (proj2 (treeDataGrid_toggle_expand (fun s : string => s) (fun _ => false)
            [TreeDataGrid.mkTreeNode "a" None; TreeDataGrid.mkTreeNode "b" (Some "a");
             TreeDataGrid.mkTreeNode "c" None] ∅ "a") _ _ _ 3%nat _).
  - intros k. reflexivity.
  - vm_compute. reflexivity.
  - intros k _ Hk. exact Hk.
  - simpl. lia.
Defined.

(** ** Tree grid over nested data (part_008) *)

Section FlatTreeFacts.
Import FlatTreeGrid.
Context {key : Type} `{Countable key}.

Lemma node_forall_ind (P : @node key -> Prop) :
  (∀ i, P (Node i None)) ->
  (∀ i cs, Forall P cs -> P (Node i (Some cs))) ->
  ∀ n, P n.
Proof.
  intros Hnone Hsome. fix IH 1. intros [i [cs|]]; [|apply Hnone].
  apply Hsome. induction cs as [|c cs IHcs]; constructor; [apply IH|apply IHcs].
Qed.

Lemma flattenTreeData_cons (n : @node key) ns p d :
  flattenTreeData (n :: ns) p d = flatten_node p d n ++ flattenTreeData ns p d.
Proof. done. Qed.

Lemma flatten_node_Some (i : key) (cs : list (@node key)) p d :
  flatten_node p d (Node i (Some cs))
  = Row i p d (bool_decide (0 < length cs)%nat)
    :: flattenTreeData cs (Some i) (d + 1).
Proof.
  reflexivity.
Qed.

Lemma node_count_Some (i : key) (cs : list (@node key)) :
  node_count (Node i (Some cs)) = S (forest_count cs).
Proof.
  reflexivity.
Qed.

Lemma parents_before_app (l1 l2 : list (@row key)) p d :
  parents_before l1 p d -> parents_before l2 p d -> parents_before (l1 ++ l2) p d.
Proof.
  intros H1 H2 n r Hn. apply lookup_app_Some in Hn as [Hn|[Hlen Hn]].
  - destruct (H1 n r Hn) as [?|(m & r' & Hm & Hr' & Hp' & Hd' & Hh')]; [by left|].
    right. exists m, r'. split_and!; try done. by apply lookup_app_l_Some.
  - destruct (H2 _ r Hn) as [?|(m & r' & Hm & Hr' & Hp' & Hd' & Hh')]; [by left|].
    right. exists (length l1 + m)%nat, r'. split_and!; try done; [lia|].
    rewrite lookup_app_r by lia. rewrite <- Hr'. f_equal. lia.
Qed.

Lemma parents_before_cons (i : key) p d hc (l : list (@row key)) :
  parents_before l (Some i) (S d) -> (l ≠ [] -> hc = true) ->
  parents_before (Row i p d hc :: l) p d.
Proof.
  intros Hl Hhc [|n] r Hn; simpl in Hn.
  - injection Hn as <-. by left.
  - right. destruct (Hl n r Hn) as [[Hp Hd]|(m & r' & Hm & Hr' & Hp' & Hd' & Hh')].
    + exists 0%nat, (Row i p d hc). simpl. split_and!; try done; [lia|].
      apply Hhc. intros ->. done.
    + exists (S m), r'. split_and!; try done. lia.
Qed.

Lemma flatten_node_parents_before (n : @node key) :
  ∀ p d, parents_before (flatten_node p d n) p d.
Proof.
  induction n as [i|i cs IH] using node_forall_ind; intros p d.
  - simpl. apply parents_before_cons; [|done]. intros n r Hn. done.
  - rewrite flatten_node_Some, Nat.add_1_r. apply parents_before_cons.
    + induction IH as [|c cs Hc Hcs IH]; [by intros n r Hn|].
      rewrite flattenTreeData_cons. apply parents_before_app; [apply Hc|done].
    + intros Hne. apply bool_decide_eq_true.
      destruct cs; [done|simpl; lia].
Qed.

Lemma flattenTreeData_parents_before (ns : list (@node key)) p d :
  parents_before (flattenTreeData ns p d) p d.
Proof.
  induction ns as [|n ns IH]; [by intros k r Hk|].
  rewrite flattenTreeData_cons.
  apply parents_before_app; [apply flatten_node_parents_before|done].
Qed.

Lemma flatten_node_length (n : @node key) :
  ∀ p d, length (flatten_node p d n) = node_count n.
Proof.
  induction n as [i|i cs IH] using node_forall_ind; intros p d; [done|].
  rewrite flatten_node_Some, node_count_Some. simpl. f_equal.
  induction IH as [|c cs Hc Hcs IH]; [done|].
  rewrite flattenTreeData_cons, length_app, Hc, IH. done.
Qed.

Lemma flattenTreeData_length (ns : list (@node key)) p d :
  length (flattenTreeData ns p d) = forest_count ns.
Proof.
  induction ns as [|n ns IH]; [done|].
  rewrite flattenTreeData_cons, length_app, flatten_node_length, IH. done.
Qed.

Section Visible.
Context (rows : list (@row key)) (expandedIds : gset key) (d0 : nat).
Hypothesis Hpb : parents_before rows None d0.

Lemma isVisible_loop_None (fuel : nat) :
  isVisible_loop fuel rows expandedIds None = Some true.
Proof. by destruct fuel. Qed.

Lemma isVisible_loop_collapsed (fuel : nat) (c : key) :
  c ∉ expandedIds -> isVisible_loop fuel rows expandedIds (Some c) = Some false.
Proof. intros Hc. destruct fuel; simpl; by rewrite bool_decide_eq_false_2. Qed.

Lemma isVisible_loop_expanded (fuel : nat) (c : key) :
  c ∈ expandedIds ->
  isVisible_loop (S fuel) rows expandedIds (Some c)
  = isVisible_loop fuel rows expandedIds
      match find (fun r => bool_decide (id r = c)) rows with
      | Some r => parentId r
      | None => None
      end.
Proof. intros Hc. simpl. by rewrite bool_decide_eq_true_2. Qed.

Lemma find_parent_row (m : nat) (r : @row key) :
  rows !! m = Some r ->
  ∃ k pr, (k <= m)%nat ∧ rows !! k = Some pr
          ∧ find (fun r' => bool_decide (id r' = id r)) rows = Some pr.
Proof.
  intros Hm.
  destruct (find_is_Some (fun r' => bool_decide (id r' = id r)) rows r) as [pr Hpr].
  { by eapply list_elem_of_lookup_2. }
  { by apply bool_decide_eq_true. }
  destruct (find_Some_first _ _ _ Hpr) as (k & Hk & _ & Hfirst).
  exists k, pr. split_and!; [|done|done].
  destruct (decide (k <= m)%nat) as [|Hgt]; [done|].
  assert (Hf : bool_decide (id r = id r) = false) by (apply (Hfirst m r); [lia|done]).
  by apply bool_decide_eq_false in Hf.
Qed.

Lemma isVisible_loop_total (bound : nat) :
  ∀ m r, (m < bound)%nat -> rows !! m = Some r ->
  ∃ b, ∀ fuel, (bound <= fuel)%nat ->
       isVisible_loop fuel rows expandedIds (Some (id r)) = Some b.
Proof.
  induction bound as [|bound IH]; intros m r Hm Hr; [lia|].
  destruct (decide (id r ∈ expandedIds)) as [Hin|Hnot].
  2:{ exists false. intros fuel _. by apply isVisible_loop_collapsed. }
  destruct (find_parent_row m r Hr) as (k & pr & Hk & Hpr & Hfind).
  destruct (Hpb k pr Hpr) as [[Hp _]|(m' & r' & Hm' & Hr' & Hp & _)].
  - exists true. intros [|fuel] Hfuel; [lia|].
    rewrite isVisible_loop_expanded, Hfind, Hp by done.
    apply isVisible_loop_None.
  - destruct (IH m' r') as [b Hb]; [lia|done|].
    exists b. intros [|fuel] Hfuel; [lia|].
    rewrite isVisible_loop_expanded, Hfind, Hp by done. apply Hb. lia.
Qed.

Lemma isVisible_total (n : nat) (r : @row key) :
  rows !! n = Some r ->
  ∃ b, ∀ fuel, (n <= fuel)%nat -> isVisible fuel rows expandedIds r = Some b.
Proof.
  intros Hr. unfold isVisible.
  destruct (Hpb n r Hr) as [[Hp _]|(m & r' & Hm & Hr' & Hp & _)]; rewrite Hp.
  - exists true. intros fuel _. apply isVisible_loop_None.
  - by apply (isVisible_loop_total n m r').
Qed.

Lemma isVisible_parent (n : nat) (r : @row key) (c : key) (fuel : nat) :
  rows !! n = Some r -> parentId r = Some c -> (n <= fuel)%nat ->
  isVisible fuel rows expandedIds r = Some true
  ↔ c ∈ expandedIds
    ∧ ∃ pr, find (fun r' => bool_decide (id r' = c)) rows = Some pr
            ∧ isVisible fuel rows expandedIds pr = Some true.
Proof.
  intros Hr Hc Hfuel.
  destruct (Hpb n r Hr) as [[Hp _]|(m & r' & Hm & Hr' & Hp & _)]; [congruence|].
  assert (c = id r') as -> by congruence.
  destruct (find_parent_row m r' Hr') as (k & pr & Hk & Hpr & Hfind).
  destruct fuel as [|fuel]; [lia|].
  unfold isVisible at 1. rewrite Hc.
  destruct (decide (id r' ∈ expandedIds)) as [Hin|Hnot].
  - rewrite isVisible_loop_expanded, Hfind by done.
    fold (isVisible fuel rows expandedIds pr).
    destruct (isVisible_total k pr Hpr) as [b Hb].
    rewrite (Hb fuel) by lia. split.
    + intros Heq. split; [done|]. exists pr. split; [done|].
      rewrite (Hb (S fuel)) by lia. done.
    + intros (_ & pr' & Hpr' & Hvis). assert (pr' = pr) as -> by congruence.
      rewrite (Hb (S fuel)) in Hvis by lia. done.
  - rewrite isVisible_loop_collapsed by done. split; [done|]. by intros [? _].
Qed.

End Visible.

Lemma visibleRows_filter (rows data : list (@row key)) (expandedIds : gset key)
    (fuel : nat) :
  (∀ r, r ∈ data -> is_Some (isVisible fuel rows expandedIds r)) ->
  foldr (fun r acc =>
           b ← isVisible fuel rows expandedIds r;
           rest ← acc;
           Some (if b : bool then r :: rest else rest))
        (Some []) data
  = Some (filter (fun r => isVisible fuel rows expandedIds r = Some true) data).
Proof.
  induction data as [|r data IH]; intros Hall; [done|].
  simpl. rewrite IH by (intros r' Hr'; apply Hall; by right).
  destruct (Hall r) as [b Hb]; [by left|]. rewrite Hb. simpl.
  destruct b.
  - by rewrite filter_cons_True by exact Hb.
  - rewrite filter_cons_False; [done|]. rewrite Hb. done.
Qed.


Lemma parents_before_Some (l : list (@row key)) (i : key) d r :
  parents_before l (Some i) d -> r ∈ l -> parentId r ≠ None.
Proof.
  intros Hl (n & Hn)%list_elem_of_lookup_1.
  destruct (Hl n r Hn) as [[Hp _]|(m & r' & _ & _ & Hp & _)]; by rewrite Hp.
Qed.

Lemma filter_none (l : list (@row key)) :
  (∀ r, r ∈ l -> parentId r ≠ None) -> filter (fun r => parentId r = None) l = [].
Proof.
  induction l as [|r l IH]; intros Hall; [done|].
  rewrite filter_cons_False by (apply Hall; by left).
  apply IH. intros r' Hr'. apply Hall. by right.
Qed.

Lemma flatten_node_top (n : @node key) :
  filter (fun r => parentId r = None) (flatten_node None 0 n) = [top_row n].
Proof.
  destruct n as [i [cs|]]; [|done].
  rewrite flatten_node_Some, filter_cons_True by done. simpl. f_equal.
  apply filter_none. intros r.
  apply (parents_before_Some _ i (0 + 1)), flattenTreeData_parents_before.
Qed.

Lemma flattenTreeData_top (ns : list (@node key)) :
  filter (fun r => parentId r = None) (flattenTreeData ns None 0) = top_row <$> ns.
Proof.
  induction ns as [|n ns IH]; [done|].
  rewrite flattenTreeData_cons, filter_app, flatten_node_top, IH. done.
Qed.

Lemma isVisible_collapsed (rows : list (@row key)) (fuel : nat) (r : @row key) :
  isVisible fuel rows ∅ r = Some (bool_decide (parentId r = None)).
Proof.
  unfold isVisible. destruct (parentId r) as [c|].
  - rewrite isVisible_loop_collapsed by apply not_elem_of_empty. done.
  - by rewrite isVisible_loop_None.
Qed.

Lemma isVisible_one_expanded (rows : list (@row key)) (fuel : nat) (i : key)
    (pr r : @row key) :
  find (fun r' => bool_decide (id r' = i)) rows = Some pr ->
  parentId pr = None ->
  isVisible (S fuel) rows {[ i ]} r
  = Some (bool_decide (parentId r = None ∨ parentId r = Some i)).
Proof.
  intros Hfind Hroot. unfold isVisible. destruct (parentId r) as [c|].
  - destruct (decide (c = i)) as [->|Hne].
    + rewrite isVisible_loop_expanded, Hfind, Hroot, isVisible_loop_None
        by by apply elem_of_singleton.
      by rewrite bool_decide_eq_true_2 by by right.
    + rewrite isVisible_loop_collapsed by by intros ?%elem_of_singleton.
      rewrite bool_decide_eq_false_2; [done|]. intros [?|?]; congruence.
  - rewrite isVisible_loop_None.
    by rewrite bool_decide_eq_true_2 by by left.
Qed.

End FlatTreeFacts.

(** X21. [flattenTreeData] (part_008) turns a forest into one row per node;
    the rows that belong to no parent are the rows of the nodes handed to the
    first call, in their order, and every other row comes after the row of its
    parent, one level deeper, that row being marked as having children. *)
Theorem flatTree_rows_structure {key : Type} `{Countable key}
    (nodes : list (@FlatTreeGrid.node key)) :
  let rows := FlatTreeGrid.flattenTreeData nodes None 0 in
  length rows = FlatTreeGrid.forest_count nodes
  ∧ filter (fun r => FlatTreeGrid.parentId r = None) rows
    = FlatTreeGrid.top_row <$> nodes
  ∧ ∀ n r, rows !! n = Some r ->
      (FlatTreeGrid.parentId r = None ∧ FlatTreeGrid.depth r = 0%nat)
      ∨ ∃ m r', (m < n)%nat ∧ rows !! m = Some r'
                ∧ FlatTreeGrid.parentId r = Some (FlatTreeGrid.id r')
                ∧ FlatTreeGrid.depth r = S (FlatTreeGrid.depth r')
                ∧ FlatTreeGrid.hasChildren r' = true.
Proof.
  intros rows. split_and!.
  - apply flattenTreeData_length.
  - apply flattenTreeData_top.
  - apply (flattenTreeData_parents_before nodes None 0).
Qed.

Lemma flatTree_rows_structure_witness :
  length (FlatTreeGrid.flattenTreeData
            [FlatTreeGrid.Node "a" (Some [FlatTreeGrid.Node "b" None])] None 0)
  = 2%nat.
Proof.
  exact (proj1 (flatTree_rows_structure
                  [FlatTreeGrid.Node "a" (Some [FlatTreeGrid.Node "b" None])])).
Defined.

(** X22. [isVisible] (part_008) ends on every row of the flattened data,
    also when ids occur more than once: the loop needs at most as many
    iterations as there are rows, and its answer does not depend on the fuel.
    A row is visible exactly when it has no parent, or its parent id is
    expanded and the first row with that id is visible. *)
Theorem flatTree_isVisible {key : Type} `{Countable key}
    (nodes : list (@FlatTreeGrid.node key)) (expandedIds : gset key)
    (r : @FlatTreeGrid.row key) :
  let rows := FlatTreeGrid.flattenTreeData nodes None 0 in
  r ∈ rows ->
  ∃ b,
    (∀ fuel, (length rows <= fuel)%nat ->
       FlatTreeGrid.isVisible fuel rows expandedIds r = Some b)
    ∧ (b = true
       ↔ match FlatTreeGrid.parentId r with
         | None => True
         | Some c =>
             c ∈ expandedIds
             ∧ ∃ pr,
                 find (fun r' => bool_decide (FlatTreeGrid.id r' = c)) rows = Some pr
                 ∧ FlatTreeGrid.isVisible (length rows) rows expandedIds pr
                   = Some true
         end).
Proof.
  intros rows (n & Hn)%list_elem_of_lookup_1.
  pose proof (flattenTreeData_parents_before nodes None 0) as Hpb. fold rows in Hpb.
  pose proof (lookup_lt_Some _ _ _ Hn) as Hlt.
  destruct (isVisible_total rows expandedIds 0 Hpb n r Hn) as [b Hb].
  exists b. split.
  - intros fuel Hfuel. apply Hb. lia.
  - destruct (FlatTreeGrid.parentId r) as [c|] eqn:Hc.
    + rewrite <- (isVisible_parent rows expandedIds 0 Hpb n r c (length rows) Hn Hc)
        by lia.
      rewrite (Hb (length rows)) by lia. split; [by intros ->|by intros [= ->]].
    + split; [done|]. intros _.
      specialize (Hb n (le_n _)). unfold FlatTreeGrid.isVisible in Hb.
      rewrite Hc, isVisible_loop_None in Hb. congruence.
Qed.

Lemma flatTree_isVisible_witness :
  ∃ b,
    (∀ fuel, (2 <= fuel)%nat ->
       FlatTreeGrid.isVisible fuel
         [FlatTreeGrid.Row "a" None 0 true; FlatTreeGrid.Row "b" (Some "a") 1 false]
         {[ "a" ]} (FlatTreeGrid.Row "b" (Some "a") 1 false) = Some b)
    ∧ (b = true
       ↔ "a" ∈ ({[ "a" ]} : gset string)
         ∧ ∃ pr,
             find (fun r' => bool_decide (FlatTreeGrid.id r' = "a"))
               [FlatTreeGrid.Row "a" None 0 true; FlatTreeGrid.Row "b" (Some "a") 1 false]
             = Some pr
             ∧ FlatTreeGrid.isVisible 2
                 [FlatTreeGrid.Row "a" None 0 true; FlatTreeGrid.Row "b" (Some "a") 1 false]
                 {[ "a" ]} pr = Some true).
Proof.
  apply (flatTree_isVisible
           [FlatTreeGrid.Node "a" (Some [FlatTreeGrid.Node "b" None])]
           {[ "a" ]} (FlatTreeGrid.Row "b" (Some "a") 1 false)).
  right. left.
Defined.

(** X23. [visibleRows] (part_008) keeps, in their order, the rows that
    [isVisible] accepts. With nothing expanded these are the rows of the
    top-level nodes; after [toggleExpanded] of a top-level node they are the
    top-level rows and the rows whose parent id is that node's id.
    [toggleExpanded] applied twice gives the set back. *)
Theorem flatTree_visibleRows {key : Type} `{Countable key}
    (nodes : list (@FlatTreeGrid.node key)) (expandedIds : gset key) (i : key) :
  let rows := FlatTreeGrid.flattenTreeData nodes None 0 in
  (∀ fuel, (length rows <= fuel)%nat ->
     FlatTreeGrid.visibleRows fuel rows expandedIds
     = Some (filter (fun r => FlatTreeGrid.isVisible fuel rows expandedIds r = Some true)
                    rows))
  ∧ (∀ fuel, FlatTreeGrid.visibleRows fuel rows ∅
             = Some (FlatTreeGrid.top_row <$> nodes))
  ∧ (∀ fuel pr,
       find (fun r' => bool_decide (FlatTreeGrid.id r' = i)) rows = Some pr ->
       FlatTreeGrid.parentId pr = None ->
       FlatTreeGrid.visibleRows (S fuel) rows (FlatTreeGrid.toggleExpanded i ∅)
       = Some (filter (fun r => FlatTreeGrid.parentId r = None
                                ∨ FlatTreeGrid.parentId r = Some i) rows))
  ∧ FlatTreeGrid.toggleExpanded i (FlatTreeGrid.toggleExpanded i expandedIds)
    = expandedIds.
Proof.
  intros rows. split_and!.
  - intros fuel Hfuel. apply visibleRows_filter. intros r (n & Hn)%list_elem_of_lookup_1.
    pose proof (flattenTreeData_parents_before nodes None 0) as Hpb. fold rows in Hpb.
    pose proof (lookup_lt_Some _ _ _ Hn) as Hlt.
    destruct (isVisible_total rows expandedIds 0 Hpb n r Hn) as [b Hb].
    rewrite Hb by lia. done.
  - intros fuel. unfold FlatTreeGrid.visibleRows.
    rewrite visibleRows_filter by (intros r _; by rewrite isVisible_collapsed).
    f_equal. unfold rows. rewrite <- flattenTreeData_top.
    apply list_filter_iff. intros r. rewrite isVisible_collapsed.
    split; [by intros [= ?%bool_decide_eq_true]|].
    intros Hr. by rewrite bool_decide_eq_true_2.
  - intros fuel pr Hfind Hroot.
    assert (Htog : FlatTreeGrid.toggleExpanded i (∅ : gset key) = {[ i ]}).
    { unfold FlatTreeGrid.toggleExpanded.
      rewrite bool_decide_eq_false_2 by apply not_elem_of_empty.
      by rewrite (left_id_L ∅ (∪)). }
    rewrite Htog. unfold FlatTreeGrid.visibleRows.
    rewrite visibleRows_filter
      by (intros r _; by rewrite (isVisible_one_expanded rows fuel i pr r)).
    f_equal. apply list_filter_iff. intros r.
    rewrite (isVisible_one_expanded rows fuel i pr r) by done.
    split; [by intros [= ?%bool_decide_eq_true]|].
    intros Hr. by rewrite bool_decide_eq_true_2.
  - unfold FlatTreeGrid.toggleExpanded.
    destruct (decide (i ∈ expandedIds)) as [Hin|Hnot].
    + rewrite (bool_decide_eq_true_2 _ Hin).
      rewrite bool_decide_eq_false_2.
      * apply set_eq. intros x.
        rewrite elem_of_union, elem_of_difference, elem_of_singleton. split.
        -- by intros [[? _]| ->].
        -- intros Hx. destruct (decide (x = i)); [by right|by left].
      * rewrite elem_of_difference, elem_of_singleton. by intros [_ Hn].
    + rewrite (bool_decide_eq_false_2 _ Hnot).
      rewrite bool_decide_eq_true_2.
      * apply set_eq. intros x.
        rewrite elem_of_difference, elem_of_union, elem_of_singleton. split.
        -- by intros [[?| ->] Hne].
        -- intros Hx. split; [by left|]. by intros ->.
      * apply elem_of_union. right. by apply elem_of_singleton.
Qed.

Lemma flatTree_visibleRows_witness :
  FlatTreeGrid.visibleRows 1
    (FlatTreeGrid.flattenTreeData
       [FlatTreeGrid.Node "a" (Some [FlatTreeGrid.Node "b" None]);
        FlatTreeGrid.Node "c" None] None 0)
    (FlatTreeGrid.toggleExpanded "a" ∅)
  = Some [FlatTreeGrid.Row "a" None 0 true; FlatTreeGrid.Row "b" (Some "a") 1 false;
          FlatTreeGrid.Row "c" None 0 false].
Proof.
  exact (proj1 (proj2 (proj2
           (flatTree_visibleRows
              [FlatTreeGrid.Node "a" (Some [FlatTreeGrid.Node "b" None]);
               FlatTreeGrid.Node "c" None] ∅ "a")))
           0%nat (FlatTreeGrid.Row "a" None 0 true) eq_refl eq_refl).
Defined.
